(** * vines: bowl-transducer field synthesis, power calibration and the
      harmonic cascade of the HIFU demo

    A shallow embedding of
      - [src/vines/fields/transducers.py]  ([bowl_transducer], its nested
        [eval_source], [normalise_power]);
      - the harmonic loop of [src/demo/hifu/transducer_nonlinear.py].

    Numbers.  Python floats and numpy [float64]/[complex128] values are
    idealised as real and complex numbers ([R] and [C = R * R]): rounding
    error, overflow and the non-finite values [inf] and [nan] are not
    represented.  The definitions are total functions on the reals, and
    they agree with the program on the inputs on which the program
    computes finite values only.  For [bowl_transducer] and
    [normalise_power] these are the geometries of [valid_geometry]; what
    the source does on the others (an exception, or a [nan]) is said at
    each definition, and every theorem stating that such a call returns
    carries the valid geometry as a hypothesis.  The one place where the
    program computes a non-finite value that nothing reads (the band width
    when the band count is zero) is pointed out where it occurs.
    Python [int]s are [Z] (or [nat] where they are only ever used as
    indices).

    Exceptions.  Code that can raise returns an [outcome]; the exception
    names are the Python ones. *)

From Stdlib Require Import Reals Lra Lia ZArith List String Ascii.
From stdpp Require Import base list.
Import ListNotations.

Open Scope R_scope.

(* ------------------------------------------------------------------ *)
(** ** Complex numbers, as numpy's [complex128] computes with them      *)
(* ------------------------------------------------------------------ *)

Module Cplx.

Definition C : Type := (R * R)%type.

Definition Re (z : C) : R := fst z.
Definition Im (z : C) : R := snd z.

(** A float used where a complex is expected. *)
Definition RtoC (x : R) : C := (x, 0).

Definition C0 : C := RtoC 0.

(** The literal [1j]. *)
Definition Ci : C := (0, 1).

Definition Cadd (z w : C) : C := (Re z + Re w, Im z + Im w).

Definition Cmul (z w : C) : C :=
  (Re z * Re w - Im z * Im w, Re z * Im w + Im z * Re w).

(** [float * complex], elementwise on both parts. *)
Definition Cscal (a : R) (z : C) : C := (a * Re z, a * Im z).

(** [np.exp] of a complex number. *)
Definition Cexp (z : C) : C := (exp (Re z) * cos (Im z), exp (Re z) * sin (Im z)).

(** [np.abs] of a complex number. *)
Definition Cabs (z : C) : R := sqrt (Re z * Re z + Im z * Im z).

(** [np.real]. *)
Definition np_real (z : C) : R := Re z.

End Cplx.
Export Cplx.

(* ------------------------------------------------------------------ *)
(** ** Exceptions                                                       *)
(* ------------------------------------------------------------------ *)

Inductive exn : Set :=
| ZeroDivisionError   (* a division by zero inside the compiled kernel *)
| TypingError         (* numba cannot compile [eval_source] for Python lists:
                         a list has no attribute [shape] *)
| IndexError          (* an index past the end of an array *)
| NameError.          (* a local variable read before any assignment *)

Inductive outcome (A : Type) : Type :=
| Ok (a : A)
| Raise (e : exn).
Arguments Ok {A} a.
Arguments Raise {A} e.

#[global] Instance outcome_ret : MRet outcome := @Ok.
#[global] Instance outcome_bind : MBind outcome :=
  fun A B (f : A -> outcome B) (m : outcome A) =>
    match m with
    | Ok a => f a
    | Raise e => Raise e
    end.

(** A left-to-right loop whose body can raise: the first exception ends it. *)
Fixpoint foldlM {A B : Type} (f : A -> B -> outcome A) (l : list B) (acc : A)
  : outcome A :=
  match l with
  | [] => Ok acc
  | b :: l' => acc' ← f acc b; foldlM f l' acc'
  end.

(** One result per element, in order; the first exception ends the loop. *)
Fixpoint forM {A B : Type} (f : A -> outcome B) (l : list A) : outcome (list B) :=
  match l with
  | [] => Ok []
  | a :: l' => b ← f a; bs ← forM f l'; Ok (b :: bs)
  end.

(** Python's [range(0, n)] for an [int] [n]: empty when [n <= 0]. *)
Definition py_range (n : Z) : list Z := map Z.of_nat (seq 0 (Z.to_nat n)).

(* ------------------------------------------------------------------ *)
(** ** numpy helpers                                                    *)
(* ------------------------------------------------------------------ *)

(** [np.round] of a scalar: to the nearest integer, ties to the even one. *)
Definition np_round (x : R) : R :=
  let f := Int_part x in
  let r := frac_part x in
  if Rlt_dec r (1 / 2) then IZR f
  else if Rlt_dec (1 / 2) r then IZR (f + 1)
  else if Z.even f then IZR f else IZR (f + 1).

(** [np.int] is Python's [int]: truncation towards zero. *)
Definition np_int (x : R) : Z :=
  if Rle_dec 0 x then Int_part x else (- Int_part (- x))%Z.

(** [np.linspace(start, stop, num)]: [num] equally spaced samples, both ends
    included. *)
Definition linspace (start stop : R) (num : nat) : list R :=
  let step := (stop - start) / INR (num - 1) in
  map (fun i => INR i * step + start) (seq 0 num).

(** [np.sum] of a one-dimensional float array. *)
Definition np_sum (l : list R) : R := fold_left Rplus l 0.

(** Elementwise product of two arrays of one shape. *)
Definition np_mul (u v : list R) : list R := zip_with Rmult u v.

(** A float array of shape (3, n) is held column by column: entry [i] is
    [(points[0, i], points[1, i], points[2, i])], and [points.shape[1]] is
    the length of the list. *)
Definition points3 : Type := list (R * R * R).

(** [np.vstack((row0, row1, row2))] of three rows of one length. *)
Definition vstack3 (row0 row1 row2 : list R) : points3 :=
  zip_with (fun ab c => (fst ab, snd ab, c)) (zip_with pair row0 row1) row2.

(* ------------------------------------------------------------------ *)
(** ** [eval_source]  (transducers.py, lines 59-73)                     *)
(* ------------------------------------------------------------------ *)

(** The fixed minimum distance of the guard, the literal [1e-3]. *)
Definition min_dist : R := 1e-3.

(** Division of a complex by a float inside the compiled kernel.  It is
    modelled as able to fail: a zero divisor raises. *)
Definition Cdiv_float (z : C) (d : R) : outcome C :=
  if Req_dec_T d 0 then Raise ZeroDivisionError
  else Ok (Re z / d, Im z / d).

(** [np.sqrt((points[0,i] - x[j])**2 + (points[1,i] - y[j])**2 +
            (points[2,i] - z[j])**2)] *)
Definition distance (pt : R * R * R) (xj yj zj : R) : R :=
  let '(p0, p1, p2) := pt in
  sqrt ((p0 - xj) ^ 2 + (p1 - yj) ^ 2 + (p2 - zj) ^ 2).

(** The body of the loop over [j]: [temp] is the accumulator.  The arrays
    are read at index [j < x.shape[0]]; [x], [y] and [z] have one length
    wherever the program calls [eval_source]. *)
Definition eval_source_body (x y z : list R) (pt : R * R * R) (k : C)
    (temp : C) (j : nat) : outcome C :=
  let dist := distance pt (nth j x 0) (nth j y 0) (nth j z 0) in
  if Rgt_dec dist min_dist then
    term ← Cdiv_float (Cexp (Cmul (Cmul Ci k) (RtoC dist))) (4 * PI * dist);
    Ok (Cadd temp term)
  else Ok temp.

(** The loop over the observation points writes [p[i]] for every [i]; the
    iterations are independent, so [prange] is an ordinary loop here. *)
Definition eval_source (x y z : list R) (points : points3) (k : C)
  : outcome (list C) :=
  forM (fun pt => foldlM (eval_source_body x y z pt k) (seq 0 (length x)) C0)
       points.

(* ------------------------------------------------------------------ *)
(** ** [bowl_transducer]  (transducers.py, lines 1-79)                  *)
(* ------------------------------------------------------------------ *)

(** The three coordinate lists under construction and the counter. *)
Record tiling : Type := mk_tiling {
  tx : list R;
  ty : list R;
  tz : list R;
  n_count : Z
}.

Definition tiling_empty : tiling := mk_tiling [] [] [] 0.

(** Body of the loop over [n]: one source appended to each list. *)
Definition azimuth_step (focal_length theta : R) (M_phi : Z)
    (t : tiling) (n : Z) : tiling :=
  let phi := 2 * PI * IZR n / IZR M_phi in
  mk_tiling (tx t ++ [focal_length * sin theta * cos phi])
            (ty t ++ [focal_length * sin theta * sin phi])
            (tz t ++ [focal_length * cos theta])
            (n_count t + 1).

(** Body of the loop over [m]: one latitude band. *)
Definition band_step (focal_length theta1 theta2 : R) (M_theta : Z) (d_phi : R)
    (t : tiling) (m : Z) : tiling :=
  let theta := (theta2 - theta1) * (IZR m + 0.5) / IZR M_theta + theta1 in
  let M_phi := np_int (np_round (2 * PI * sin theta / d_phi)) in
  fold_left (azimuth_step focal_length theta M_phi) (py_range M_phi) t.

(** Python's [s in t] on strings: [s] occurs in [t] as a contiguous block. *)
Fixpoint str_in (s t : string) : bool :=
  String.prefix s t ||
  match t with
  | EmptyString => false
  | String _ t' => str_in s t'
  end.

(** After the orientation step the coordinates are numpy arrays when a
    branch ran, and still the Python lists of the tiling loop otherwise. *)
Inductive coords : Type :=
| NdArrays (x y z : list R)
| PyLists (x y z : list R).

(** Lines 37-47.  [focus] is a 3-vector. *)
Definition orient (axis : string) (focus : R * R * R) (x y z : list R) : coords :=
  let '(focus0, _, focus2) := focus in
  if str_in axis "z" then
    NdArrays x y (map (fun v => focus2 - v) z)
  else if str_in axis "x" then
    let x_t := x in
    let y_t := y in
    let z_t := map (fun v => focus0 - v) z in
    NdArrays z_t (map Ropp x_t) (map Ropp y_t)
  else PyLists x y z.

(** The geometries [bowl_transducer] is written for: a positive focal
    length, an inner aperture radius that is not negative and is smaller
    than the outer radius, an outer radius that does not exceed the focal
    length, and at least one requested source.  On these, lines 14-21
    compute finite numbers: both quotients [r / focal_length] lie in
    [[0, 1]], the polar angles satisfy [0 <= theta1 < theta2 <= pi / 2]
    and the area per source is positive (lemma [valid_geometry_finite]).
    On other inputs the source does not behave as the total definitions
    below: the division of Python floats by [focal_length = 0] raises
    [ZeroDivisionError], [np.arcsin] of a quotient beyond 1 and [np.sqrt]
    of a negative area yield [nan], and [np.int(np.round(.))] of a [nan]
    or an [inf] raises [ValueError] or [OverflowError]. *)
Definition valid_geometry (focal_length radius aperture_radius : R)
    (n_elements : Z) : Prop :=
  0 < focal_length /\ 0 <= aperture_radius /\ aperture_radius < radius /\
  radius <= focal_length /\ (1 <= n_elements)%Z.

(** Lines 14-15: [np.arcsin(r / focal_length)] for the inner and the outer
    radius.  The definition is the source's for [focal_length <> 0] and
    [-1 <= r / focal_length <= 1]; elsewhere the source raises or yields
    [nan], whereas [asin] and the division of the reals are total. *)
Definition theta_of (r focal_length : R) : R := asin (r / focal_length).

(** Lines 17 and 19: the area per source, on the sphere of radius
    [r = 1.0]. *)
Definition area_element (theta1 theta2 : R) (n_elements : Z) : R :=
  let r := 1 in
  2 * PI * r ^ 2 * (cos theta1 - cos theta2) / IZR n_elements.

(** Lines 20-21: the number of latitude bands.  The definition is the
    source's for a positive area [a]; for [a <= 0] the quotient of the
    source is [nan] or infinite and [np.int(np.round(.))] raises. *)
Definition band_count (theta1 theta2 a : R) : Z :=
  let d := sqrt a in
  np_int (np_round ((theta2 - theta1) / d)).

(** Lines 22-35: the band width, the azimuthal spacing and the tiling
    loops.  [(theta2 - theta1) / M_theta] divides a numpy [float64] (the
    difference of two results of [np.arcsin]) by a Python [int]; numpy's
    scalar division does not raise on a zero divisor (it warns and yields
    a non-finite value), so this step cannot fail.  Its result, and [d_phi]
    computed from it, are read only inside the band loop, which has an
    iteration only when [M_theta >= 1]. *)
Definition tile (focal_length theta1 theta2 a : R) : tiling :=
  let M_theta := band_count theta1 theta2 a in
  let d_theta := (theta2 - theta1) / IZR M_theta in
  let d_phi := a / d_theta in
  fold_left (band_step focal_length theta1 theta2 M_theta d_phi)
            (py_range M_theta) tiling_empty.

(** The value returned is [(x, y, z, p * a)].  The only exception shown is
    the one of the compiled kernel; the definition is the source's on the
    geometries of [valid_geometry], outside which the source raises before
    the tiling loop (see [theta_of] and [band_count]). *)
Definition bowl_transducer (k : C) (focal_length : R) (focus : R * R * R)
    (radius : R) (n_elements : Z) (aperture_radius : R) (points : points3)
    (axis : string) : outcome (coords * list C) :=
  let theta1 := theta_of aperture_radius focal_length in
  let theta2 := theta_of radius focal_length in
  let a := area_element theta1 theta2 n_elements in
  let t := tile focal_length theta1 theta2 a in
  let xyz := orient axis focus (tx t) (ty t) (tz t) in
  p ← match xyz with
      | NdArrays x y z => eval_source x y z points k
      | PyLists _ _ _ => Raise TypingError
      end;
  Ok (xyz, map (Cscal a) p).

(* ------------------------------------------------------------------ *)
(** ** [normalise_power]  (transducers.py, lines 82-98)                 *)
(* ------------------------------------------------------------------ *)

Definition n_quad : nat := 500.

(** Line 89. *)
Definition x_location_disk (focal_length radius : R) : R :=
  focal_length - 0.98 * sqrt (focal_length ^ 2 - radius ^ 2).

(** Lines 86-92: the radial samples and the points of the disk. *)
Definition r_quad (radius : R) : list R := linspace 0 (radius * 1.0) n_quad.

Definition points_quad (focal_length radius : R) : points3 :=
  vstack3 (map (Rmult (x_location_disk focal_length radius)) (replicate n_quad 1))
          (replicate n_quad 0)
          (r_quad radius).

(** Line 96, as a function of the field on the disk. *)
Definition quad_integral (radius : R) (p_quad : list C) : R :=
  let r_quad_dim := radius * 1.0 in
  2 * PI * np_sum (np_mul (map (fun p => Cabs p ^ 2) p_quad) (r_quad radius))
    * r_quad_dim / INR n_quad.

(** Lines 82-98.  As for [bowl_transducer], the definition is the source's
    on the geometries of [valid_geometry]; the amplitude of line 97 is
    the source's when the integral is not zero and the quotient under the
    square root is not negative (numpy yields [inf] and [nan] otherwise,
    and raises nothing). *)
Definition normalise_power (power rho c0 radius : R) (k1 : C)
    (focal_length : R) (focus : R * R * R) (n_elements : Z)
    (aperture_radius : R) : outcome R :=
  '(_, p_quad) ← bowl_transducer (RtoC (np_real k1)) focal_length focus radius
                    n_elements aperture_radius
                    (points_quad focal_length radius) "x";
  let integral := quad_integral radius p_quad in
  let p0 := sqrt (2 * rho * c0 * power / integral) in
  Ok p0.

(* ------------------------------------------------------------------ *)
(** ** The harmonic cascade  (transducer_nonlinear.py, lines 42-52,
       116-118 and 147-190)                                             *)
(* ------------------------------------------------------------------ *)

(** The operators the script imports from [vines.operators] and
    [vines.precondition].  The script only calls them, so the cascade is
    stated for any implementation of this interface. *)
Class VinesOperators : Type := {
  grid : Type;                (* the voxel coordinate tensor [r] *)
  toeplitz : Type;            (* what [volume_potential] returns *)
  circulant : Type;           (* what [circulant_embed_fftw] returns *)
  volume_potential : C -> grid -> toeplitz;
  circulant_embed_fftw : toeplitz -> nat -> nat -> nat -> circulant;
  mvp_volume_potential : list C -> circulant -> list bool -> list C -> list C
}.

(** A complex field on the [L x M x N] grid, held as the flat vector of its
    [L*M*N] values in Fortran order; with that convention the
    [reshape(..., order='F')] calls of the script change nothing. *)
Definition field : Type := list C.

Definition reshape_F (u : field) : field := u.

Definition fscal (a : R) (u : field) : field := map (Cscal a) u.
Definition fmul (u v : field) : field := zip_with Cmul u v.
Definition fadd (u v : field) : field := zip_with Cadd u v.

(** The medium and transducer constants of the script. *)
Record params : Type := mk_params {
  c : R;          (* speed of sound *)
  rho : R;        (* density *)
  alpha0 : R;     (* attenuation power law: coefficient *)
  eta : Z;        (* attenuation power law: exponent *)
  beta : R;       (* nonlinearity parameter *)
  f1 : R          (* fundamental frequency *)
}.

Definition demo_params : params := mk_params 1487.0 998.0 0.217 2 3.5 1.1e6.
Definition demo_n_harm : nat := 2.

(** Lines 49-52. *)
Definition attenuation (f alpha0 : R) (eta : Z) : R :=
  alpha0 * powerRZ (f * 1e-6) eta.

(** Line 77. *)
Definition omega (pr : params) : R := 2 * PI * f1 pr.

(** Lines 149-150, for the loop index [i_harm]. *)
Definition harmonic_frequency (pr : params) (i_harm : nat) : R :=
  INR (i_harm + 1) * f1 pr.

Definition harmonic_wavenumber (pr : params) (i_harm : nat) : C :=
  let f2 := harmonic_frequency pr i_harm in
  Cadd (RtoC (2 * PI * f2 / c pr))
       (Cmul Ci (RtoC (attenuation f2 (alpha0 pr) (eta pr)))).

(** [P[j]] and [P[j] = v] on the stack of harmonics. *)
Definition getitem (P : list field) (j : nat) : outcome field :=
  match P !! j with
  | Some u => Ok u
  | None => Raise IndexError
  end.

Definition setitem (P : list field) (j : nat) (v : field) : outcome (list field) :=
  if decide (j < length P)%nat then Ok (<[j := v]> P) else Raise IndexError.

(** Lines 160-174: the [if]/[elif] chain that assigns [xIn].  When no
    branch matches, [xIn] keeps the value an earlier iteration gave it. *)
Definition build_forcing (pr : params) (i_harm : nat) (P : list field)
    (xIn : option field) : outcome field :=
  if (i_harm =? 1)%nat then
    P0 ← getitem P 0;
    Ok (fmul (fscal (-2 * beta pr * omega pr ^ 2 / (rho pr * c pr ^ 4)) P0) P0)
  else if (i_harm =? 2)%nat then
    P0 ← getitem P 0; P1 ← getitem P 1;
    Ok (fmul (fscal (-9 * beta pr * omega pr ^ 2 / (rho pr * c pr ^ 4)) P0) P1)
  else if (i_harm =? 3)%nat then
    P1 ← getitem P 1; P0 ← getitem P 0; P2 ← getitem P 2;
    Ok (fscal (-8 * beta pr * omega pr ^ 2 / (rho pr * c pr ^ 4))
              (fadd (fmul P1 P1) (fmul (fscal 2 P0) P2)))
  else if (i_harm =? 4)%nat then
    P0 ← getitem P 0; P3 ← getitem P 3; P1 ← getitem P 1; P2 ← getitem P 2;
    Ok (fscal (-25 * beta pr * omega pr ^ 2 / (rho pr * c pr ^ 4))
              (fadd (fmul P0 P3) (fmul P1 P2)))
  else
    match xIn with
    | Some u => Ok u
    | None => Raise NameError
    end.

(** The names the loop body binds; they outlive the iteration that bound
    them, as Python variables do. *)
Record cascade_vars `{VinesOperators} : Type := mk_vars {
  P : list field;
  k2 : option C;
  toep_op : option toeplitz;
  circ_op : option circulant;
  xIn : option field
}.

Section Cascade.
Context `{ops : VinesOperators}.
Variables (pr : params) (r : grid) (L M N : nat).

(** Lines 177 and 184: the all-true mask and the all-ones contrast. *)
Definition idx : list bool := replicate (L * M * N) true.
Definition Mr : list C := replicate (L * M * N) (RtoC 1).

(** Lines 179-181, with the operator the iteration built. *)
Definition mvp (circ : circulant) (x : list C) : list C :=
  mvp_volume_potential x circ idx Mr.

(** Lines 149-188: one iteration of the loop over [i_harm]. *)
Definition harmonic_step (st : cascade_vars) (i_harm : nat)
  : outcome cascade_vars :=
  let k2' := harmonic_wavenumber pr i_harm in
  let toep_op' := volume_potential k2' r in
  let circ_op' := circulant_embed_fftw toep_op' L M N in
  xIn' ← build_forcing pr i_harm (P st) (xIn st);
  let xInVec := reshape_F xIn' in
  P' ← setitem (P st) i_harm (reshape_F (mvp circ_op' xInVec));
  Ok (mk_vars _ P' (Some k2') (Some toep_op') (Some circ_op') (Some xIn')).

(** Lines 116-118: the stack of harmonics, with the fundamental in row 0. *)
Definition initial_stack (n_harm : nat) (p : field) : outcome (list field) :=
  setitem (replicate n_harm (replicate (L * M * N) C0)) 0 (reshape_F p).

(** Lines 147-148: [for i_harm in range(1, n_harm)]. *)
Definition cascade (n_harm : nat) (p : field) : outcome cascade_vars :=
  P0 ← initial_stack n_harm p;
  foldlM harmonic_step (seq 1 (n_harm - 1)) (mk_vars _ P0 None None None None).

End Cascade.

(* ------------------------------------------------------------------ *)
(** ** The formulas of the specification                                *)
(* ------------------------------------------------------------------ *)

Module Spec.

(** Euclidean distance between an observation point and a source. *)
Definition dist (p s : R * R * R) : R :=
  sqrt ((p.1.1 - s.1.1) ^ 2 + (p.1.2 - s.1.2) ^ 2 + (p.2 - s.2) ^ 2).

(** The monopole term [exp(i k d) / (4 pi d)] for [k = Re k + i Im k],
    written out in real and imaginary part; a pair at or below the
    minimum distance contributes zero. *)
Definition monopole (k : C) (d : R) : C :=
  if Rle_dec d min_dist then (0, 0)
  else (exp (- Im k * d) * cos (Re k * d) / (4 * PI * d),
        exp (- Im k * d) * sin (Re k * d) / (4 * PI * d)).

(** Sum of a finite family of complex numbers. *)
Definition Csum (l : list C) : C := foldr Cadd (0, 0) l.

(** [a * sum_j monopole(d_j)] at one observation point. *)
Definition pressure (k : C) (a : R) (sources : list (R * R * R))
    (pt : R * R * R) : C :=
  Cscal a (Csum (map (fun s => monopole k (dist pt s)) sources)).

(** Area of the part of a sphere of radius [rr] between the polar angles
    [theta1] and [theta2]. *)
Definition cap_area (rr theta1 theta2 : R) : R :=
  2 * PI * rr ^ 2 * (cos theta1 - cos theta2).

(** [sum_{i < n} f i]. *)
Fixpoint sum_upto (f : nat -> R) (n : nat) : R :=
  match n with
  | O => 0
  | S n' => sum_upto f n' + f n'
  end.

(** The [i]-th of 500 equally spaced samples from 0 to [R]. *)
Definition sample (radius : R) (i : nat) : R := INR i * radius / 499.

(** [2 pi * (sum_i |p(r_i)|^2 r_i) * R / 500]. *)
Definition quadrature (radius : R) (p : R -> C) : R :=
  2 * PI
  * sum_upto (fun i => (Re (p (sample radius i)) ^ 2 + Im (p (sample radius i)) ^ 2)
                       * sample radius i) 500
  * radius / 500.

(** "Near the focus", read as weakly as the words allow: the disk is on
    the near side of the focus and closer to it than to the bowl, whose
    apex is at distance [focal_length] from the focus. *)
Definition just_short_of_focus (focal_length x_disk : R) : Prop :=
  x_disk < focal_length /\ focal_length - x_disk < x_disk.

End Spec.

(** The sources an oriented coordinate triple stands for. *)
Definition sources_of (xyz : coords) : list (R * R * R) :=
  match xyz with
  | NdArrays x y z | PyLists x y z =>
      zip_with (fun ab c => (fst ab, snd ab, c)) (zip_with pair x y) z
  end.

(* ------------------------------------------------------------------ *)
(** ** Auxiliary notions used by the proofs                             *)
(* ------------------------------------------------------------------ *)

(** What the inner loop computes for one observation point, index by index. *)
Definition inner_sum (x y z : list R) (k : C) (pt : R * R * R) : C :=
  fold_left
    (fun temp j =>
       Cadd temp (Spec.monopole k (distance pt (nth j x 0) (nth j y 0) (nth j z 0))))
    (seq 0 (length x)) C0.

(** The three lists of a tiling have one length, which the counter holds. *)
Definition in_step (t : tiling) : Prop :=
  length (ty t) = length (tx t) /\ length (tz t) = length (tx t) /\
  n_count t = Z.of_nat (length (tx t)).

(** A recognised axis: one of the two branches of the orientation step runs. *)
Definition recognised (axis : string) : bool := str_in axis "z" || str_in axis "x".

(** Two stacks that agree below [n]. *)
Definition agree (n : nat) (P Q : list field) : Prop :=
  forall j, (j < n)%nat -> P !! j = Q !! j.

(** A stand-in for the operators of the library, to run the cascade on
    concrete data: the kernel is the wavenumber itself, the embedding keeps
    it, and the product multiplies every entry by it. *)
Definition scalar_ops : VinesOperators :=
  {| grid := unit;
     toeplitz := C;
     circulant := C;
     volume_potential := fun k _ => k;
     circulant_embed_fftw := fun t _ _ _ => t;
     mvp_volume_potential := fun x circ _ _ => map (Cmul circ) x |}.

(* ------------------------------------------------------------------ *)
(** ** The rest of the HIFU script  (transducer_nonlinear.py, lines
       55-118, 130 and 140-141)                                         *)
(* ------------------------------------------------------------------ *)

(** [np.floor] of a scalar. *)
Definition np_floor (x : R) : R := IZR (Int_part x).

Module Hifu.

(** Lines 61-65 and 100: the transducer of the script. *)
Record transducer : Type := mk_transducer {
  roc : R;          (* radius of curvature, the focal length *)
  inner_D : R;      (* inner diameter *)
  outer_D : R;      (* outer diameter *)
  power : R;        (* total acoustic power *)
  n_elements : Z    (* requested number of point sources *)
}.

Definition demo_transducer : transducer := mk_transducer 0.0632 0.0 0.064 44 (2 ^ 12).

(** A hemispherical bowl of unit focal length and one requested source,
    small enough to be evaluated by hand. *)
Definition one_source_transducer : transducer := mk_transducer 1 0 2 44 1.

(** Line 67: [focus = [roc, 0., 0.]]. *)
Definition focus (td : transducer) : R * R * R := (roc td, 0, 0).

(** Lines 75-76. *)
Definition lam (pr : params) : R := c pr / f1 pr.

Definition k1 (pr : params) : C :=
  Cadd (RtoC (2 * PI * f1 pr / c pr))
       (Cmul Ci (RtoC (attenuation (f1 pr) (alpha0 pr) (eta pr)))).

(** Lines 105-107, for one point of the grid. *)
Definition dist_from_focus (td : transducer) (pt : R * R * R) : R :=
  sqrt ((pt.1.1 - (focus td).1.1) ^ 2 + pt.1.2 ^ 2 + pt.2 ^ 2).

Definition idx_near (td : transducer) (pt : R * R * R) : bool :=
  if Rlt_dec (Rabs (dist_from_focus td pt - roc td)) 5e-4 then true else false.

(** Line 108: [p[idx_near] = 0.0]. *)
Definition zero_near (td : transducer) (points : points3) (p : list C) : list C :=
  zip_with (fun pt v => if idx_near td pt then C0 else v) points p.

(** The transducers [bowl_transducer] and [normalise_power] are written
    for (lines 101-102 and 112-113 pass the two radii as half diameters). *)
Definition valid_transducer (td : transducer) : Prop :=
  valid_geometry (roc td) (outer_D td / 2) (inner_D td / 2) (n_elements td).

(** The media in which the quotients of lines 75-76, 150 and 163-174 are
    defined: the script divides Python floats by [f1], [c] and
    [rho * c**4], which raises [ZeroDivisionError] on a zero. *)
Definition valid_medium (pr : params) : Prop :=
  c pr <> 0 /\ rho pr <> 0 /\ f1 pr <> 0.

(** Lines 101-114: the incident field on the points of the grid, scaled to
    the requested power.  [points] is [points.T] of the script.  The
    definition is the source's for a valid transducer and a finite
    amplitude [p0]; with a [p0] that is not finite the source's product
    [p *= p0] is [nan] also at the entries set to zero. *)
Definition incident_field (pr : params) (td : transducer) (points : points3)
  : outcome (list C) :=
  '(_, p) ← bowl_transducer (k1 pr) (roc td) (focus td) (outer_D td / 2)
              (n_elements td) (inner_D td / 2) points "x";
  let p := zero_near td points p in
  p0 ← normalise_power (power td) (rho pr) (c pr) (outer_D td / 2) (k1 pr)
         (roc td) (focus td) (n_elements td) (inner_D td / 2);
  Ok (map (Cscal p0) p).

(** Lines 130 and 140-141: [np.int(np.floor(n / 2))]. *)
Definition centre_index (n : nat) : Z := np_int (np_floor (INR n / 2)).

(** Lines 99-190: the incident field, then the cascade.  The definition
    is the source's for a valid transducer in a valid medium, a finite
    amplitude and a grid of [L * M * N] points (line 144 reshapes the
    incident field to [(L, M, N)], which fails for another size). *)
Definition run `{VinesOperators} (pr : params) (td : transducer) (r : grid)
    (L M N : nat) (points : points3) (n_harm : nat) : outcome cascade_vars :=
  p ← incident_field pr td points;
  cascade pr r L M N n_harm p.

End Hifu.

(* ------------------------------------------------------------------ *)
(** ** The sphere script  (sphere_density_contrast.py, lines 67-79
       and 149)                                                         *)
(* ------------------------------------------------------------------ *)

Module Sphere.

(** [arr[idx] = v] for a boolean mask [idx] of the shape of [arr]. *)
Definition masked_fill {A : Type} (idx : list bool) (v : A) (arr : list A) : list A :=
  zip_with (fun (b : bool) old => if b then v else old) idx arr.

(** Division of two Python floats: a zero divisor raises. *)
Definition py_div (x y : R) : outcome R :=
  if Req_dec_T y 0 then Raise ZeroDivisionError else Ok (x / y).

(** The four per-voxel fields of lines 67-79. *)
Record contrast : Type := mk_contrast {
  Mr : list C;
  Dr : list C;
  rho_ratio : list C;
  RHO : list C
}.

(** Lines 67-79, on the flattened grid of [length idx] voxels. *)
Definition contrast_fields (idx : list bool) (refInd : C) (rho0 rho1 : R)
  : outcome contrast :=
  let n := length idx in
  let Mr := masked_fill idx (Cadd (Cmul refInd refInd) (RtoC (- 1)))
                        (replicate n C0) in
  q ← py_div rho0 rho1;
  let Dr := masked_fill idx (RtoC (q - 1)) (replicate n C0) in
  q' ← py_div rho0 rho1;
  let rho_ratio := masked_fill idx (RtoC q') (replicate n (RtoC 1)) in
  let RHO := masked_fill idx (RtoC rho1) (replicate n (RtoC 1)) in
  let RHO := masked_fill (map negb idx) (RtoC rho0) RHO in
  Ok (mk_contrast Mr Dr rho_ratio RHO).

(** Line 149: [np.int(np.round(N / 2))]. *)
Definition centre_index (N : nat) : Z := np_int (np_round (INR N / 2)).

End Sphere.

(* ================================================================== *)
(** * Properties                                                        *)
(* ================================================================== *)

(** ** Complex arithmetic *)

(** Equalities of complex numbers that hold part by part in the ring [R]. *)
Ltac cplx :=
  unfold Cadd, Cmul, Cscal, RtoC, Ci, C0, Re, Im; cbn [fst snd]; f_equal; ring.

Lemma Cexp_phase (k : C) (d : R) :
  Cexp (Cmul (Cmul Ci k) (RtoC d))
  = (exp (- Im k * d) * cos (Re k * d), exp (- Im k * d) * sin (Re k * d)).
Proof.
  destruct k as [kr ki]. unfold Cexp, Cmul, Ci, RtoC, Re, Im. cbn [fst snd].
  f_equal; f_equal; f_equal; ring.
Qed.

Lemma Cabs_Cexp (z : C) : Cabs (Cexp z) = exp (Re z).
Proof.
  unfold Cabs, Cexp, Re, Im. cbn [fst snd].
  replace (exp z.1 * cos z.2 * (exp z.1 * cos z.2)
           + exp z.1 * sin z.2 * (exp z.1 * sin z.2))
    with ((exp z.1 * exp z.1) * ((sin z.2)² + (cos z.2)²))
    by (unfold Rsqr; ring).
  rewrite sin2_cos2, Rmult_1_r.
  apply sqrt_square. left. apply exp_pos.
Qed.

Lemma Cabs_Cexp_pair (m t : R) : Cabs (exp m * cos t, exp m * sin t) = exp m.
Proof. exact (Cabs_Cexp (m, t)). Qed.

Lemma Cabs_sq (z : C) : Cabs z ^ 2 = Re z ^ 2 + Im z ^ 2.
Proof.
  unfold Cabs. simpl pow. rewrite Rmult_1_r, sqrt_sqrt; [ring|].
  nra.
Qed.

Lemma Cabs_sq_scal (a : R) (z : C) : Cabs (Cscal a z) ^ 2 = a ^ 2 * Cabs z ^ 2.
Proof. rewrite !Cabs_sq. unfold Cscal, Re, Im. cbn [fst snd]. ring. Qed.

(** ** The guard of [eval_source] *)

Lemma distance_nonneg pt xj yj zj : 0 <= distance pt xj yj zj.
Proof. destruct pt as [[p0 p1] p2]. apply sqrt_pos. Qed.

Lemma min_dist_pos : 0 < min_dist.
Proof. unfold min_dist. lra. Qed.

Lemma Cdiv_float_ok (z : C) (d : R) :
  d <> 0 -> Cdiv_float z d = Ok (Re z / d, Im z / d).
Proof. intros Hd. unfold Cdiv_float. destruct (Req_dec_T d 0); [contradiction|reflexivity]. Qed.

Lemma divisor_nonzero (d : R) : d > min_dist -> 4 * PI * d <> 0.
Proof.
  intros Hd. pose proof min_dist_pos. pose proof PI_RGT_0. nra.
Qed.

(** What one iteration of the inner loop adds to the accumulator. *)
Lemma eval_source_body_spec x y z pt k temp j :
  eval_source_body x y z pt k temp j
  = Ok (Cadd temp (Spec.monopole k (distance pt (nth j x 0) (nth j y 0) (nth j z 0)))).
Proof.
  unfold eval_source_body, Spec.monopole.
  set (d := distance _ _ _ _).
  destruct (Rgt_dec d min_dist) as [Hd|Hd]; destruct (Rle_dec d min_dist) as [Hl|Hl]; try lra.
  - rewrite Cdiv_float_ok by (apply divisor_nonzero; exact Hd).
    rewrite Cexp_phase. reflexivity.
  - f_equal. destruct temp. cplx.
Qed.

Lemma foldlM_total {A B : Type} (f : A -> B -> outcome A) (g : A -> B -> A)
    (l : list B) (acc : A) :
  (forall a b, f a b = Ok (g a b)) ->
  foldlM f l acc = Ok (fold_left g l acc).
Proof.
  intros Hf. revert acc. induction l as [|b l IH]; intros acc; [reflexivity|].
  cbn [foldlM fold_left]. rewrite Hf. apply IH.
Qed.

Lemma forM_total {A B : Type} (f : A -> outcome B) (g : A -> B) (l : list A) :
  (forall a, f a = Ok (g a)) -> forM f l = Ok (map g l).
Proof.
  intros Hf. induction l as [|a l IH]; [reflexivity|].
  cbn [forM map]. rewrite Hf, IH. reflexivity.
Qed.

Lemma eval_source_total x y z points k :
  eval_source x y z points k = Ok (map (inner_sum x y z k) points).
Proof.
  unfold eval_source. apply forM_total. intros pt.
  unfold inner_sum. apply foldlM_total. intros temp j.
  apply eval_source_body_spec.
Qed.

Lemma Cadd_assoc a b c0 : Cadd (Cadd a b) c0 = Cadd a (Cadd b c0).
Proof. cplx. Qed.

Lemma Cadd_0_l a : Cadd (0, 0) a = a.
Proof. destruct a. cplx. Qed.

Lemma Cadd_0_r a : Cadd a (0, 0) = a.
Proof. destruct a. cplx. Qed.

Lemma fold_left_Cadd (l : list C) (acc : C) :
  fold_left Cadd l acc = Cadd acc (Spec.Csum l).
Proof.
  revert acc. induction l as [|t l IH]; intros acc; cbn [fold_left Spec.Csum foldr].
  - symmetry. apply Cadd_0_r.
  - rewrite IH. apply Cadd_assoc.
Qed.

Lemma fold_left_map_acc {A B S : Type} (h : S -> B -> S) (f : A -> B) (l : list A) (s : S) :
  fold_left (fun acc a => h acc (f a)) l s = fold_left h (map f l) s.
Proof. revert s. induction l as [|a l IH]; intros s; [reflexivity|]. cbn. apply IH. Qed.

(** Reading three lists of one length index by index is reading the list of
    their triples. *)
Lemma map_nth_triples (x y z : list R) (g : R -> R -> R -> C) :
  length y = length x -> length z = length x ->
  map (fun j => g (nth j x 0) (nth j y 0) (nth j z 0)) (seq 0 (length x))
  = map (fun s : R * R * R => g s.1.1 s.1.2 s.2)
        (zip_with (fun ab c0 => (fst ab, snd ab, c0)) (zip_with pair x y) z).
Proof.
  revert y z. induction x as [|a x IH]; intros [|b y] [|c0 z] Hy Hz;
    try discriminate; [reflexivity|].
  cbn [length seq map zip_with nth fst snd]. f_equal.
  rewrite <- seq_shift, map_map. cbn [nth].
  apply IH; [now injection Hy | now injection Hz].
Qed.

Lemma distance_dist pt s : distance pt s.1.1 s.1.2 s.2 = Spec.dist pt s.
Proof. destruct pt as [[p0 p1] p2]. reflexivity. Qed.

Lemma inner_sum_spec x y z k pt :
  length y = length x -> length z = length x ->
  inner_sum x y z k pt
  = Spec.Csum (map (fun s => Spec.monopole k (Spec.dist pt s))
                   (sources_of (NdArrays x y z))).
Proof.
  intros Hy Hz. unfold inner_sum.
  rewrite (fold_left_map_acc Cadd
             (fun j => Spec.monopole k (distance pt (nth j x 0) (nth j y 0) (nth j z 0)))).
  rewrite fold_left_Cadd. unfold C0, RtoC. rewrite Cadd_0_l.
  rewrite (map_nth_triples x y z (fun a b c0 => Spec.monopole k (distance pt a b c0)) Hy Hz).
  cbn [sources_of]. f_equal. apply map_ext. intros s. now rewrite distance_dist.
Qed.

(** ** The tiling loops keep the three lists in step *)

Lemma azimuth_step_in_step fl theta M_phi t n :
  in_step t -> in_step (azimuth_step fl theta M_phi t n).
Proof.
  intros (Hy & Hz & Hn). unfold in_step, azimuth_step. cbn [tx ty tz n_count].
  rewrite !length_app. cbn [length]. lia.
Qed.

Lemma fold_left_invariant {A B : Type} (Inv : A -> Prop) (f : A -> B -> A)
    (l : list B) (a : A) :
  (forall a b, Inv a -> Inv (f a b)) -> Inv a -> Inv (fold_left f l a).
Proof.
  intros Hf. revert a. induction l as [|b l IH]; intros a Ha; [exact Ha|].
  cbn [fold_left]. apply IH, Hf, Ha.
Qed.

Lemma band_step_in_step fl theta1 theta2 M_theta d_phi t m :
  in_step t -> in_step (band_step fl theta1 theta2 M_theta d_phi t m).
Proof.
  intros Ht. unfold band_step. apply fold_left_invariant; [|exact Ht].
  intros a b. apply azimuth_step_in_step.
Qed.

Lemma tile_in_step fl theta1 theta2 a : in_step (tile fl theta1 theta2 a).
Proof.
  unfold tile. apply fold_left_invariant.
  - intros t m. apply band_step_in_step.
  - repeat split.
Qed.

(** ** The orientation step *)

Example str_in_runs :
  str_in "x" "x" = true /\ str_in "y" "z" = false /\ str_in "" "z" = true /\
  str_in "ab" "cabd" = true /\ str_in "xz" "z" = false.
Proof. repeat split. Qed.

Lemma str_in_single (s : string) (ch : ascii) :
  str_in s (String ch EmptyString) = true <-> s = EmptyString \/ s = String ch EmptyString.
Proof.
  destruct s as [|a s']; cbn [str_in String.prefix].
  - split; [now left | reflexivity].
  - destruct (ascii_dec a ch) as [->|Hne].
    + destruct s' as [|b s'']; cbn.
      * split; [now right | reflexivity].
      * split; [discriminate | intros [H|H]; discriminate].
    + cbn. split; [discriminate|].
      intros [H|H]; [discriminate|]. injection H as H. contradiction.
Qed.

Lemma str_in_single_false (s : string) (ch : ascii) :
  s <> EmptyString -> s <> String ch EmptyString ->
  str_in s (String ch EmptyString) = false.
Proof.
  intros H1 H2. destruct (str_in s (String ch EmptyString)) eqn:E; [|reflexivity].
  apply str_in_single in E. destruct E; contradiction.
Qed.

Lemma orient_recognised axis focus x y z :
  recognised axis = true ->
  length y = length x -> length z = length x ->
  exists x' y' z',
    orient axis focus x y z = NdArrays x' y' z' /\
    length y' = length x' /\ length z' = length x'.
Proof.
  unfold recognised, orient. intros Hax Hy Hz. destruct focus as [[f0 f1'] f2].
  destruct (str_in axis "z").
  - eexists _, _, _. split; [reflexivity|]. rewrite length_map. auto.
  - cbn [orb] in Hax. rewrite Hax.
    eexists _, _, _. split; [reflexivity|]. rewrite !length_map. lia.
Qed.

Lemma orient_unrecognised axis focus x y z :
  recognised axis = false -> orient axis focus x y z = PyLists x y z.
Proof.
  unfold recognised, orient. intros Hax. destruct focus as [[f0 f1'] f2].
  apply orb_false_iff in Hax as [-> ->]. reflexivity.
Qed.

Lemma sources_of_length axis focus x y z :
  length y = length x -> length z = length x ->
  length (sources_of (orient axis focus x y z)) = length x.
Proof.
  intros Hy Hz. unfold orient. destruct focus as [[f0 f1'] f2].
  destruct (str_in axis "z"); [|destruct (str_in axis "x")]; cbn [sources_of];
    rewrite !length_zip_with, ?length_map; lia.
Qed.

(** ** Valid geometries *)

Lemma asin_lt (x y : R) : -1 <= x -> x < y -> y <= 1 -> asin x < asin y.
Proof.
  intros Hx Hxy Hy.
  destruct (Rlt_dec (asin x) (asin y)) as [|Hn]; [assumption|exfalso].
  pose proof (asin_bound x) as [Bx1 Bx2]. pose proof (asin_bound y) as [By1 By2].
  assert (H : sin (asin y) <= sin (asin x)) by (apply sin_incr_1; lra).
  rewrite !sin_asin in H by lra. lra.
Qed.

Lemma theta_of_range (fl ap rad : R) :
  0 < fl -> 0 <= ap -> ap < rad -> rad <= fl ->
  0 <= theta_of ap fl /\ theta_of ap fl < theta_of rad fl /\ theta_of rad fl <= PI / 2.
Proof.
  intros Hfl Hap Hlt Hrad. unfold theta_of.
  assert (Hi : 0 < / fl) by now apply Rinv_0_lt_compat.
  assert (Hone : fl * / fl = 1) by (apply Rinv_r; lra).
  assert (H0 : 0 <= ap / fl) by (unfold Rdiv; nra).
  assert (H1 : ap / fl < rad / fl) by (unfold Rdiv; nra).
  assert (H2 : rad / fl <= 1) by (unfold Rdiv; nra).
  split; [|split].
  - destruct (Req_dec (ap / fl) 0) as [->|Hne]; [rewrite asin_0; lra|].
    rewrite <- asin_0. left. apply asin_lt; lra.
  - apply asin_lt; lra.
  - apply asin_bound.
Qed.

(** On a valid geometry, lines 14-21 divide by non-zero numbers, apply
    [np.arcsin] inside [[0, 1]] and [np.sqrt] to a positive area, and
    round a positive finite quotient: the source computes the numbers of
    the embedding and raises nothing before the tiling loop. *)
Lemma valid_geometry_finite (fl rad ap : R) (n : Z) :
  valid_geometry fl rad ap n ->
  let theta1 := theta_of ap fl in
  let theta2 := theta_of rad fl in
  let a := area_element theta1 theta2 n in
  fl <> 0 /\ 0 <= ap / fl <= 1 /\ 0 <= rad / fl <= 1 /\
  0 <= theta1 /\ theta1 < theta2 /\ theta2 <= PI / 2 /\
  IZR n <> 0 /\ 0 < a /\ 0 < sqrt a /\ 0 < (theta2 - theta1) / sqrt a.
Proof.
  intros (Hfl & Hap & Hlt & Hrad & Hn) theta1 theta2 a.
  destruct (theta_of_range fl ap rad Hfl Hap Hlt Hrad) as (T0 & T1 & T2).
  fold theta1 theta2 in T0, T1, T2.
  assert (Hi : 0 < / fl) by now apply Rinv_0_lt_compat.
  assert (Hone : fl * / fl = 1) by (apply Rinv_r; lra).
  assert (HN : 1 <= IZR n) by (apply IZR_le; exact Hn).
  assert (Ha : 0 < a).
  { unfold a, area_element. pose proof PI_RGT_0 as HPI.
    assert (Hc : cos theta2 < cos theta1) by (apply cos_decreasing_1; lra).
    apply Rdiv_lt_0_compat; [|lra].
    apply Rmult_lt_0_compat; [|lra]. simpl pow. lra. }
  assert (Hs : 0 < sqrt a) by now apply sqrt_lt_R0.
  assert (Q1 : 0 <= ap / fl <= 1) by (unfold Rdiv; split; nra).
  assert (Q2 : 0 <= rad / fl <= 1) by (unfold Rdiv; split; nra).
  assert (Hq : 0 < (theta2 - theta1) / sqrt a) by (apply Rdiv_lt_0_compat; lra).
  repeat split; try assumption; lra.
Qed.

(** ** The field [bowl_transducer] returns *)

(** The embedding of a call with a recognised axis, unfolded: the sources
    of the tiling, oriented, and the weighted monopole sum at each
    observation point.  (It is the source's result on a valid geometry.) *)
Lemma bowl_transducer_field k fl focus rad n ap pts axis :
  recognised axis = true ->
  let theta1 := theta_of ap fl in
  let theta2 := theta_of rad fl in
  let a := area_element theta1 theta2 n in
  let t := tile fl theta1 theta2 a in
  let xyz := orient axis focus (tx t) (ty t) (tz t) in
  bowl_transducer k fl focus rad n ap pts axis
  = Ok (xyz, map (Spec.pressure k a (sources_of xyz)) pts).
Proof.
  intros Hax theta1 theta2 a t xyz. unfold bowl_transducer.
  fold theta1 theta2. fold a. fold t. fold xyz.
  destruct (tile_in_step fl theta1 theta2 a) as (Hy & Hz & _). fold t in Hy, Hz.
  destruct (orient_recognised axis focus _ _ _ Hax Hy Hz)
    as (x' & y' & z' & Hor & Hy' & Hz').
  fold xyz in Hor. rewrite Hor.
  rewrite eval_source_total. cbn [mbind outcome_bind].
  f_equal. f_equal. rewrite map_map. apply map_ext. intros pt.
  unfold Spec.pressure. f_equal. now apply inner_sum_spec.
Qed.

Lemma bowl_transducer_unrecognised k fl focus rad n ap pts axis :
  recognised axis = false ->
  bowl_transducer k fl focus rad n ap pts axis = Raise TypingError.
Proof.
  intros Hax. unfold bowl_transducer. rewrite (orient_unrecognised _ _ _ _ _ Hax).
  reflexivity.
Qed.

(** C1, as amended.  For every wavenumber [k], valid bowl geometry,
    requested source count and set of observation points (the axis being
    ['x'] or ['z']), [bowl_transducer] returns at each observation point
    [a * sum_j exp(i k d_j) / (4 pi d_j)]: the sum ranges over all the
    sources the call generated and returns, [d_j] is the distance between
    source and observation point, and a pair with [d_j] at or below the
    minimum distance contributes zero.  The one weight [a] applied to the
    whole sum is the area of the cap between the two polar angles on the
    sphere of radius 1 (line 17 fixes [r = 1.0]), divided by the requested
    source count: it is the per-source area of the bowl surface divided by
    [focal_length^2], and not that area itself. *)
Theorem C1_bowl_transducer_pressure
    (k : C) (focal_length : R) (focus : R * R * R) (radius : R)
    (n_elements : Z) (aperture_radius : R) (points : points3) (axis : string) :
  valid_geometry focal_length radius aperture_radius n_elements ->
  axis = "x"%string \/ axis = "z"%string ->
  exists xyz p,
    bowl_transducer k focal_length focus radius n_elements aperture_radius
                    points axis = Ok (xyz, p) /\
    let theta1 := theta_of aperture_radius focal_length in
    let theta2 := theta_of radius focal_length in
    let a := Spec.cap_area 1 theta1 theta2 / IZR n_elements in
    let t := tile focal_length theta1 theta2 a in
    p = map (Spec.pressure k a (sources_of xyz)) points /\
    a = Spec.cap_area focal_length theta1 theta2 / IZR n_elements / focal_length ^ 2 /\
    Z.of_nat (length (sources_of xyz)) = n_count t /\
    (forall d, d <= min_dist -> Spec.monopole k d = (0, 0)).
Proof.
  intros Hv Hax.
  assert (Hrec : recognised axis = true) by (destruct Hax as [-> | ->]; reflexivity).
  eexists _, _. split; [apply bowl_transducer_field, Hrec|].
  cbv zeta. split; [reflexivity|]. split; [|split].
  - destruct (valid_geometry_finite _ _ _ _ Hv) as (Hfl & _ & _ & _ & _ & _ & Hn & _).
    unfold Spec.cap_area. field. split; assumption.
  - pose proof (tile_in_step focal_length (theta_of aperture_radius focal_length)
                  (theta_of radius focal_length)
                  (area_element (theta_of aperture_radius focal_length)
                                (theta_of radius focal_length) n_elements))
      as (Hy & Hz & Hn).
    symmetry. etransitivity; [exact Hn|].
    f_equal. symmetry. apply (sources_of_length axis focus _ _ _ Hy Hz).
  - intros d Hd. unfold Spec.monopole. destruct (Rle_dec d min_dist); [reflexivity|lra].
Qed.

Lemma C1_bowl_transducer_pressure_witness :
  valid_geometry 2 1 0 64 /\
  ("x"%string = "x"%string \/ "x"%string = "z"%string) /\
  exists xyz p,
    bowl_transducer (RtoC 1) 2 (2, 0, 0) 1 64 0 [(2, 0, 0)] "x" = Ok (xyz, p) /\
    let theta1 := theta_of 0 2 in
    let theta2 := theta_of 1 2 in
    let a := Spec.cap_area 1 theta1 theta2 / IZR 64 in
    let t := tile 2 theta1 theta2 a in
    p = map (Spec.pressure (RtoC 1) a (sources_of xyz)) [(2, 0, 0)] /\
    a = Spec.cap_area 2 theta1 theta2 / IZR 64 / 2 ^ 2 /\
    Z.of_nat (length (sources_of xyz)) = n_count t /\
    (forall d, d <= min_dist -> Spec.monopole (RtoC 1) d = (0, 0)).
Proof.
  assert (Hv : valid_geometry 2 1 0 64) by (unfold valid_geometry; repeat split; lra || lia).
  assert (Hax : "x"%string = "x"%string \/ "x"%string = "z"%string) by (left; reflexivity).
  split; [exact Hv|]. split; [exact Hax|].
  exact (C1_bowl_transducer_pressure (RtoC 1) 2 (2, 0, 0) 1 64 0 [(2, 0, 0)] "x" Hv Hax).
Defined.

(** C6.  Singularity guard: for every input, [eval_source] returns a value
    for each observation point and raises nothing; a source at distance at
    most [1e-3] from the observation point (a coincident one in
    particular) leaves the accumulator as it is, and the division is only
    ever reached with a non-zero divisor. *)
Theorem C6_singularity_guard (x y z : list R) (points : points3) (k : C) :
  (exists p, eval_source x y z points k = Ok p /\ length p = length points) /\
  min_dist = 1 / 1000 /\
  (forall pt temp j,
      distance pt (nth j x 0) (nth j y 0) (nth j z 0) <= min_dist ->
      eval_source_body x y z pt k temp j = Ok temp) /\
  (forall temp j,
      eval_source_body x y z (nth j x 0, nth j y 0, nth j z 0) k temp j = Ok temp) /\
  (forall pt temp j,
      let dist := distance pt (nth j x 0) (nth j y 0) (nth j z 0) in
      dist > min_dist ->
      4 * PI * dist <> 0 /\
      exists term,
        Cdiv_float (Cexp (Cmul (Cmul Ci k) (RtoC dist))) (4 * PI * dist) = Ok term /\
        eval_source_body x y z pt k temp j = Ok (Cadd temp term)).
Proof.
  assert (Hle : forall pt temp j,
             distance pt (nth j x 0) (nth j y 0) (nth j z 0) <= min_dist ->
             eval_source_body x y z pt k temp j = Ok temp).
  { intros pt temp j Hd. unfold eval_source_body.
    destruct (Rgt_dec _ min_dist); [lra|reflexivity]. }
  split; [|split; [|split; [|split]]].
  - exists (map (inner_sum x y z k) points).
    split; [apply eval_source_total | apply length_map].
  - unfold min_dist. lra.
  - exact Hle.
  - intros temp j. apply Hle.
    unfold distance. rewrite !Rminus_diag.
    replace (0 ^ 2 + 0 ^ 2 + 0 ^ 2) with 0 by ring.
    rewrite sqrt_0. left. apply min_dist_pos.
  - intros pt temp j dist Hd. split; [apply divisor_nonzero, Hd|].
    eexists. split; [apply Cdiv_float_ok, divisor_nonzero, Hd|].
    unfold eval_source_body. fold dist.
    destruct (Rgt_dec dist min_dist); [|contradiction].
    rewrite Cdiv_float_ok by (apply divisor_nonzero; exact Hd). reflexivity.
Qed.

Lemma C6_singularity_guard_witness :
  exists p, eval_source [0] [0] [0] [(0, 0, 0); (1, 0, 0)] (RtoC 1) = Ok p
            /\ length p = 2%nat.
Proof.
  exact (proj1 (C6_singularity_guard [0] [0] [0] [(0, 0, 0); (1, 0, 0)] (RtoC 1))).
Defined.

(** C9.  [bowl_transducer] does not validate [axis]: for every axis string
    other than ['x'] and ['z'] (and other than the empty string, which the
    substring test lets through) neither branch of the orientation step
    runs: the coordinates stay the untranslated lists of the tiling loop and
    the step itself raises nothing.  The empty string passes the test
    [axis in 'z'] and selects the ['z'] orientation. *)
Theorem C9_axis_not_validated (axis : string) (focus : R * R * R) (x y z : list R) :
  (axis <> "x"%string -> axis <> "z"%string -> axis <> ""%string ->
   str_in axis "z" = false /\ str_in axis "x" = false /\
   orient axis focus x y z = PyLists x y z) /\
  str_in "" "z" = true /\
  orient "" focus x y z = NdArrays x y (map (fun v => focus.2 - v) z) /\
  orient "" focus x y z = orient "z" focus x y z.
Proof.
  split.
  - intros Hx Hz He.
    pose proof (str_in_single_false axis "z" He Hz) as Ez.
    pose proof (str_in_single_false axis "x" He Hx) as Ex.
    split; [exact Ez|]. split; [exact Ex|].
    apply orient_unrecognised. unfold recognised. now rewrite Ez, Ex.
  - destruct focus as [[f0 f1'] f2]. repeat split.
Qed.

Lemma C9_axis_not_validated_witness :
  ("y"%string <> "x"%string /\ "y"%string <> "z"%string /\ "y"%string <> ""%string) /\
  orient "y" (1, 0, 0) [1] [2] [3] = PyLists [1] [2] [3].
Proof.
  assert (H : "y"%string <> "x"%string /\ "y"%string <> "z"%string
              /\ "y"%string <> ""%string) by (repeat split; discriminate).
  split; [exact H|].
  destruct H as (Hx & Hz & He).
  exact (proj2 (proj2
    (proj1 (C9_axis_not_validated "y" (1, 0, 0) [1] [2] [3]) Hx Hz He))).
Defined.

(** ** [normalise_power] *)

(** The embedding of the call of [bowl_transducer] inside
    [normalise_power], and the amplitude computed from the field it
    returns. *)
Lemma normalise_power_unfold power rho c0 radius k1 fl focus n ap :
  let a := area_element (theta_of ap fl) (theta_of radius fl) n in
  let t := tile fl (theta_of ap fl) (theta_of radius fl) a in
  let xyz := orient "x" focus (tx t) (ty t) (tz t) in
  let p_quad := map (Spec.pressure (RtoC (np_real k1)) a (sources_of xyz))
                    (points_quad fl radius) in
  bowl_transducer (RtoC (np_real k1)) fl focus radius n ap
                  (points_quad fl radius) "x" = Ok (xyz, p_quad) /\
  normalise_power power rho c0 radius k1 fl focus n ap
  = Ok (sqrt (2 * rho * c0 * power / quad_integral radius p_quad)).
Proof.
  intros a t xyz p_quad.
  assert (Hb : bowl_transducer (RtoC (np_real k1)) fl focus radius n ap
                 (points_quad fl radius) "x" = Ok (xyz, p_quad))
    by (apply bowl_transducer_field; reflexivity).
  split; [exact Hb|].
  unfold normalise_power. rewrite Hb. reflexivity.
Qed.

(** C8.  [normalise_power] evaluates the calibration field at the real part
    of [k1] only: the amplitude is the same for all wavenumbers with that
    real part; on a valid geometry it is computed from the field
    [bowl_transducer] returns for [np.real(k1)], in which the phase factor
    of every source term has modulus one at every distance (no
    absorption), whereas at [k1] itself the factor would decay as
    [exp(- Im k1 * d)]; for a real [k1] the wavenumber passed on is [k1]
    itself. *)
Theorem C8_calibration_ignores_attenuation
    (power rho c0 radius : R) (k1 : C) (focal_length : R) (focus : R * R * R)
    (n_elements : Z) (aperture_radius : R) :
  (forall k1' : C,
      Re k1' = Re k1 ->
      normalise_power power rho c0 radius k1' focal_length focus n_elements
                      aperture_radius
      = normalise_power power rho c0 radius k1 focal_length focus n_elements
                        aperture_radius) /\
  (valid_geometry focal_length radius aperture_radius n_elements ->
   exists xyz p_quad,
      bowl_transducer (RtoC (np_real k1)) focal_length focus radius n_elements
                      aperture_radius (points_quad focal_length radius) "x"
      = Ok (xyz, p_quad) /\
      normalise_power power rho c0 radius k1 focal_length focus n_elements
                      aperture_radius
      = Ok (sqrt (2 * rho * c0 * power / quad_integral radius p_quad))) /\
  (forall d, Cabs (Cexp (Cmul (Cmul Ci (RtoC (np_real k1))) (RtoC d))) = 1) /\
  (forall d, Cabs (Cexp (Cmul (Cmul Ci k1) (RtoC d))) = exp (- Im k1 * d)) /\
  (Im k1 = 0 ->
   bowl_transducer (RtoC (np_real k1)) focal_length focus radius n_elements
                   aperture_radius (points_quad focal_length radius) "x"
   = bowl_transducer k1 focal_length focus radius n_elements
                     aperture_radius (points_quad focal_length radius) "x").
Proof.
  split; [|split; [|split; [|split]]].
  - intros k1' Hre. unfold normalise_power, np_real. now rewrite Hre.
  - intros _. eexists _, _. apply normalise_power_unfold.
  - intros d. rewrite Cexp_phase, Cabs_Cexp_pair. cbn [RtoC Im snd].
    replace (- 0 * d) with 0 by ring. apply exp_0.
  - intros d. now rewrite Cexp_phase, Cabs_Cexp_pair.
  - intros Him. destruct k1 as [kr ki]. cbn in Him. subst ki. reflexivity.
Qed.

Lemma C8_calibration_ignores_attenuation_witness :
  (Re (1, 0) = Re (1, 2) /\
   normalise_power 44 998 1487 1 (1, 0) 2 (2, 0, 0) 64 0
   = normalise_power 44 998 1487 1 (1, 2) 2 (2, 0, 0) 64 0) /\
  (valid_geometry 2 1 0 64 /\
   exists xyz p_quad,
     bowl_transducer (RtoC (np_real (1, 2))) 2 (2, 0, 0) 1 64 0 (points_quad 2 1) "x"
     = Ok (xyz, p_quad) /\
     normalise_power 44 998 1487 1 (1, 2) 2 (2, 0, 0) 64 0
     = Ok (sqrt (2 * 998 * 1487 * 44 / quad_integral 1 p_quad))).
Proof.
  assert (Hv : valid_geometry 2 1 0 64) by (unfold valid_geometry; repeat split; lra || lia).
  pose proof (C8_calibration_ignores_attenuation 44 998 1487 1 (1, 2) 2 (2, 0, 0) 64 0)
    as (H1 & H2 & _).
  split; [split; [reflexivity | exact (H1 (1, 0) eq_refl)]|].
  split; [exact Hv | exact (H2 Hv)].
Defined.

(** ** The quadrature of [normalise_power] *)

Lemma np_sum_acc (l : list R) (acc : R) : fold_left Rplus l acc = acc + np_sum l.
Proof.
  unfold np_sum. revert acc. induction l as [|t l IH]; intros acc; cbn [fold_left].
  - ring.
  - rewrite IH, (IH (0 + t)). ring.
Qed.

Lemma np_sum_cons (t : R) (l : list R) : np_sum (t :: l) = t + np_sum l.
Proof. unfold np_sum at 1. cbn [fold_left]. rewrite np_sum_acc. ring. Qed.

Lemma np_sum_app (l1 l2 : list R) : np_sum (l1 ++ l2) = np_sum l1 + np_sum l2.
Proof.
  induction l1 as [|t l1 IH]; cbn [app].
  - unfold np_sum at 2. cbn. ring.
  - rewrite !np_sum_cons, IH. ring.
Qed.

Lemma np_sum_map_seq (h : nat -> R) (n : nat) :
  np_sum (map h (seq 0 n)) = Spec.sum_upto h n.
Proof.
  induction n as [|n IH]; [reflexivity|].
  rewrite seq_S, map_app, np_sum_app, IH. cbn [map Spec.sum_upto plus].
  rewrite np_sum_cons. unfold np_sum. cbn. ring.
Qed.

Lemma sum_upto_ext (f g : nat -> R) (n : nat) :
  (forall i, f i = g i) -> Spec.sum_upto f n = Spec.sum_upto g n.
Proof.
  intros Hfg. induction n as [|n IH]; [reflexivity|].
  cbn [Spec.sum_upto]. now rewrite IH, Hfg.
Qed.

Lemma zip_with_map_seq {A B D : Type} (f : A -> B -> D) (g : nat -> A) (h : nat -> B)
    (s n : nat) :
  zip_with f (map g (seq s n)) (map h (seq s n)) = map (fun i => f (g i) (h i)) (seq s n).
Proof.
  revert s. induction n as [|n IH]; intros s; [reflexivity|].
  cbn [seq map zip_with]. f_equal. apply IH.
Qed.

Lemma replicate_map_seq {A : Type} (v : A) (s n : nat) :
  replicate n v = map (fun _ => v) (seq s n).
Proof.
  revert s. induction n as [|n IH]; intros s; [reflexivity|].
  cbn [replicate seq map]. f_equal. apply IH.
Qed.

Lemma INR_n_quad : INR n_quad = 500.
Proof. unfold n_quad. rewrite INR_IZR_INZ. reflexivity. Qed.

Lemma INR_n_quad_pred : INR (n_quad - 1) = 499.
Proof. unfold n_quad. rewrite INR_IZR_INZ. reflexivity. Qed.

Lemma r_quad_samples (radius : R) :
  r_quad radius = map (Spec.sample radius) (seq 0 n_quad).
Proof.
  unfold r_quad, linspace. rewrite INR_n_quad_pred.
  apply map_ext. intros i. unfold Spec.sample. lra.
Qed.

Lemma points_quad_samples (fl radius : R) :
  points_quad fl radius
  = map (fun i => (x_location_disk fl radius, 0, Spec.sample radius i)) (seq 0 n_quad).
Proof.
  unfold points_quad, vstack3. rewrite r_quad_samples.
  rewrite (replicate_map_seq 1 0), (replicate_map_seq 0 0), map_map.
  rewrite !zip_with_map_seq. apply map_ext. intros i. cbn [fst snd].
  f_equal. f_equal. ring.
Qed.

(** The integral of line 96 for a field given point by point on the disk. *)
Lemma quad_integral_pointwise (fl radius : R) (F : R * R * R -> C) :
  quad_integral radius (map F (points_quad fl radius))
  = Spec.quadrature radius (fun r => F (x_location_disk fl radius, 0, r)).
Proof.
  unfold quad_integral, np_mul, Spec.quadrature.
  rewrite points_quad_samples, r_quad_samples, !map_map, zip_with_map_seq.
  rewrite np_sum_map_seq, INR_n_quad. unfold n_quad.
  replace (radius * 1.0) with radius by lra.
  f_equal. f_equal. f_equal.
  apply sum_upto_ext. intros i. now rewrite Cabs_sq.
Qed.

(** C4.  On a valid bowl geometry, [normalise_power] returns
    [sqrt(2 rho c0 power / integral)], where
    [integral = 2 pi * (sum_i |p(r_i)|^2 r_i) * R / 500] over the 500
    equally spaced samples [r_i = i R / 499] from 0 to [R], and [p] is the
    field [bowl_transducer] synthesises (at unit amplitude, for the real
    part of [k1]) on the disk [(x_location_disk, 0, r)]. *)
Theorem C4_normalise_power_formula
    (power rho c0 radius : R) (k1 : C) (focal_length : R) (focus : R * R * R)
    (n_elements : Z) (aperture_radius : R) :
  valid_geometry focal_length radius aperture_radius n_elements ->
  exists xyz p_quad,
    bowl_transducer (RtoC (np_real k1)) focal_length focus radius n_elements
                    aperture_radius (points_quad focal_length radius) "x"
    = Ok (xyz, p_quad) /\
    let a := Spec.cap_area 1 (theta_of aperture_radius focal_length)
                             (theta_of radius focal_length) / IZR n_elements in
    let p := fun r => Spec.pressure (RtoC (Re k1)) a (sources_of xyz)
                        (x_location_disk focal_length radius, 0, r) in
    let integral := Spec.quadrature radius p in
    p_quad = map p (map (Spec.sample radius) (seq 0 500)) /\
    Spec.sample radius 0 = 0 /\ Spec.sample radius 499 = radius /\
    (forall i, Spec.sample radius (S i) - Spec.sample radius i = radius / 499) /\
    normalise_power power rho c0 radius k1 focal_length focus n_elements
                    aperture_radius
    = Ok (sqrt (2 * rho * c0 * power / integral)).
Proof.
  intros _.
  destruct (normalise_power_unfold power rho c0 radius k1 focal_length focus
              n_elements aperture_radius) as [Hb Hn].
  eexists _, _. split; [exact Hb|]. cbv zeta.
  split; [|split; [|split; [|split]]].
  - rewrite points_quad_samples, map_map. reflexivity.
  - unfold Spec.sample. change (INR 0) with 0. lra.
  - unfold Spec.sample. rewrite INR_IZR_INZ. change (IZR (Z.of_nat 499)) with 499. lra.
  - intros i. unfold Spec.sample. rewrite S_INR. lra.
  - rewrite Hn. now rewrite quad_integral_pointwise.
Qed.

Lemma C4_normalise_power_formula_witness :
  valid_geometry 2 1 0 64 /\
  exists xyz p_quad,
    bowl_transducer (RtoC (np_real (1, 2))) 2 (2, 0, 0) 1 64 0 (points_quad 2 1) "x"
    = Ok (xyz, p_quad) /\
    normalise_power 44 998 1487 1 (1, 2) 2 (2, 0, 0) 64 0
    = Ok (sqrt (2 * 998 * 1487 * 44
                / Spec.quadrature 1
                    (fun r => Spec.pressure (RtoC 1)
                                (Spec.cap_area 1 (theta_of 0 2) (theta_of 1 2) / IZR 64)
                                (sources_of xyz) (x_location_disk 2 1, 0, r)))).
Proof.
  assert (Hv : valid_geometry 2 1 0 64) by (unfold valid_geometry; repeat split; lra || lia).
  split; [exact Hv|].
  destruct (C4_normalise_power_formula 44 998 1487 1 (1, 2) 2 (2, 0, 0) 64 0 Hv)
    as (xyz & p_quad & Hb & _ & _ & _ & _ & Hn).
  exists xyz, p_quad. split; [exact Hb | exact Hn].
Defined.

(** The integral is quadratic in the amplitude of the field. *)
Lemma weighted_sum_scal (s : R) (p : list C) (w : list R) :
  np_sum (np_mul (map (fun z => Cabs z ^ 2) (map (Cscal s) p)) w)
  = s ^ 2 * np_sum (np_mul (map (fun z => Cabs z ^ 2) p) w).
Proof.
  unfold np_mul. revert w. induction p as [|z p IH]; intros [|t w]; cbn [map zip_with];
    try (unfold np_sum; cbn; ring).
  rewrite !np_sum_cons, IH, Cabs_sq_scal. ring.
Qed.

Lemma quad_integral_scal (radius s : R) (p : list C) :
  quad_integral radius (map (Cscal s) p) = s ^ 2 * quad_integral radius p.
Proof. unfold quad_integral. rewrite weighted_sum_scal. unfold Rdiv. ring. Qed.

Lemma weighted_sum_nonneg (radius : R) (p : list C) (s n : nat) :
  0 <= np_sum (np_mul (map (fun z => Cabs z ^ 2) p)
                      (map (Spec.sample radius) (seq s n))) * radius.
Proof.
  unfold np_mul. revert s n. induction p as [|z p IH]; intros s [|n]; cbn [map seq zip_with];
    try (unfold np_sum; cbn; lra).
  rewrite np_sum_cons, Rmult_plus_distr_r.
  apply Rplus_le_le_0_compat; [|apply IH].
  unfold Spec.sample. rewrite Cabs_sq.
  pose proof (pos_INR s). 
  assert (0 <= Re z ^ 2 + Im z ^ 2) by nra.
  replace ((Re z ^ 2 + Im z ^ 2) * (INR s * radius / 499) * radius)
    with ((Re z ^ 2 + Im z ^ 2) * INR s * (radius * radius) / 499) by (unfold Rdiv; ring).
  assert (0 <= radius * radius) by nra.
  apply Rmult_le_pos; [|lra].
  apply Rmult_le_pos; [|assumption]. now apply Rmult_le_pos.
Qed.

Lemma quad_integral_nonneg (radius : R) (p : list C) : 0 <= quad_integral radius p.
Proof.
  unfold quad_integral. rewrite r_quad_samples, INR_n_quad.
  pose proof (weighted_sum_nonneg radius p 0 n_quad) as H.
  pose proof PI_RGT_0.
  set (S := np_sum _) in *.
  replace (2 * PI * S * (radius * 1.0) / 500) with (2 * PI / 500 * (S * radius))
    by (unfold Rdiv; lra).
  apply Rmult_le_pos; [|exact H]. lra.
Qed.

(** The amplitude of line 97 restores the requested power. *)
Lemma amplitude_round_trip (power rho c0 integral : R) :
  0 < power -> 0 < rho * c0 -> 0 < integral ->
  sqrt (2 * rho * c0 * power / integral) ^ 2 * integral / (2 * rho * c0) = power.
Proof.
  intros Hp Hm Hi.
  assert (Hq : 0 <= 2 * rho * c0 * power / integral).
  { apply Rlt_le, Rdiv_lt_0_compat; nra. }
  simpl pow. rewrite Rmult_1_r, sqrt_sqrt by exact Hq.
  field. split; nra.
Qed.

(** C5.  Round trip of the power calibration: for a positive target power
    (in a medium with [rho * c0 > 0]) and a calibration field whose
    quadrature integral is not zero, the amplitude [p0] that
    [normalise_power] returns satisfies [p0^2 * integral / (2 rho c0) =
    power], and the same quadrature evaluated on the field scaled by [p0]
    gives the target power. *)
Theorem C5_power_round_trip
    (power rho c0 radius : R) (k1 : C) (focal_length : R) (focus : R * R * R)
    (n_elements : Z) (aperture_radius : R) (xyz : coords) (p_quad : list C) :
  0 < power ->
  0 < rho * c0 ->
  bowl_transducer (RtoC (np_real k1)) focal_length focus radius n_elements
                  aperture_radius (points_quad focal_length radius) "x"
  = Ok (xyz, p_quad) ->
  quad_integral radius p_quad <> 0 ->
  exists p0,
    normalise_power power rho c0 radius k1 focal_length focus n_elements
                    aperture_radius = Ok p0 /\
    p0 ^ 2 * quad_integral radius p_quad / (2 * rho * c0) = power /\
    quad_integral radius (map (Cscal p0) p_quad) / (2 * rho * c0) = power.
Proof.
  intros Hp Hm Hb Hi.
  assert (Hpos : 0 < quad_integral radius p_quad).
  { pose proof (quad_integral_nonneg radius p_quad). lra. }
  exists (sqrt (2 * rho * c0 * power / quad_integral radius p_quad)).
  split; [|split].
  - unfold normalise_power. rewrite Hb. reflexivity.
  - now apply amplitude_round_trip.
  - rewrite quad_integral_scal. now apply amplitude_round_trip.
Qed.

(** ** Rounding *)

Lemma np_round_near (x : R) (n : Z) :
  IZR n - 1 / 2 < x < IZR n + 1 / 2 -> np_round x = IZR n.
Proof.
  intros [Hlo Hhi]. unfold np_round, frac_part.
  destruct (Rlt_dec x (IZR n)) as [Hlt|Hge].
  - assert (E : Int_part x = (n - 1)%Z).
    { symmetry. apply Int_part_spec. rewrite minus_IZR. lra. }
    rewrite E, minus_IZR.
    destruct (Rlt_dec (x - (IZR n - 1)) (1 / 2)); [lra|].
    destruct (Rlt_dec (1 / 2) (x - (IZR n - 1))); [|lra].
    f_equal. lia.
  - assert (E : Int_part x = n).
    { symmetry. apply Int_part_spec. lra. }
    rewrite E.
    destruct (Rlt_dec (x - IZR n) (1 / 2)); [reflexivity|lra].
Qed.

(** Ties go to the even neighbour, as [np.round] has them. *)
Example np_round_ties : np_round (1 / 2) = 0 /\ np_round (3 / 2) = 2 /\ np_round (5 / 2) = 2.
Proof.
  assert (H : forall (n : Z) (x : R), x = IZR n + 1 / 2 ->
                np_round x = if Z.even n then IZR n else IZR (n + 1)).
  { intros n x ->. unfold np_round, frac_part.
    assert (E : Int_part (IZR n + 1 / 2) = n) by (symmetry; apply Int_part_spec; lra).
    rewrite E.
    destruct (Rlt_dec (IZR n + 1 / 2 - IZR n) (1 / 2)); [lra|].
    destruct (Rlt_dec (1 / 2) (IZR n + 1 / 2 - IZR n)); [lra|]. reflexivity. }
  split; [|split].
  - rewrite (H 0%Z) by lra. reflexivity.
  - rewrite (H 1%Z) by lra. reflexivity.
  - rewrite (H 2%Z) by lra. reflexivity.
Qed.

Lemma Int_part_IZR (n : Z) : Int_part (IZR n) = n.
Proof. symmetry. apply Int_part_spec. lra. Qed.

Lemma np_int_IZR (n : Z) : np_int (IZR n) = n.
Proof.
  unfold np_int. destruct (Rle_dec 0 (IZR n)); [apply Int_part_IZR|].
  rewrite <- opp_IZR, Int_part_IZR. lia.
Qed.

Lemma np_int_round_near (x : R) (n : Z) :
  IZR n - 1 / 2 < x < IZR n + 1 / 2 -> np_int (np_round x) = n.
Proof. intros H. rewrite (np_round_near x n H). apply np_int_IZR. Qed.

(** ** Numerical bounds *)

Lemma PI_lower : 3 < PI.
Proof. pose proof PI2_3_2. lra. Qed.

Lemma PI_upper : PI <= 52 / 15.
Proof.
  destruct (PI_ineq 1) as [_ H].
  unfold sum_f_R0, tg_alt, PI_tg in H. simpl in H. lra.
Qed.

Lemma sqrt_bounds (x lo hi : R) :
  0 <= lo -> lo * lo < x -> x < hi * hi -> 0 <= hi -> lo < sqrt x < hi.
Proof.
  intros Hlo Hx1 Hx2 Hhi. split.
  - rewrite <- (sqrt_square lo Hlo). apply sqrt_lt_1; nra.
  - rewrite <- (sqrt_square hi Hhi). apply sqrt_lt_1; nra.
Qed.

Lemma sqrt2_bounds : 1.4 < sqrt 2 < 1.5.
Proof. apply sqrt_bounds; lra. Qed.

Lemma theta_of_0_1 : theta_of 0 1 = 0.
Proof. unfold theta_of. replace (0 / 1) with 0 by lra. apply asin_0. Qed.

Lemma theta_of_1_1 : theta_of 1 1 = PI / 2.
Proof. unfold theta_of. replace (1 / 1) with 1 by lra. apply asin_1. Qed.

Lemma area_element_hemisphere : area_element 0 (PI / 2) 1 = 2 * PI.
Proof. unfold area_element. rewrite cos_0, cos_PI2. lra. Qed.

Lemma band_count_hemisphere : band_count 0 (PI / 2) (2 * PI) = 1%Z.
Proof.
  unfold band_count. apply np_int_round_near.
  pose proof PI_lower. pose proof PI_upper.
  destruct (sqrt_bounds (2 * PI) 2.4 2.7) as [H1 H2]; try lra.
  set (s := sqrt (2 * PI)) in *.
  assert (E : (PI / 2 - 0) / s * s = PI / 2) by (field; lra).
  set (q := (PI / 2 - 0) / s) in *.
  split; nra.
Qed.

Lemma tile_hemisphere :
  tile 1 0 (PI / 2) (2 * PI)
  = mk_tiling [1 * sin (PI / 4) * cos (2 * PI * 0 / 1)]
              [1 * sin (PI / 4) * sin (2 * PI * 0 / 1)]
              [1 * cos (PI / 4)] 1.
Proof.
  unfold tile. rewrite band_count_hemisphere.
  change (py_range 1) with [0%Z]. cbn [fold_left].
  unfold band_step.
  replace ((PI / 2 - 0) * (0 + 0.5) / 1 + 0) with (PI / 4) by lra.
  assert (HM : np_int (np_round (2 * PI * sin (PI / 4) / (2 * PI / ((PI / 2 - 0) / 1)))) = 1%Z).
  { apply np_int_round_near. rewrite sin_PI4.
    pose proof PI_lower. pose proof PI_upper. pose proof sqrt2_bounds as [S1 S2].
    replace (2 * PI * (1 / sqrt 2) / (2 * PI / ((PI / 2 - 0) / 1)))
      with (PI / (2 * sqrt 2)) by (field; lra).
    set (s := sqrt 2) in *.
    assert (E : PI / (2 * s) * s = PI / 2) by (field; lra).
    set (q := PI / (2 * s)) in *.
    split; nra. }
  rewrite HM. change (py_range 1) with [0%Z]. reflexivity.
Qed.

Lemma sum_upto_nonneg (h : nat -> R) (n : nat) :
  (forall i, 0 <= h i) -> 0 <= Spec.sum_upto h n.
Proof.
  intros Hh. induction n as [|n IH]; cbn [Spec.sum_upto]; [lra|].
  pose proof (Hh n). lra.
Qed.

Lemma sum_upto_pos (h : nat -> R) (n j : nat) :
  (forall i, 0 <= h i) -> (j < n)%nat -> 0 < h j -> 0 < Spec.sum_upto h n.
Proof.
  intros Hh Hj Hpos. induction n as [|n IH]; [lia|].
  cbn [Spec.sum_upto]. pose proof (sum_upto_nonneg h n Hh).
  destruct (decide (j = n)) as [->|Hne]; [lra|].
  pose proof (Hh n). assert (0 < Spec.sum_upto h n) by (apply IH; lia). lra.
Qed.

Lemma monopole_norm_pos (k : C) (d : R) :
  d > min_dist -> 0 < Re (Spec.monopole k d) ^ 2 + Im (Spec.monopole k d) ^ 2.
Proof.
  intros Hd. unfold Spec.monopole. destruct (Rle_dec d min_dist); [lra|].
  cbn [Re Im fst snd]. pose proof (divisor_nonzero d Hd) as Hq.
  set (e := exp _). set (q := 4 * PI * d) in *. set (t := Re k * d).
  replace ((e * cos t / q) ^ 2 + (e * sin t / q) ^ 2)
    with ((e / q) ^ 2 * ((sin t)² + (cos t)²)) by (unfold Rsqr; field; exact Hq).
  rewrite sin2_cos2, Rmult_1_r.
  assert (0 < e) by apply exp_pos.
  assert (e / q <> 0) by (unfold Rdiv; apply Rmult_integral_contrapositive_currified;
                          [lra | now apply Rinv_neq_0_compat]).
  nra.
Qed.

Lemma x_location_disk_1_1 : x_location_disk 1 1 = 1.
Proof.
  unfold x_location_disk. replace (1 ^ 2 - 1 ^ 2) with 0 by ring. rewrite sqrt_0. lra.
Qed.

Lemma Ok_pair_inj {A B : Type} (a a' : A) (b b' : B) :
  Ok (a, b) = Ok (a', b') -> a = a' /\ b = b'.
Proof. intros H. inversion H. auto. Qed.

Lemma pressure_single (k : C) (a : R) (s pt : R * R * R) :
  Spec.pressure k a [s] pt = Cscal a (Spec.monopole k (Spec.dist pt s)).
Proof. unfold Spec.pressure. cbn [map Spec.Csum foldr]. now rewrite Cadd_0_r. Qed.

Lemma Cscal_norm_pos (a : R) (z : C) :
  a <> 0 -> 0 < Re z ^ 2 + Im z ^ 2 -> 0 < Re (Cscal a z) ^ 2 + Im (Cscal a z) ^ 2.
Proof.
  intros Ha Hz. unfold Cscal, Re, Im in *. cbn [fst snd] in *.
  replace ((a * z.1) ^ 2 + (a * z.2) ^ 2) with (a ^ 2 * (z.1 ^ 2 + z.2 ^ 2)) by ring.
  apply Rmult_lt_0_compat; [|exact Hz]. nra.
Qed.

Lemma orient_x_single (f0 f1 f2 sx sy sz : R) :
  sources_of (orient "x" (f0, f1, f2) [sx] [sy] [sz]) = [(f0 - sz, - sx, - sy)].
Proof. reflexivity. Qed.

(** The calibration integral of the one-source hemisphere is positive at
    every wavenumber. *)
Lemma one_source_calibration_integral (k : C) (xyz : coords) (p_quad : list C) :
  bowl_transducer (RtoC (np_real k)) 1 (1, 0, 0) 1 1 0 (points_quad 1 1) "x"
  = Ok (xyz, p_quad) ->
  0 < quad_integral 1 p_quad.
Proof.
  rewrite bowl_transducer_field by reflexivity.
  rewrite theta_of_0_1, theta_of_1_1, area_element_hemisphere, tile_hemisphere.
  cbn [tx ty tz]. rewrite orient_x_single.
  intros H. apply Ok_pair_inj in H as [_ <-].
  rewrite quad_integral_pointwise. unfold Spec.quadrature.
  pose proof PI_lower as HPI.
  set (src := (1 - 1 * cos (PI / 4), _, _)).
  set (h := fun i : nat => _).
  assert (Hd : forall r, Spec.dist (x_location_disk 1 1, 0, r) src > min_dist).
  { intros r. unfold Spec.dist, src. cbn [fst snd]. rewrite x_location_disk_1_1, cos_PI4.
    set (B := (0 - _) ^ 2). set (D := (r - _) ^ 2).
    assert (0 <= B) by apply pow2_ge_0. assert (0 <= D) by apply pow2_ge_0.
    pose proof sqrt2_bounds as [S1 S2]. pose proof (sqrt_sqrt 2 ltac:(lra)) as S3.
    set (s := sqrt 2) in *.
    replace (1 - (1 - 1 * (1 / s))) with (/ s) by (field; lra).
    assert (/ s * s = 1) by (field; lra).
    assert (1 / 4 < (/ s) ^ 2) by nra.
    unfold min_dist.
    apply Rlt_gt. rewrite <- (sqrt_square 1e-3) by lra.
    apply sqrt_lt_1; lra. }
  assert (Hnn : forall i, 0 <= h i).
  { intros i. unfold h, Spec.sample. pose proof (pos_INR i).
    apply Rmult_le_pos; [nra|]. unfold Rdiv. nra. }
  assert (H1 : 0 < h 1%nat).
  { unfold h. apply Rmult_lt_0_compat; [|unfold Spec.sample; change (INR 1) with 1; lra].
    rewrite pressure_single. apply Cscal_norm_pos; [lra|].
    apply monopole_norm_pos, Hd. }
  pose proof (sum_upto_pos h 500 1 Hnn ltac:(lia) H1) as Hs.
  set (S := Spec.sum_upto h 500) in *.
  assert (0 < PI * S) by (apply Rmult_lt_0_compat; lra). lra.
Qed.

Lemma hemisphere_calibration_integral (xyz : coords) (p_quad : list C) :
  bowl_transducer (RtoC (np_real (1, 0))) 1 (1, 0, 0) 1 1 0 (points_quad 1 1) "x"
  = Ok (xyz, p_quad) ->
  0 < quad_integral 1 p_quad.
Proof. apply one_source_calibration_integral. Qed.

Lemma one_source_transducer_valid : Hifu.valid_transducer Hifu.one_source_transducer.
Proof.
  unfold Hifu.valid_transducer, Hifu.one_source_transducer, valid_geometry.
  cbn [Hifu.roc Hifu.outer_D Hifu.inner_D Hifu.n_elements].
  repeat split; lra || lia.
Qed.

Lemma one_source_transducer_integral (pr : params) (xyz : coords) (p_quad : list C) :
  bowl_transducer (RtoC (np_real (Hifu.k1 pr))) (Hifu.roc Hifu.one_source_transducer)
                  (Hifu.focus Hifu.one_source_transducer)
                  (Hifu.outer_D Hifu.one_source_transducer / 2)
                  (Hifu.n_elements Hifu.one_source_transducer)
                  (Hifu.inner_D Hifu.one_source_transducer / 2)
                  (points_quad (Hifu.roc Hifu.one_source_transducer)
                               (Hifu.outer_D Hifu.one_source_transducer / 2)) "x"
  = Ok (xyz, p_quad) ->
  quad_integral (Hifu.outer_D Hifu.one_source_transducer / 2) p_quad <> 0.
Proof.
  unfold Hifu.focus, Hifu.one_source_transducer.
  cbn [Hifu.roc Hifu.outer_D Hifu.inner_D Hifu.n_elements].
  replace (2 / 2) with 1 by lra. replace (0 / 2) with 0 by lra.
  intros Hb. apply Rgt_not_eq, Rlt_gt.
  exact (one_source_calibration_integral _ _ _ Hb).
Qed.

Lemma demo_params_valid : Hifu.valid_medium demo_params.
Proof. unfold Hifu.valid_medium. cbv [demo_params c rho f1]. repeat split; lra. Qed.

Lemma C5_power_round_trip_witness :
  exists xyz p_quad p0,
    0 < 44 /\ 0 < 998 * 1487 /\
    bowl_transducer (RtoC (np_real (1, 0))) 1 (1, 0, 0) 1 1 0 (points_quad 1 1) "x"
    = Ok (xyz, p_quad) /\
    quad_integral 1 p_quad <> 0 /\
    normalise_power 44 998 1487 1 (1, 0) 1 (1, 0, 0) 1 0 = Ok p0 /\
    p0 ^ 2 * quad_integral 1 p_quad / (2 * 998 * 1487) = 44 /\
    quad_integral 1 (map (Cscal p0) p_quad) / (2 * 998 * 1487) = 44.
Proof.
  destruct (normalise_power_unfold 44 998 1487 1 (1, 0) 1 (1, 0, 0) 1 0) as [Hb _].
  cbv zeta in Hb.
  pose proof (hemisphere_calibration_integral _ _ Hb) as Hpos.
  assert (H44 : 0 < 44) by lra.
  assert (Hm : 0 < 998 * 1487) by lra.
  destruct (C5_power_round_trip 44 998 1487 1 (1, 0) 1 (1, 0, 0) 1 0 _ _ H44 Hm Hb
              (Rgt_not_eq _ _ (Rlt_gt _ _ Hpos)))
    as (p0 & Hn & Hr1 & Hr2).
  eexists _, _, p0. repeat split; try eassumption.
  now apply Rgt_not_eq, Rlt_gt.
Defined.

(** ** The weight is the area per source on the unit sphere *)

Lemma theta_of_0_2 : theta_of 0 2 = 0.
Proof. unfold theta_of. replace (0 / 2) with 0 by lra. apply asin_0. Qed.

Lemma theta_of_2_2 : theta_of 2 2 = PI / 2.
Proof. unfold theta_of. replace (2 / 2) with 1 by lra. apply asin_1. Qed.

(** The tiling of a hemisphere with one requested source: one band, one
    source, whatever the focal length. *)
Lemma tile_one_source (fl : R) :
  tile fl 0 (PI / 2) (2 * PI)
  = mk_tiling [fl * sin (PI / 4) * cos (2 * PI * 0 / 1)]
              [fl * sin (PI / 4) * sin (2 * PI * 0 / 1)]
              [fl * cos (PI / 4)] 1.
Proof.
  unfold tile. rewrite band_count_hemisphere.
  change (py_range 1) with [0%Z]. cbn [fold_left].
  unfold band_step.
  replace ((PI / 2 - 0) * (0 + 0.5) / 1 + 0) with (PI / 4) by lra.
  assert (HM : np_int (np_round (2 * PI * sin (PI / 4) / (2 * PI / ((PI / 2 - 0) / 1)))) = 1%Z).
  { apply np_int_round_near. rewrite sin_PI4.
    pose proof PI_lower. pose proof PI_upper. pose proof sqrt2_bounds as [S1 S2].
    replace (2 * PI * (1 / sqrt 2) / (2 * PI / ((PI / 2 - 0) / 1)))
      with (PI / (2 * sqrt 2)) by (field; lra).
    set (s := sqrt 2) in *.
    assert (E : PI / (2 * s) * s = PI / 2) by (field; lra).
    set (q := PI / (2 * s)) in *.
    split; nra. }
  rewrite HM. change (py_range 1) with [0%Z]. reflexivity.
Qed.

Lemma dist_ge_first (p s : R * R * R) : p.1.1 - s.1.1 <= Spec.dist p s.
Proof.
  unfold Spec.dist.
  set (u := p.1.1 - s.1.1). set (B := (_ - _) ^ 2). set (D := (p.2 - _) ^ 2).
  assert (0 <= B) by apply pow2_ge_0. assert (0 <= D) by apply pow2_ge_0.
  destruct (Rle_dec u 0) as [Hu|Hu].
  - pose proof (sqrt_pos (u ^ 2 + B + D)). lra.
  - rewrite <- (sqrt_square u) at 1 by lra. apply sqrt_le_1_alt. nra.
Qed.

Lemma monopole_nonzero (k : C) (d : R) : d > min_dist -> Spec.monopole k d <> (0, 0).
Proof.
  intros Hd E. pose proof (monopole_norm_pos k d Hd) as H.
  rewrite E in H. cbn in H. lra.
Qed.

(** C1, as stated, fails for a focal length other than 1: for the
    hemispherical bowl of focal length 2 with one requested source, the
    field returned at the focus is not the monopole sum weighted by the
    per-source area of the bowl surface ([8 pi], the area of the cap of
    radius 2); the code weights the sum by [2 pi], the area of that cap on
    the unit sphere. *)
Lemma C1_counterexample :
  valid_geometry 2 2 0 1 /\
  area_element (theta_of 0 2) (theta_of 2 2) 1 = 2 * PI /\
  Spec.cap_area 2 (theta_of 0 2) (theta_of 2 2) / IZR 1 = 8 * PI /\
  exists xyz p,
    bowl_transducer (RtoC 1) 2 (2, 0, 0) 2 1 0 [(2, 0, 0)] "x" = Ok (xyz, p) /\
    p <> map (Spec.pressure (RtoC 1)
                (Spec.cap_area 2 (theta_of 0 2) (theta_of 2 2) / IZR 1)
                (sources_of xyz))
             [(2, 0, 0)].
Proof.
  pose proof PI_RGT_0 as HPI.
  assert (Ha : Spec.cap_area 2 (theta_of 0 2) (theta_of 2 2) / IZR 1 = 8 * PI).
  { rewrite theta_of_0_2, theta_of_2_2. unfold Spec.cap_area.
    rewrite cos_0, cos_PI2. lra. }
  split; [unfold valid_geometry; repeat split; lra || lia|].
  split; [rewrite theta_of_0_2, theta_of_2_2; apply area_element_hemisphere|].
  split; [exact Ha|].
  eexists _, _. split; [apply bowl_transducer_field; reflexivity|].
  rewrite Ha.
  rewrite theta_of_0_2, theta_of_2_2, area_element_hemisphere, tile_one_source.
  cbn [tx ty tz]. rewrite orient_x_single. cbn [map]. rewrite !pressure_single.
  set (src := (2 - 2 * cos (PI / 4), _, _)).
  assert (Hd : Spec.dist (2, 0, 0) src > min_dist).
  { pose proof (dist_ge_first (2, 0, 0) src) as Hg. unfold src in Hg at 1.
    cbn [fst snd] in Hg. rewrite cos_PI4 in Hg.
    pose proof sqrt2_bounds as [S1 S2]. set (s := sqrt 2) in *.
    assert (Hs : 1 / s * s = 1) by (field; lra).
    assert (1 / 2 < 1 / s) by nra.
    unfold min_dist. lra. }
  pose proof (monopole_norm_pos (RtoC 1) _ Hd) as Hm.
  set (m := Spec.monopole (RtoC 1) (Spec.dist (2, 0, 0) src)) in *.
  intros E. injection E as E1 E2.
  assert (X : PI * Re m = 0) by lra.
  assert (Y : PI * Im m = 0) by lra.
  apply Rmult_integral in X as [X|X]; [lra|].
  apply Rmult_integral in Y as [Y|Y]; [lra|].
  rewrite X, Y in Hm. lra.
Qed.

(** ** A latitude-band count of zero *)

Lemma sqrt3_bounds : 1.7 < sqrt 3 < 1.8.
Proof. apply sqrt_bounds; lra. Qed.

Lemma theta_of_1_2 : theta_of 1 2 = PI / 6.
Proof.
  unfold theta_of. rewrite <- sin_PI6. apply asin_sin.
  pose proof PI_lower. lra.
Qed.

Lemma area_element_ring : area_element (PI / 6) (PI / 2) 1 = PI * sqrt 3.
Proof. unfold area_element. rewrite cos_PI6, cos_PI2. lra. Qed.

Lemma band_count_ring : band_count (PI / 6) (PI / 2) (PI * sqrt 3) = 0%Z.
Proof.
  unfold band_count. apply np_int_round_near.
  pose proof PI_lower as P1. pose proof PI_upper as P2.
  pose proof sqrt3_bounds as [T1 T2].
  assert (Ha : 0 < PI * sqrt 3) by nra.
  pose proof (sqrt_lt_R0 _ Ha) as Hs.
  pose proof (sqrt_sqrt (PI * sqrt 3) (Rlt_le _ _ Ha)) as Hss.
  set (s := sqrt (PI * sqrt 3)) in *. set (u := sqrt 3) in *.
  assert (E : (PI / 2 - PI / 6) / s * s = PI / 3) by (field; lra).
  set (q := (PI / 2 - PI / 6) / s) in *.
  assert (Hq : 0 < q).
  { unfold q. apply Rdiv_lt_0_compat; lra. }
  split; [lra|].
  change (IZR 0) with 0. 
  destruct (Rlt_dec q (1 / 2)) as [|Hge]; [lra|]. exfalso.
  assert (H1 : s / 2 <= PI / 3) by nra.
  assert (H2 : s * s <= (2 * PI / 3) * (2 * PI / 3)) by nra.
  nra.
Qed.

Lemma py_range_nonpos (n : Z) : (n <= 0)%Z -> py_range n = [].
Proof.
  intros Hn. unfold py_range. replace (Z.to_nat n) with 0%nat by lia. reflexivity.
Qed.

Lemma tile_no_band fl theta1 theta2 a :
  (band_count theta1 theta2 a <= 0)%Z -> tile fl theta1 theta2 a = tiling_empty.
Proof. intros H. unfold tile. now rewrite py_range_nonpos. Qed.

Lemma bowl_transducer_no_band k fl focus rad n ap pts axis :
  (band_count (theta_of ap fl) (theta_of rad fl)
              (area_element (theta_of ap fl) (theta_of rad fl) n) <= 0)%Z ->
  axis = "x"%string \/ axis = "z"%string ->
  bowl_transducer k fl focus rad n ap pts axis
  = Ok (NdArrays [] [] [], map (fun _ => (0, 0)) pts).
Proof.
  intros Hb Hax. unfold bowl_transducer. rewrite (tile_no_band _ _ _ _ Hb).
  cbn [tx ty tz tiling_empty]. destruct focus as [[f0 f1'] f2].
  assert (Hor : orient axis (f0, f1', f2) [] [] [] = NdArrays [] [] [])
    by (destruct Hax as [-> | ->]; reflexivity).
  rewrite Hor, eval_source_total. cbn [mbind outcome_bind].
  f_equal. f_equal. rewrite map_map. apply map_ext. intros pt.
  unfold inner_sum, Cscal, C0, RtoC. cbn [length seq fold_left Re Im fst snd].
  f_equal; ring.
Qed.

(** C10, as amended.  The latitude-band count is
    [round((theta2 - theta1) / sqrt(a))], nothing guards the division of
    the band width by it, and for some valid inputs it is zero.  There the
    band loop runs no iteration and [bowl_transducer] returns: an empty
    source set and a field that is zero at every observation point.  (The
    band width is a numpy scalar division, which warns and does not raise;
    its value is never read when there is no band.) *)
Theorem C10_zero_band_count_returns
    (k : C) (focal_length : R) (focus : R * R * R) (radius : R)
    (n_elements : Z) (aperture_radius : R) (points : points3) (axis : string) :
  let theta1 := theta_of aperture_radius focal_length in
  let theta2 := theta_of radius focal_length in
  let a := area_element theta1 theta2 n_elements in
  (band_count theta1 theta2 a <= 0)%Z ->
  axis = "x"%string \/ axis = "z"%string ->
  band_count theta1 theta2 a = np_int (np_round ((theta2 - theta1) / sqrt a)) /\
  tile focal_length theta1 theta2 a = tiling_empty /\
  bowl_transducer k focal_length focus radius n_elements aperture_radius points axis
  = Ok (NdArrays [] [] [], map (fun _ => (0, 0)) points).
Proof.
  intros theta1 theta2 a Hb Hax. split; [reflexivity|]. split.
  - now apply tile_no_band.
  - now apply bowl_transducer_no_band.
Qed.

Lemma ring_band_count :
  band_count (theta_of 1 2) (theta_of 2 2)
             (area_element (theta_of 1 2) (theta_of 2 2) 1) = 0%Z.
Proof.
  rewrite theta_of_1_2, theta_of_2_2, area_element_ring. apply band_count_ring.
Qed.

Lemma C10_zero_band_count_returns_witness :
  (band_count (theta_of 1 2) (theta_of 2 2)
              (area_element (theta_of 1 2) (theta_of 2 2) 1) <= 0)%Z /\
  ("x"%string = "x"%string \/ "x"%string = "z"%string) /\
  bowl_transducer (RtoC 1) 2 (2, 0, 0) 2 1 1 [(1, 0, 0)] "x"
  = Ok (NdArrays [] [] [], [(0, 0)]).
Proof.
  assert (Hb : (band_count (theta_of 1 2) (theta_of 2 2)
                  (area_element (theta_of 1 2) (theta_of 2 2) 1) <= 0)%Z)
    by (rewrite ring_band_count; lia).
  assert (Hax : "x"%string = "x"%string \/ "x"%string = "z"%string)
    by (left; reflexivity).
  split; [exact Hb|]. split; [exact Hax|].
  exact (proj2 (proj2
    (C10_zero_band_count_returns (RtoC 1) 2 (2, 0, 0) 2 1 1 [(1, 0, 0)] "x" Hb Hax))).
Defined.

(** C10, as stated, fails: with focal length 2, outer radius 2, inner
    aperture radius 1 and one requested source, the band count rounds to
    zero, yet the call returns (no source, zero field) and raises no
    division error. *)
Lemma C10_counterexample :
  band_count (theta_of 1 2) (theta_of 2 2)
             (area_element (theta_of 1 2) (theta_of 2 2) 1) = 0%Z /\
  bowl_transducer (RtoC 1) 2 (2, 0, 0) 2 1 1 [(1, 0, 0)] "x"
  = Ok (NdArrays [] [] [], [(0, 0)]) /\
  bowl_transducer (RtoC 1) 2 (2, 0, 0) 2 1 1 [(1, 0, 0)] "x"
  <> Raise ZeroDivisionError.
Proof.
  assert (Hr : bowl_transducer (RtoC 1) 2 (2, 0, 0) 2 1 1 [(1, 0, 0)] "x"
               = Ok (NdArrays [] [] [], [(0, 0)])).
  { apply (bowl_transducer_no_band (RtoC 1) 2 (2, 0, 0) 2 1 1 [(1, 0, 0)] "x").
    - rewrite ring_band_count. lia.
    - left; reflexivity. }
  split; [apply ring_band_count|]. split; [exact Hr|].
  rewrite Hr. discriminate.
Qed.

(** ** The points of the tiling *)

Lemma sources_snoc (x y z : list R) (a b d : R) :
  length y = length x -> length z = length x ->
  sources_of (NdArrays (x ++ [a]) (y ++ [b]) (z ++ [d]))
  = sources_of (NdArrays x y z) ++ [(a, b, d)].
Proof.
  intros Hy Hz. cbn [sources_of].
  rewrite (zip_with_app pair x [a] y [b]) by lia.
  rewrite zip_with_app by (rewrite length_zip_with; lia).
  reflexivity.
Qed.

(** A loop invariant that may look at the element being processed. *)
Lemma fold_left_invariant_in {A B : Type} (Inv : A -> Prop) (f : A -> B -> A)
    (l : list B) (a : A) :
  (forall a b, In b l -> Inv a -> Inv (f a b)) -> Inv a -> Inv (fold_left f l a).
Proof.
  revert a. induction l as [|b l IH]; intros a Hf Ha; [exact Ha|].
  cbn [fold_left]. apply IH.
  - intros a' b' Hin. apply Hf. now right.
  - apply Hf; [now left | exact Ha].
Qed.

Lemma py_range_in (n m : Z) : In m (py_range n) -> (0 <= m < n)%Z.
Proof.
  unfold py_range. rewrite in_map_iff. intros (i & <- & Hi).
  apply in_seq in Hi. lia.
Qed.

(** A property of every point a band can produce holds of every point of
    the tiling. *)
Lemma tile_Forall (Q : R * R * R -> Prop) (fl theta1 theta2 a : R) :
  (forall (m : Z) (phi : R),
      (0 <= m < band_count theta1 theta2 a)%Z ->
      let theta := (theta2 - theta1) * (IZR m + 0.5)
                   / IZR (band_count theta1 theta2 a) + theta1 in
      Q (fl * sin theta * cos phi, fl * sin theta * sin phi, fl * cos theta)) ->
  let t := tile fl theta1 theta2 a in
  Forall Q (sources_of (NdArrays (tx t) (ty t) (tz t))).
Proof.
  intros HQ. unfold tile.
  set (Inv := fun t : tiling =>
                in_step t /\ Forall Q (sources_of (NdArrays (tx t) (ty t) (tz t)))).
  enough (H : Inv (fold_left
                     (band_step fl theta1 theta2 (band_count theta1 theta2 a)
                        (a / ((theta2 - theta1) / IZR (band_count theta1 theta2 a))))
                     (py_range (band_count theta1 theta2 a)) tiling_empty))
    by exact (proj2 H).
  apply fold_left_invariant_in.
  - intros t m Hm Ht. apply py_range_in in Hm. unfold band_step.
    apply fold_left_invariant; [|exact Ht].
    intros t' n [Hs HF]. split; [now apply azimuth_step_in_step|].
    destruct Hs as (Hy & Hz & _). unfold azimuth_step. cbn [tx ty tz].
    rewrite sources_snoc by assumption.
    apply Forall_app. split; [exact HF|]. constructor; [|constructor].
    apply (HQ m _ Hm).
  - split; [repeat split | constructor].
Qed.

Lemma sources_orient_x (f0 f1' f2 : R) (x y z : list R) :
  sources_of (orient "x" (f0, f1', f2) x y z)
  = map (fun s : R * R * R => (f0 - s.2, - s.1.1, - s.1.2))
        (sources_of (NdArrays x y z)).
Proof.
  change (orient "x" (f0, f1', f2) x y z)
    with (NdArrays (map (fun v => f0 - v) z) (map Ropp x) (map Ropp y)).
  cbn [sources_of]. revert y z.
  induction x as [|a x IH]; intros y z.
  - destruct z; reflexivity.
  - destruct y as [|b y], z as [|d z]; try reflexivity.
    cbn [map zip_with fst snd]. f_equal. apply IH.
Qed.

Lemma sources_orient_z (f0 f1' f2 : R) (x y z : list R) :
  sources_of (orient "z" (f0, f1', f2) x y z)
  = map (fun s : R * R * R => (s.1.1, s.1.2, f2 - s.2))
        (sources_of (NdArrays x y z)).
Proof.
  change (orient "z" (f0, f1', f2) x y z)
    with (NdArrays x y (map (fun v => f2 - v) z)).
  cbn [sources_of]. revert y z.
  induction x as [|a x IH]; intros [|b y] [|d z]; try reflexivity.
  cbn [map zip_with fst snd]. f_equal. apply IH.
Qed.

Lemma dist_on_sphere (p q : R * R * R) (fl : R) :
  (p.1.1 - q.1.1) ^ 2 + (p.1.2 - q.1.2) ^ 2 + (p.2 - q.2) ^ 2 = fl ^ 2 ->
  Spec.dist p q = Rabs fl.
Proof.
  intros H. unfold Spec.dist. rewrite H.
  replace (fl ^ 2) with (Rsqr fl) by (unfold Rsqr; ring). apply sqrt_Rsqr_abs.
Qed.

Lemma tile_on_sphere (fl theta1 theta2 a : R) :
  let t := tile fl theta1 theta2 a in
  Forall (fun s : R * R * R => s.1.1 ^ 2 + s.1.2 ^ 2 + s.2 ^ 2 = fl ^ 2)
         (sources_of (NdArrays (tx t) (ty t) (tz t))).
Proof.
  apply (tile_Forall (fun s => s.1.1 ^ 2 + s.1.2 ^ 2 + s.2 ^ 2 = fl ^ 2)).
  intros m phi _ theta. cbn [fst snd].
  pose proof (sin2_cos2 phi) as Hp. pose proof (sin2_cos2 theta) as Ht.
  unfold Rsqr in Hp, Ht.
  set (st := sin theta) in *. set (ct := cos theta) in *.
  set (sp := sin phi) in *. set (cp := cos phi) in *.
  replace ((fl * st * cp) ^ 2 + (fl * st * sp) ^ 2 + (fl * ct) ^ 2)
    with (fl ^ 2 * (st * st * (sp * sp + cp * cp) + ct * ct)) by ring.
  rewrite Hp, Rmult_1_r, Ht. ring.
Qed.

Lemma bowl_sources_x_on_sphere (fl : R) (focus : R * R * R) (theta1 theta2 a : R) :
  let t := tile fl theta1 theta2 a in
  Forall (fun s => Spec.dist s (focus.1.1, 0, 0) = Rabs fl)
         (sources_of (orient "x" focus (tx t) (ty t) (tz t))).
Proof.
  destruct focus as [[f0 f1'] f2]. cbv zeta.
  rewrite sources_orient_x. apply Forall_map.
  eapply Forall_impl; [apply tile_on_sphere|]. intros s Hs. cbn beta in *.
  apply dist_on_sphere. cbn [fst snd]. rewrite <- Hs. ring.
Qed.

Lemma band_angle_range (theta1 theta2 : R) (m M : Z) :
  theta1 < theta2 -> (0 <= m < M)%Z ->
  theta1 < (theta2 - theta1) * (IZR m + 0.5) / IZR M + theta1 < theta2.
Proof.
  intros Hlt [Hm0 HmM].
  assert (HM : 0 < IZR M) by (apply IZR_lt; lia).
  assert (H0 : 0 <= IZR m) by (apply IZR_le; lia).
  assert (H1 : IZR m + 1 <= IZR M) by (rewrite <- plus_IZR; apply IZR_le; lia).
  assert (Hi : 0 < / IZR M) by now apply Rinv_0_lt_compat.
  assert (Hone : IZR M * / IZR M = 1) by (apply Rinv_r; lra).
  set (u := (IZR m + 0.5) * / IZR M).
  assert (Hu : 0 < u < 1).
  { unfold u. split; [apply Rmult_lt_0_compat; lra|].
    apply (Rmult_lt_reg_r (IZR M)); [lra|].
    rewrite Rmult_assoc, (Rmult_comm (/ IZR M)), Hone. lra. }
  replace ((theta2 - theta1) * (IZR m + 0.5) / IZR M + theta1)
    with ((theta2 - theta1) * u + theta1) by (unfold u, Rdiv; ring).
  split; nra.
Qed.

(** For axis ['x'] the first coordinate of every source lies strictly
    between the plane of the inner aperture and the plane of the rim. *)
Lemma sources_x_between_planes (fl : R) (focus : R * R * R) (rad ap : R) (n : Z) :
  0 < fl -> 0 <= ap -> ap < rad -> rad <= fl ->
  let theta1 := theta_of ap fl in
  let theta2 := theta_of rad fl in
  let t := tile fl theta1 theta2 (area_element theta1 theta2 n) in
  Forall (fun s : R * R * R =>
            focus.1.1 - fl * cos theta1 < s.1.1 < focus.1.1 - fl * cos theta2)
         (sources_of (orient "x" focus (tx t) (ty t) (tz t))).
Proof.
  intros Hfl Hap Hlt Hrad theta1 theta2 t. destruct focus as [[f0 f1'] f2].
  destruct (theta_of_range fl ap rad Hfl Hap Hlt Hrad) as (T0 & T1 & T2).
  fold theta1 theta2 in T0, T1, T2.
  rewrite sources_orient_x. apply Forall_map. cbn [fst snd].
  apply (tile_Forall
           (fun s => f0 - fl * cos theta1 < f0 - s.2 < f0 - fl * cos theta2)).
  intros m phi Hm. cbv zeta. cbn [snd].
  destruct (band_angle_range theta1 theta2 m _ T1 Hm) as [A1 A2].
  set (theta := (theta2 - theta1) * _ / _ + theta1) in *.
  pose proof PI_RGT_0.
  assert (C1 : cos theta < cos theta1) by (apply cos_decreasing_1; lra).
  assert (C2 : cos theta2 < cos theta) by (apply cos_decreasing_1; lra).
  apply (Rmult_lt_compat_l fl) in C1; [|exact Hfl].
  apply (Rmult_lt_compat_l fl) in C2; [|exact Hfl].
  split; lra.
Qed.

Lemma bowl_sources_between_planes
    (k : C) (focal_length : R) (focus : R * R * R) (radius : R)
    (n_elements : Z) (aperture_radius : R) (points : points3) :
  valid_geometry focal_length radius aperture_radius n_elements ->
  exists xyz p,
    bowl_transducer k focal_length focus radius n_elements aperture_radius
                    points "x" = Ok (xyz, p) /\
    Forall (fun s : R * R * R =>
              focus.1.1 - focal_length * cos (theta_of aperture_radius focal_length)
              < s.1.1
              < focus.1.1 - focal_length * cos (theta_of radius focal_length))
           (sources_of xyz).
Proof.
  intros (Hfl & Hap & Hlt & Hrad & _).
  eexists _, _. split; [apply bowl_transducer_field; reflexivity|].
  now apply sources_x_between_planes.
Qed.

(** ** Where the calibration disk lies *)

Lemma rim_depth (fl radius : R) :
  0 <= radius < fl ->
  fl * cos (theta_of radius fl) = sqrt (fl ^ 2 - radius ^ 2).
Proof.
  intros [H0 H1]. unfold theta_of.
  assert (Hq : 0 <= radius / fl < 1).
  { assert (Hi : 0 < / fl) by (apply Rinv_0_lt_compat; lra).
    assert (Hone : fl * / fl = 1) by (apply Rinv_r; lra).
    unfold Rdiv. split; nra. }
  rewrite cos_asin by lra.
  rewrite <- (sqrt_square fl) at 1 by lra.
  rewrite <- sqrt_mult_alt by nra.
  f_equal. unfold Rsqr. field. lra.
Qed.

Lemma rim_depth_le (fl radius : R) :
  0 < fl -> 0 <= radius -> radius <= fl ->
  fl * cos (theta_of radius fl) = sqrt (fl ^ 2 - radius ^ 2).
Proof.
  intros Hfl H0 H1. destruct (Rlt_dec radius fl) as [Hlt|Hge].
  - apply rim_depth. lra.
  - assert (radius = fl) by lra. subst radius. unfold theta_of.
    replace (fl / fl) with 1 by (field; lra).
    rewrite asin_1, cos_PI2. replace (fl ^ 2 - fl ^ 2) with 0 by ring.
    rewrite sqrt_0. ring.
Qed.

Lemma sample_range (radius : R) (i : nat) :
  0 <= radius -> (i < n_quad)%nat -> 0 <= Spec.sample radius i <= radius.
Proof.
  intros Hr Hi. unfold Spec.sample. pose proof (pos_INR i) as H0.
  assert (H1 : INR i <= 499).
  { rewrite <- INR_n_quad_pred. apply le_INR. unfold n_quad in *. lia. }
  unfold Rdiv. split; nra.
Qed.

(** C3, as amended.  For a valid bowl whose outer radius is smaller than
    its focal length and whose apex is at the origin
    ([focus[0] = focal_length], as line 89 presupposes), the 500 points at
    which [normalise_power] evaluates the field are [(x_disk, 0, r)] with
    [0 <= r <= radius] and
    [x_disk = focal_length - 0.98 * sqrt(focal_length^2 - radius^2)]; every
    source of the call lies at distance [focal_length] from the geometric
    focus [(focal_length, 0, 0)] and strictly between the apex plane and
    the plane of the bowl's rim, and the disk lies on the axis strictly
    between the rim plane and the focus, at 2% of the way from the rim
    plane to the focus: its axial coordinate is strictly less than the
    focal distance, and its distance from the focus is 49 times its
    distance from the rim plane. *)
Theorem C3_calibration_disk_position
    (power rho c0 radius : R) (k1 : C) (focal_length f1' f2 : R)
    (n_elements : Z) (aperture_radius : R) :
  valid_geometry focal_length radius aperture_radius n_elements ->
  radius < focal_length ->
  let focus := (focal_length, f1', f2) in
  let depth := sqrt (focal_length ^ 2 - radius ^ 2) in
  let rim := focal_length - focal_length * cos (theta_of radius focal_length) in
  let x_disk := x_location_disk focal_length radius in
  exists xyz p_quad,
    bowl_transducer (RtoC (np_real k1)) focal_length focus radius n_elements
                    aperture_radius (points_quad focal_length radius) "x"
    = Ok (xyz, p_quad) /\
    normalise_power power rho c0 radius k1 focal_length focus n_elements
                    aperture_radius
    = Ok (sqrt (2 * rho * c0 * power / quad_integral radius p_quad)) /\
    length (points_quad focal_length radius) = 500%nat /\
    Forall (fun pt : R * R * R => pt.1.1 = x_disk /\ pt.1.2 = 0 /\ 0 <= pt.2 <= radius)
           (points_quad focal_length radius) /\
    Forall (fun s : R * R * R =>
              Spec.dist s (focal_length, 0, 0) = focal_length /\ 0 < s.1.1 < rim)
           (sources_of xyz) /\
    0 < depth /\
    rim = focal_length - depth /\
    rim < x_disk < focal_length /\
    focal_length - x_disk = 0.98 * depth /\
    x_disk - rim = 0.02 * depth /\
    focal_length - x_disk = 49 * (x_disk - rim).
Proof.
  intros Hv Hlt focus depth rim x_disk.
  pose proof Hv as (Hfl & Hap & Hapr & Hrad & Hn).
  destruct (normalise_power_unfold power rho c0 radius k1 focal_length focus
              n_elements aperture_radius) as [Hb Hnp].
  cbv zeta in Hb, Hnp.
  eexists _, _. split; [exact Hb|]. split; [exact Hnp|].
  assert (Hd : 0 < depth) by (apply sqrt_lt_R0; nra).
  assert (Hr : rim = focal_length - depth)
    by (unfold rim; rewrite rim_depth by lra; reflexivity).
  split; [|split; [|split]].
  - rewrite points_quad_samples, length_map, length_seq. reflexivity.
  - rewrite points_quad_samples. apply Forall_map, Forall_forall.
    intros i Hi. apply list_elem_of_In, in_seq in Hi. cbn [fst snd].
    split; [reflexivity|]. split; [reflexivity|].
    apply sample_range; [lra | lia].
  - pose proof (bowl_sources_x_on_sphere focal_length focus
                  (theta_of aperture_radius focal_length) (theta_of radius focal_length)
                  (area_element (theta_of aperture_radius focal_length)
                                (theta_of radius focal_length) n_elements)) as Hs.
    pose proof (sources_x_between_planes focal_length focus radius aperture_radius
                  n_elements Hfl Hap Hapr Hrad) as Hp.
    cbv zeta in Hs, Hp.
    destruct (theta_of_range focal_length aperture_radius radius Hfl Hap Hapr Hrad)
      as (T0 & _ & T2).
    assert (Hc : cos (theta_of aperture_radius focal_length) <= 1) by apply COS_bound.
    apply Forall_forall. intros s Hin.
    rewrite Forall_forall in Hs, Hp. specialize (Hs s Hin). specialize (Hp s Hin).
    cbn [focus fst snd] in Hs, Hp. fold rim in Hp.
    rewrite Rabs_pos_eq in Hs by lra.
    split; [exact Hs|]. nra.
  - unfold x_disk, x_location_disk. fold depth. rewrite Hr.
    repeat split; lra.
Qed.

Lemma C3_calibration_disk_position_witness :
  valid_geometry 5 3 0 64 /\ 3 < 5 /\
  exists xyz p_quad,
    bowl_transducer (RtoC (np_real (1, 2))) 5 (5, 0, 0) 3 64 0 (points_quad 5 3) "x"
    = Ok (xyz, p_quad) /\
    Forall (fun pt : R * R * R =>
              pt.1.1 = x_location_disk 5 3 /\ pt.1.2 = 0 /\ 0 <= pt.2 <= 3)
           (points_quad 5 3) /\
    Forall (fun s : R * R * R =>
              Spec.dist s (5, 0, 0) = 5 /\ 0 < s.1.1 < 5 - 5 * cos (theta_of 3 5))
           (sources_of xyz) /\
    5 - 5 * cos (theta_of 3 5) < x_location_disk 5 3 < 5 /\
    5 - x_location_disk 5 3 = 0.98 * sqrt (5 ^ 2 - 3 ^ 2).
Proof.
  assert (Hv : valid_geometry 5 3 0 64) by (unfold valid_geometry; repeat split; lra || lia).
  assert (Hlt : 3 < 5) by lra.
  split; [exact Hv|]. split; [exact Hlt|].
  destruct (C3_calibration_disk_position 44 998 1487 3 (1, 2) 5 0 0 64 0 Hv Hlt)
    as (xyz & p_quad & Hb & _ & _ & Hpts & Hsrc & _ & _ & Hbetween & Hfocus & _).
  exists xyz, p_quad.
  split; [exact Hb|]. split; [exact Hpts|]. split; [exact Hsrc|].
  split; [exact Hbetween | exact Hfocus].
Defined.

(** C3, as stated, fails for the transducer of the demo (focal length
    63.2 mm, outer radius 32 mm): the disk is short of the focus but not
    near it, being closer to the bowl than to the focus; it lies within
    the first sixth of the way from the apex of the bowl to the focus. *)
Lemma C3_counterexample :
  ~ Spec.just_short_of_focus 0.0632 (x_location_disk 0.0632 0.032) /\
  x_location_disk 0.0632 0.032 < 0.0632 / 6.
Proof.
  assert (Hs : 0.054 < sqrt (0.0632 ^ 2 - 0.032 ^ 2)).
  { rewrite <- (sqrt_square 0.054) by lra. apply sqrt_lt_1; lra. }
  unfold Spec.just_short_of_focus, x_location_disk.
  split; [intros [_ H]|]; lra.
Qed.

(** ** The harmonic cascade *)

Lemma Cmul_Cscal_l (a : R) (z w : C) : Cmul (Cscal a z) w = Cscal a (Cmul z w).
Proof. cplx. Qed.

Lemma fmul_fscal_l (a : R) (u v : field) : fmul (fscal a u) v = fscal a (fmul u v).
Proof.
  unfold fmul, fscal. revert v. induction u as [|z u IH]; intros [|w v]; try reflexivity.
  cbn [map zip_with]. now rewrite Cmul_Cscal_l, IH.
Qed.

Lemma harmonic_wavenumber_parts (pr : params) (h : nat) :
  harmonic_wavenumber pr h
  = (2 * PI * (INR (h + 1) * f1 pr) / c pr,
     alpha0 pr * powerRZ (INR (h + 1) * f1 pr * 1e-6) (eta pr)).
Proof.
  unfold harmonic_wavenumber, harmonic_frequency, attenuation, Cadd, Cmul, Ci, RtoC, Re, Im.
  cbn [fst snd]. f_equal; ring.
Qed.

Lemma harmonic_wavenumber_inj (pr : params) (h h' : nat) :
  f1 pr <> 0 -> c pr <> 0 -> h <> h' ->
  harmonic_wavenumber pr h <> harmonic_wavenumber pr h'.
Proof.
  intros Hf Hc Hh E. rewrite !harmonic_wavenumber_parts in E.
  injection E as E _.
  assert (E' : INR (h + 1) = INR (h' + 1)).
  { pose proof PI_RGT_0.
    apply (Rmult_eq_reg_r (2 * PI * f1 pr / c pr)).
    - unfold Rdiv in *. lra.
    - unfold Rdiv. apply Rmult_integral_contrapositive_currified.
      + apply Rmult_integral_contrapositive_currified; lra.
      + now apply Rinv_neq_0_compat. }
  apply INR_eq in E'. lia.
Qed.

Lemma getitem_agree (P Q : list field) (j : nat) :
  P !! j = Q !! j -> getitem P j = getitem Q j.
Proof. unfold getitem. now intros ->. Qed.

(** The forcing of harmonic [h] reads rows below [h] only. *)
Lemma build_forcing_agree (pr : params) (h : nat) (P Q : list field) (x : option field) :
  (forall j, (j < h)%nat -> P !! j = Q !! j) ->
  build_forcing pr h P x = build_forcing pr h Q x.
Proof.
  intros Hag. unfold build_forcing.
  destruct (Nat.eqb_spec h 1) as [->|H1].
  { rewrite (getitem_agree P Q 0) by (apply Hag; lia). reflexivity. }
  destruct (Nat.eqb_spec h 2) as [->|H2].
  { rewrite (getitem_agree P Q 0), (getitem_agree P Q 1) by (apply Hag; lia). reflexivity. }
  destruct (Nat.eqb_spec h 3) as [->|H3].
  { rewrite (getitem_agree P Q 0), (getitem_agree P Q 1), (getitem_agree P Q 2)
      by (apply Hag; lia). reflexivity. }
  destruct (Nat.eqb_spec h 4) as [->|H4].
  { rewrite (getitem_agree P Q 0), (getitem_agree P Q 1), (getitem_agree P Q 2),
      (getitem_agree P Q 3) by (apply Hag; lia). reflexivity. }
  reflexivity.
Qed.

Lemma getitem_ok (P : list field) (j : nat) :
  (j < length P)%nat -> exists u, P !! j = Some u /\ getitem P j = Ok u.
Proof.
  intros Hj. destruct (lookup_lt_is_Some_2 P j Hj) as [u Hu].
  exists u. split; [exact Hu|]. unfold getitem. now rewrite Hu.
Qed.

(** With the rows it reads in range and, past the last branch, an earlier
    value of [xIn] at hand, the forcing is built without an exception. *)
Lemma build_forcing_ok (pr : params) (h : nat) (P : list field) (x : option field) :
  (h < length P)%nat -> (1 <= h)%nat -> ((5 <= h)%nat -> is_Some x) ->
  exists u, build_forcing pr h P x = Ok u.
Proof.
  intros Hlen H1 Hx. unfold build_forcing.
  destruct (Nat.eqb_spec h 1) as [->|N1].
  { destruct (getitem_ok P 0) as (u0 & _ & ->); [lia|]. eexists; reflexivity. }
  destruct (Nat.eqb_spec h 2) as [->|N2].
  { destruct (getitem_ok P 0) as (u0 & _ & ->); [lia|].
    destruct (getitem_ok P 1) as (u1 & _ & ->); [lia|]. eexists; reflexivity. }
  destruct (Nat.eqb_spec h 3) as [->|N3].
  { destruct (getitem_ok P 0) as (u0 & _ & ->); [lia|].
    destruct (getitem_ok P 1) as (u1 & _ & ->); [lia|].
    destruct (getitem_ok P 2) as (u2 & _ & ->); [lia|]. eexists; reflexivity. }
  destruct (Nat.eqb_spec h 4) as [->|N4].
  { destruct (getitem_ok P 0) as (u0 & _ & ->); [lia|].
    destruct (getitem_ok P 1) as (u1 & _ & ->); [lia|].
    destruct (getitem_ok P 2) as (u2 & _ & ->); [lia|].
    destruct (getitem_ok P 3) as (u3 & _ & ->); [lia|]. eexists; reflexivity. }
  destruct Hx as [u ->]; [lia|]. eexists; reflexivity.
Qed.

(** The four branches of the chain do not read the earlier value of
    [xIn]. *)
Lemma build_forcing_fresh (pr : params) (h : nat) (P : list field) (x x' : option field) :
  (1 <= h <= 4)%nat -> build_forcing pr h P x = build_forcing pr h P x'.
Proof.
  intros Hh. unfold build_forcing.
  destruct (Nat.eqb_spec h 1); [reflexivity|].
  destruct (Nat.eqb_spec h 2); [reflexivity|].
  destruct (Nat.eqb_spec h 3); [reflexivity|].
  destruct (Nat.eqb_spec h 4); [reflexivity|]. lia.
Qed.

Lemma setitem_ok (P : list field) (j : nat) (v : field) :
  (j < length P)%nat -> setitem P j v = Ok (<[j := v]> P).
Proof. intros Hj. unfold setitem. destruct (decide (j < length P)%nat); [reflexivity|lia]. Qed.

Lemma foldlM_app {A B : Type} (f : A -> B -> outcome A) (l1 l2 : list B) (a : A) :
  foldlM f (l1 ++ l2) a = (a' ← foldlM f l1 a; foldlM f l2 a').
Proof.
  revert a. induction l1 as [|b l1 IH]; intros a; [reflexivity|].
  cbn [app foldlM]. destruct (f a b) as [a1|e]; cbn [mbind outcome_bind]; [apply IH|reflexivity].
Qed.

Section CascadeProperties.
Context `{ops : VinesOperators}.
Variables (pr : params) (r : grid) (L M N : nat).

(** What an iteration leaves behind, in terms of the forcing it built. *)
Lemma harmonic_step_unfold (st : cascade_vars) (h : nat) (u : field) :
  build_forcing pr h (P st) (xIn st) = Ok u ->
  (h < length (P st))%nat ->
  let k_h := harmonic_wavenumber pr h in
  let toep := volume_potential k_h r in
  let circ := circulant_embed_fftw toep L M N in
  harmonic_step pr r L M N st h
  = Ok (mk_vars _ (<[h := mvp_volume_potential u circ (idx L M N) (Mr L M N)]> (P st))
                (Some k_h) (Some toep) (Some circ) (Some u)).
Proof.
  intros Hu Hlen k_h toep circ. unfold harmonic_step. rewrite Hu.
  cbn [mbind outcome_bind]. unfold reshape_F. rewrite setitem_ok by exact Hlen.
  reflexivity.
Qed.

Lemma harmonic_step_inv (st st' : cascade_vars) (h : nat) :
  harmonic_step pr r L M N st h = Ok st' ->
  exists u, build_forcing pr h (P st) (xIn st) = Ok u /\
            (h < length (P st))%nat /\
            P st' = <[h := mvp_volume_potential u
                             (circulant_embed_fftw
                                (volume_potential (harmonic_wavenumber pr h) r) L M N)
                             (idx L M N) (Mr L M N)]> (P st) /\
            xIn st' = Some u.
Proof.
  unfold harmonic_step. intros H.
  destruct (build_forcing pr h (P st) (xIn st)) as [u|e]; [|discriminate].
  cbn [mbind outcome_bind] in H. unfold setitem in H.
  destruct (decide (h < length (P st))%nat) as [Hlen|]; [|discriminate].
  cbn [mbind outcome_bind] in H. injection H as <-.
  exists u. repeat split. exact Hlen.
Qed.

Lemma harmonic_step_ok (st : cascade_vars) (h : nat) :
  (1 <= h)%nat -> (h < length (P st))%nat -> ((5 <= h)%nat -> is_Some (xIn st)) ->
  exists st', harmonic_step pr r L M N st h = Ok st' /\ length (P st') = length (P st) /\ is_Some (xIn st').
Proof.
  intros H1 Hlen Hx.
  destruct (build_forcing_ok pr h (P st) (xIn st) Hlen H1 Hx) as [u Hu].
  eexists. split; [apply (harmonic_step_unfold st h u Hu Hlen)|].
  cbn [P xIn]. rewrite length_insert. split; [reflexivity|]. now eexists.
Qed.

(** The loop over a range of harmonics that fits the stack runs to its end. *)
Lemma run_ok (k s : nat) (st : cascade_vars) :
  (1 <= s)%nat -> (s + k <= length (P st))%nat ->
  ((2 <= s)%nat -> is_Some (xIn st)) ->
  exists st', foldlM (harmonic_step pr r L M N) (seq s k) st = Ok st' /\
              length (P st') = length (P st) /\
              ((2 <= s + k)%nat -> is_Some (xIn st')).
Proof.
  revert s st. induction k as [|k IH]; intros s st Hs Hlen Hx.
  - exists st. split; [reflexivity|]. split; [reflexivity|].
    intros H. apply Hx. lia.
  - cbn [seq foldlM].
    destruct (harmonic_step_ok st s) as (st1 & E1 & L1 & X1); [lia|lia|intros; apply Hx; lia|].
    rewrite E1. cbn [mbind outcome_bind].
    destruct (IH (S s) st1) as (st' & E & L' & X'); [lia|lia|intros _; exact X1|].
    exists st'. split; [exact E|]. split; [lia|].
    intros _. apply X'. lia.
Qed.

(** The loop over a range of harmonics that fits the stack: every
    harmonic [h] of the range gets, in row [h], the product of the
    operator built at its own wavenumber with the forcing the iteration
    built, and the names [k2], [toep_op] and [circ_op] are left bound to
    the operator of the last harmonic. *)
Lemma run_rows (k s : nat) (st : cascade_vars) :
  (1 <= s)%nat -> (s + k <= length (P st))%nat ->
  ((2 <= s)%nat -> is_Some (xIn st)) ->
  exists st',
    foldlM (harmonic_step pr r L M N) (seq s k) st = Ok st' /\
    length (P st') = length (P st) /\
    agree s (P st) (P st') /\
    ((1 <= k)%nat ->
     k2 st' = Some (harmonic_wavenumber pr (s + k - 1)) /\
     toep_op st' = Some (volume_potential (harmonic_wavenumber pr (s + k - 1)) r) /\
     circ_op st'
     = Some (circulant_embed_fftw
               (volume_potential (harmonic_wavenumber pr (s + k - 1)) r) L M N)) /\
    forall h, (s <= h < s + k)%nat ->
      exists u : field,
        P st' !! h
        = Some (mvp_volume_potential u
                  (circulant_embed_fftw
                     (volume_potential (harmonic_wavenumber pr h) r) L M N)
                  (idx L M N) (Mr L M N)) /\
        ((h <= 4)%nat -> build_forcing pr h (P st') None = Ok u).
Proof.
  revert s st. induction k as [|k IH]; intros s st Hs Hlen Hx.
  - exists st. split; [reflexivity|]. split; [reflexivity|].
    split; [intros j _; reflexivity|]. split; [lia|]. intros h Hh. lia.
  - cbn [seq foldlM].
    destruct (build_forcing_ok pr s (P st) (xIn st)) as [u Hu];
      [lia|lia|intros; apply Hx; lia|].
    rewrite (harmonic_step_unfold st s u Hu) by lia.
    cbn [mbind outcome_bind].
    match goal with
    | |- exists _, foldlM _ _ ?a = _ /\ _ =>
        set (st1 := a);
        destruct (IH (S s) st1) as (st' & E & L' & Hag & Hop & Hrows)
    end.
    { lia. }
    { unfold st1. cbn [P]. rewrite length_insert. lia. }
    { intros _. unfold st1. cbn [xIn]. now eexists. }
    assert (L1 : length (P st1) = length (P st))
      by (unfold st1; cbn [P]; now rewrite length_insert).
    assert (Hbelow : agree s (P st) (P st')).
    { intros j Hj. etransitivity; [|exact (Hag j ltac:(lia))].
      unfold st1. cbn [P]. symmetry. apply list_lookup_insert_ne. lia. }
    exists st'. split; [exact E|]. split; [lia|]. split; [exact Hbelow|]. split.
    + intros _. destruct k as [|k].
      * cbn [seq foldlM] in E. injection E as <-.
        replace (s + 1 - 1)%nat with s by lia. unfold st1. cbn [k2 toep_op circ_op].
        repeat split.
      * replace (s + S (S k) - 1)%nat with (S s + S k - 1)%nat by lia.
        apply Hop. lia.
    + intros h Hh. destruct (decide (h = s)) as [->|Hne].
      * exists u. split.
        -- etransitivity; [symmetry; exact (Hag s ltac:(lia))|].
           unfold st1. cbn [P]. apply list_lookup_insert_eq.
           apply (Nat.lt_le_trans _ (s + S k)); [lia | exact Hlen].
        -- intros H4. rewrite <- Hu.
           rewrite (build_forcing_fresh pr s (P st) (xIn st) None) by lia.
           symmetry. apply build_forcing_agree. exact Hbelow.
      * apply Hrows. lia.
Qed.

Lemma agree_insert (n h : nat) (P Q : list field) (v : field) :
  (h < length P)%nat -> (h < length Q)%nat ->
  agree n P Q -> agree n (<[h := v]> P) (<[h := v]> Q).
Proof.
  intros HP HQ Hag j Hj. destruct (decide (j = h)) as [->|Hne].
  - now rewrite !list_lookup_insert_eq.
  - rewrite !list_lookup_insert_ne by congruence. now apply Hag.
Qed.

(** Run side by side on stacks that agree below [n], the iterations for
    harmonics below [n] keep them in agreement. *)
Lemma run_agree (n k s : nat) (st1 st2 : cascade_vars) :
  (1 <= s)%nat -> (s + k <= n)%nat ->
  (n <= length (P st1))%nat -> (n <= length (P st2))%nat ->
  agree n (P st1) (P st2) -> xIn st1 = xIn st2 ->
  ((2 <= s)%nat -> is_Some (xIn st1)) ->
  exists st1' st2',
    foldlM (harmonic_step pr r L M N) (seq s k) st1 = Ok st1' /\
    foldlM (harmonic_step pr r L M N) (seq s k) st2 = Ok st2' /\
    agree n (P st1') (P st2') /\ xIn st1' = xIn st2' /\
    length (P st1') = length (P st1) /\ length (P st2') = length (P st2) /\
    ((2 <= s + k)%nat -> is_Some (xIn st1')).
Proof.
  revert s st1 st2. induction k as [|k IH]; intros s st1 st2 Hs Hk L1 L2 Hag Hx Hsome.
  - exists st1, st2. repeat split; try assumption. intros H. apply Hsome. lia.
  - cbn [seq foldlM].
    destruct (build_forcing_ok pr s (P st1) (xIn st1)) as [u Hu];
      [lia|lia|intros; apply Hsome; lia|].
    assert (Hu2 : build_forcing pr s (P st2) (xIn st2) = Ok u).
    { rewrite <- Hx, <- Hu. symmetry. apply build_forcing_agree.
      intros j Hj. apply Hag. lia. }
    rewrite (harmonic_step_unfold st1 s u Hu) by lia.
    rewrite (harmonic_step_unfold st2 s u Hu2) by lia.
    cbn [mbind outcome_bind].
    match goal with
    | |- exists _ _, foldlM _ _ ?a = _ /\ foldlM _ _ ?b = _ /\ _ =>
        destruct (IH (S s) a b) as (st1' & st2' & E1 & E2 & Hag' & Hx' & L1' & L2' & Hs')
    end; cbn [P xIn]; rewrite ?length_insert; try lia.
    + apply agree_insert; [lia|lia|exact Hag].
    + reflexivity.
    + intros _. now eexists.
    + cbn [P xIn] in L1', L2'. rewrite length_insert in L1', L2'.
      exists st1', st2'. repeat split; try assumption.
      intros _. apply Hs'. lia.
Qed.

(** Iterations for harmonics [n] and above leave the rows below [n] alone. *)
Lemma run_keeps_below (n k s : nat) (st st' : cascade_vars) :
  (n <= s)%nat -> foldlM (harmonic_step pr r L M N) (seq s k) st = Ok st' -> agree n (P st) (P st').
Proof.
  revert s st. induction k as [|k IH]; intros s st Hs H.
  - cbn in H. injection H as <-. intros j _. reflexivity.
  - cbn [seq foldlM] in H.
    destruct (harmonic_step pr r L M N st s) as [st1|e] eqn:E1; [|discriminate].
    cbn [mbind outcome_bind] in H.
    apply harmonic_step_inv in E1 as (u & _ & Hlen & HP & _).
    pose proof (IH (S s) st1 ltac:(lia) H) as Hag.
    intros j Hj. rewrite <- (Hag j Hj), HP.
    rewrite list_lookup_insert_ne by lia. reflexivity.
Qed.

Lemma initial_stack_ok (n : nat) (p : field) :
  (1 <= n)%nat ->
  initial_stack L M N n p = Ok (<[0%nat := p]> (replicate n (replicate (L * M * N) C0))).
Proof.
  intros Hn. unfold initial_stack, reshape_F. apply setitem_ok.
  rewrite length_replicate. lia.
Qed.

Lemma initial_stack_agree (n n' : nat) (p : field) :
  (n <= n')%nat ->
  agree n (<[0%nat := p]> (replicate n (replicate (L * M * N) C0)))
          (<[0%nat := p]> (replicate n' (replicate (L * M * N) C0))).
Proof.
  intros Hn j Hj. destruct j as [|j].
  - rewrite !list_lookup_insert_eq by (rewrite length_replicate; lia). reflexivity.
  - rewrite !list_lookup_insert_ne by lia.
    rewrite !lookup_replicate_2 by lia. reflexivity.
Qed.

(** The cascade returns for every positive harmonic count, and asking for
    more harmonics does not change the ones already asked for. *)
Lemma cascade_prefix (n n' : nat) (p : field) :
  (1 <= n)%nat -> (n <= n')%nat ->
  exists st st',
    cascade pr r L M N n p = Ok st /\
    cascade pr r L M N n' p = Ok st' /\
    length (P st) = n /\ length (P st') = n' /\
    agree n (P st) (P st').
Proof.
  intros H1 Hle. unfold cascade.
  rewrite !initial_stack_ok by lia. cbn [mbind outcome_bind].
  replace (n' - 1)%nat with ((n - 1) + (n' - n))%nat by lia.
  rewrite seq_app, foldlM_app. replace (1 + (n - 1))%nat with n by lia.
  set (z := replicate (L * M * N) C0).
  destruct (run_agree n (n - 1) 1
              (mk_vars _ (<[0%nat := p]> (replicate n z)) None None None None)
              (mk_vars _ (<[0%nat := p]> (replicate n' z)) None None None None))
    as (st1 & st2 & E1 & E2 & Hag & Hx & L1 & L2 & Hs);
    cbn [P xIn]; rewrite ?length_insert, ?length_replicate; try lia.
  - now apply initial_stack_agree.
  - reflexivity.
  - cbn [P xIn] in L1, L2. rewrite length_insert, length_replicate in L1, L2.
    rewrite E1, E2. cbn [mbind outcome_bind].
    destruct (run_ok (n' - n) n st2) as (st' & E' & L' & _); [lia|lia| |].
    + intros Hn. rewrite <- Hx. apply Hs. lia.
    + exists st1, st'. repeat split; try assumption; try lia.
      intros j Hj. rewrite (Hag j Hj).
      now apply (run_keeps_below n (n' - n) n st2 st').
Qed.

End CascadeProperties.

Section CascadeClaims.
Context `{ops : VinesOperators}.
Variables (pr : params) (r : grid) (L M N : nat).

(** C2.  For every harmonic index [h >= 1] the loop processes, the forcing
    fed to the volume-potential operator is built from the rows [P[j]]
    with [j < h] only: it is the same for two stacks that agree below [h].
    The combinations are fixed: [-2 q P0 P0] for the second harmonic,
    [-9 q P0 P1] for the third, [-8 q (P1 P1 + 2 P0 P2)] for the fourth and
    [-25 q (P0 P3 + P1 P2)] for the fifth, with
    [q = beta omega^2 / (rho c^4)].  An iteration writes row [h] alone, so
    the cascade returns the same harmonics below [n] whether [n] or more
    harmonics are asked for: no harmonic depends on one of equal or higher
    index. *)
Theorem C2_forward_dependency :
  (forall (h : nat) (P Q : list field) (x : option field),
      (1 <= h)%nat ->
      (forall j, (j < h)%nat -> P !! j = Q !! j) ->
      build_forcing pr h P x = build_forcing pr h Q x) /\
  (forall (P : list field) (x : option field) (P0 P1 P2 P3 : field),
      let q := fun m : R => m * beta pr * omega pr ^ 2 / (rho pr * c pr ^ 4) in
      (P !! 0%nat = Some P0 ->
       build_forcing pr 1 P x = Ok (fscal (q (-2)) (fmul P0 P0))) /\
      (P !! 0%nat = Some P0 -> P !! 1%nat = Some P1 ->
       build_forcing pr 2 P x = Ok (fscal (q (-9)) (fmul P0 P1))) /\
      (P !! 0%nat = Some P0 -> P !! 1%nat = Some P1 -> P !! 2%nat = Some P2 ->
       build_forcing pr 3 P x
       = Ok (fscal (q (-8)) (fadd (fmul P1 P1) (fmul (fscal 2 P0) P2)))) /\
      (P !! 0%nat = Some P0 -> P !! 1%nat = Some P1 -> P !! 2%nat = Some P2 ->
       P !! 3%nat = Some P3 ->
       build_forcing pr 4 P x
       = Ok (fscal (q (-25)) (fadd (fmul P0 P3) (fmul P1 P2))))) /\
  (forall (st st' : cascade_vars) (h : nat),
      harmonic_step pr r L M N st h = Ok st' ->
      exists u,
        build_forcing pr h (P st) (xIn st) = Ok u /\
        P st' = <[h := mvp_volume_potential u
                          (circulant_embed_fftw
                             (volume_potential (harmonic_wavenumber pr h) r) L M N)
                          (idx L M N) (Mr L M N)]> (P st) /\
        forall j, j <> h -> P st' !! j = P st !! j) /\
  (forall (n n' : nat) (p : field),
      (1 <= n)%nat -> (n <= n')%nat ->
      exists st st',
        cascade pr r L M N n p = Ok st /\
        cascade pr r L M N n' p = Ok st' /\
        length (P st) = n /\
        forall h, (h < n)%nat -> P st !! h = P st' !! h).
Proof.
  split; [|split; [|split]].
  - intros h P Q x _ Hag. now apply build_forcing_agree.
  - intros P x P0 P1 P2 P3 q. unfold build_forcing, getitem, q.
    repeat split.
    + intros ->. cbn. now rewrite fmul_fscal_l.
    + intros -> ->. cbn. now rewrite fmul_fscal_l.
    + intros -> -> ->. reflexivity.
    + intros -> -> -> ->. reflexivity.
  - intros st st' h H.
    apply harmonic_step_inv in H as (u & Hu & Hlen & HP & _).
    exists u. split; [exact Hu|]. split; [exact HP|].
    intros j Hj. rewrite HP. now apply list_lookup_insert_ne.
  - intros n n' p H1 Hle.
    destruct (cascade_prefix pr r L M N n n' p H1 Hle)
      as (st & st' & E & E' & Hl & _ & Hag).
    exists st, st'. repeat split; assumption.
Qed.

(** C7.  For every harmonic index [h >= 1] (within the stack), the
    iteration builds the kernel with [volume_potential] at the harmonic's
    own wavenumber [k_h = 2 pi f_h / c + i alpha0 (f_h 1e-6)^eta],
    [f_h = (h + 1) f1], embeds that kernel, and stores in row [h] the
    product of the unmasked operator (mask all true, contrast all one)
    with the forcing.  The kernel and embedding an earlier iteration left
    behind are not read, and distinct harmonics have distinct
    wavenumbers.  The cascade for [n >= 1] harmonics returns, and for
    every [1 <= h < n] row [h] of the stack it returns is the product of
    the operator built at [k_h] with the forcing of harmonic [h] (for
    [h <= 4] the forcing the chain builds from the rows returned); the
    operator left bound at the end is the one of the last harmonic. *)
Theorem C7_fresh_operator_per_harmonic :
  (forall (st : cascade_vars) (h : nat),
      (1 <= h)%nat -> (h < length (P st))%nat ->
      ((5 <= h)%nat -> is_Some (xIn st)) ->
      let f_h := INR (h + 1) * f1 pr in
      let k_h := (2 * PI * f_h / c pr,
                  alpha0 pr * powerRZ (f_h * 1e-6) (eta pr)) in
      let toep := volume_potential k_h r in
      let circ := circulant_embed_fftw toep L M N in
      exists u st',
        build_forcing pr h (P st) (xIn st) = Ok u /\
        harmonic_step pr r L M N st h = Ok st' /\
        k2 st' = Some k_h /\ toep_op st' = Some toep /\ circ_op st' = Some circ /\
        P st' = <[h := mvp_volume_potential u circ
                          (replicate (L * M * N) true)
                          (replicate (L * M * N) (1, 0))]> (P st)) /\
  (forall (st1 st2 : cascade_vars) (h : nat),
      P st1 = P st2 -> xIn st1 = xIn st2 ->
      harmonic_step pr r L M N st1 h = harmonic_step pr r L M N st2 h) /\
  (forall h h' : nat,
      f1 pr <> 0 -> c pr <> 0 -> h <> h' ->
      harmonic_wavenumber pr h <> harmonic_wavenumber pr h') /\
  (forall (n : nat) (p : field),
      (1 <= n)%nat ->
      exists st,
        cascade pr r L M N n p = Ok st /\
        length (P st) = n /\
        forall h, (1 <= h < n)%nat ->
          let f_h := INR (h + 1) * f1 pr in
          let k_h := (2 * PI * f_h / c pr,
                      alpha0 pr * powerRZ (f_h * 1e-6) (eta pr)) in
          let toep := volume_potential k_h r in
          let circ := circulant_embed_fftw toep L M N in
          exists u : field,
            P st !! h
            = Some (mvp_volume_potential u circ
                      (replicate (L * M * N) true)
                      (replicate (L * M * N) (1, 0))) /\
            ((h <= 4)%nat -> build_forcing pr h (P st) None = Ok u) /\
            (h = (n - 1)%nat ->
             k2 st = Some k_h /\ toep_op st = Some toep /\ circ_op st = Some circ)).
Proof.
  split; [|split; [|split]].
  - intros st h H1 Hlen Hx f_h k_h toep circ.
    destruct (build_forcing_ok pr h (P st) (xIn st) Hlen H1 Hx) as [u Hu].
    exists u. eexists. split; [exact Hu|].
    split; [apply (harmonic_step_unfold pr r L M N st h u Hu Hlen)|].
    cbn [k2 toep_op circ_op P].
    unfold toep, circ, k_h, f_h. rewrite !harmonic_wavenumber_parts.
    repeat split.
  - intros st1 st2 h HP Hx. unfold harmonic_step. now rewrite HP, Hx.
  - intros h h'. apply harmonic_wavenumber_inj.
  - intros n p Hn. unfold cascade.
    rewrite (initial_stack_ok L M N n p Hn). cbn [mbind outcome_bind].
    match goal with
    | |- exists _, foldlM _ _ ?a = _ /\ _ =>
        destruct (run_rows pr r L M N (n - 1) 1 a) as (st & E & Hl & _ & Hop & Hrows)
    end.
    { lia. }
    { cbn [P]. rewrite length_insert, length_replicate. lia. }
    { intros H2. lia. }
    cbn [P] in Hl. rewrite length_insert, length_replicate in Hl.
    exists st. split; [exact E|]. split; [exact Hl|].
    intros h Hh. rewrite <- (harmonic_wavenumber_parts pr h).
    destruct (Hrows h ltac:(lia)) as (u & Hrow & Hf).
    exists u. split; [exact Hrow|]. split; [exact Hf|].
    intros ->. replace (1 + (n - 1) - 1)%nat with (n - 1)%nat in Hop by lia.
    apply Hop. lia.
Qed.

End CascadeClaims.

Lemma C2_forward_dependency_witness :
  (1 <= 1)%nat /\
  (forall j, (j < 1)%nat ->
             [[(1, 0)]; [(2, 0)]] !! j = [[(1, 0)]; [(3, 0)]] !! j) /\
  build_forcing demo_params 1 [[(1, 0)]; [(2, 0)]] None
  = build_forcing demo_params 1 [[(1, 0)]; [(3, 0)]] None.
Proof.
  assert (H1 : (1 <= 1)%nat) by lia.
  assert (Hag : forall j, (j < 1)%nat ->
                  [[(1, 0)]; [(2, 0)]] !! j = [[(1, 0)]; [(3, 0)]] !! j).
  { intros j Hj. destruct j as [|j]; [reflexivity|lia]. }
  split; [exact H1|]. split; [exact Hag|].
  exact (proj1 (@C2_forward_dependency scalar_ops demo_params tt 1 1 1)
               1%nat [[(1, 0)]; [(2, 0)]] [[(1, 0)]; [(3, 0)]] None H1 Hag).
Defined.

Lemma C7_fresh_operator_per_harmonic_witness :
  (f1 demo_params <> 0 /\ c demo_params <> 0 /\ 1%nat <> 2%nat /\
   harmonic_wavenumber demo_params 1 <> harmonic_wavenumber demo_params 2) /\
  ((1 <= 3)%nat /\ (1 <= 2 < 3)%nat /\
   exists (st : @cascade_vars scalar_ops) (u : field),
     @cascade scalar_ops demo_params tt 1 1 1 3 [(1, 0)] = Ok st /\
     P st !! 2%nat
     = Some (map (Cmul (2 * PI * (INR (2 + 1) * f1 demo_params) / c demo_params,
                        alpha0 demo_params
                        * powerRZ (INR (2 + 1) * f1 demo_params * 1e-6)
                                  (eta demo_params)))
                 u) /\
     build_forcing demo_params 2 (P st) None = Ok u).
Proof.
  assert (Hf : f1 demo_params <> 0) by (cbv [demo_params f1]; lra).
  assert (Hc : c demo_params <> 0) by (cbv [demo_params c]; lra).
  assert (Hh : 1%nat <> 2%nat) by lia.
  assert (H3 : (1 <= 3)%nat) by lia.
  assert (H2 : (1 <= 2 < 3)%nat) by lia.
  pose proof (@C7_fresh_operator_per_harmonic scalar_ops demo_params tt 1 1 1)
    as (_ & _ & Hinj & Hrun).
  split.
  - split; [exact Hf|]. split; [exact Hc|]. split; [exact Hh|].
    exact (Hinj 1%nat 2%nat Hf Hc Hh).
  - split; [exact H3|]. split; [exact H2|].
    destruct (Hrun 3%nat [(1, 0)] H3) as (st & E & _ & Hrows).
    destruct (Hrows 2%nat H2) as (u & Hrow & Hforce & _).
    exists st, u. split; [exact E|]. split; [exact Hrow|].
    apply Hforce. lia.
Defined.

(* ================================================================== *)
(** * Further properties of the code                                    *)
(* ================================================================== *)

(** ** Where the sources lie *)

(** X1.  On a valid geometry a call with axis ['x'] or ['z'] returns, and
    every source it returns lies at distance [focal_length] from the point
    [(focus[0], 0, 0)] for axis ['x'] and from [(0, 0, focus[2])] for axis
    ['z']: only one component of [focus] is read. *)
Theorem sources_on_sphere
    (k : C) (focal_length : R) (focus : R * R * R) (radius : R)
    (n_elements : Z) (aperture_radius : R) (points : points3) :
  valid_geometry focal_length radius aperture_radius n_elements ->
  (exists xyz p,
      bowl_transducer k focal_length focus radius n_elements aperture_radius
                      points "x" = Ok (xyz, p) /\
      Forall (fun s => Spec.dist s (focus.1.1, 0, 0) = focal_length)
             (sources_of xyz)) /\
  (exists xyz p,
      bowl_transducer k focal_length focus radius n_elements aperture_radius
                      points "z" = Ok (xyz, p) /\
      Forall (fun s => Spec.dist s (0, 0, focus.2) = focal_length)
             (sources_of xyz)).
Proof.
  intros (Hfl & _). destruct focus as [[f0 f1'] f2].
  pose proof (tile_on_sphere focal_length (theta_of aperture_radius focal_length)
                (theta_of radius focal_length)
                (area_element (theta_of aperture_radius focal_length)
                              (theta_of radius focal_length) n_elements)) as Hraw.
  cbv zeta in Hraw.
  split; eexists _, _; (split; [apply bowl_transducer_field; reflexivity|]).
  - rewrite sources_orient_x. apply Forall_map.
    eapply Forall_impl; [exact Hraw|]. intros s Hs. cbn beta in *.
    rewrite (dist_on_sphere _ _ focal_length); [apply Rabs_pos_eq; lra|].
    cbn [fst snd]. rewrite <- Hs. ring.
  - rewrite sources_orient_z. apply Forall_map.
    eapply Forall_impl; [exact Hraw|]. intros s Hs. cbn beta in *.
    rewrite (dist_on_sphere _ _ focal_length); [apply Rabs_pos_eq; lra|].
    cbn [fst snd]. rewrite <- Hs. ring.
Qed.

Lemma sources_on_sphere_witness :
  valid_geometry 2 1 0 64 /\
  exists xyz p,
    bowl_transducer (RtoC 1) 2 (2, 7, 9) 1 64 0 [] "x" = Ok (xyz, p) /\
    Forall (fun s => Spec.dist s (2, 0, 0) = 2) (sources_of xyz).
Proof.
  assert (Hv : valid_geometry 2 1 0 64) by (unfold valid_geometry; repeat split; lra || lia).
  split; [exact Hv|].
  exact (proj1 (sources_on_sphere (RtoC 1) 2 (2, 7, 9) 1 64 0 [] Hv)).
Defined.

(** ** The sources lie between the aperture plane and the rim plane *)

(** X2.  On a valid geometry, every source returned for axis ['x'] has its
    first coordinate strictly between the plane of the inner aperture and
    the plane of the rim. *)
Theorem sources_between_planes
    (k : C) (focal_length : R) (focus : R * R * R) (radius : R)
    (n_elements : Z) (aperture_radius : R) (points : points3) :
  valid_geometry focal_length radius aperture_radius n_elements ->
  exists xyz p,
    bowl_transducer k focal_length focus radius n_elements aperture_radius
                    points "x" = Ok (xyz, p) /\
    Forall (fun s : R * R * R =>
              focus.1.1 - focal_length * cos (theta_of aperture_radius focal_length)
              < s.1.1
              < focus.1.1 - focal_length * cos (theta_of radius focal_length))
           (sources_of xyz).
Proof. apply bowl_sources_between_planes. Qed.

Lemma sources_between_planes_witness :
  valid_geometry 2 2 1 64 /\
  exists xyz p,
    bowl_transducer (RtoC 1) 2 (2, 0, 0) 2 64 1 [] "x" = Ok (xyz, p) /\
    Forall (fun s : R * R * R =>
              2 - 2 * cos (theta_of 1 2) < s.1.1 < 2 - 2 * cos (theta_of 2 2))
           (sources_of xyz).
Proof.
  assert (Hv : valid_geometry 2 2 1 64) by (unfold valid_geometry; repeat split; lra || lia).
  split; [exact Hv|].
  exact (sources_between_planes (RtoC 1) 2 (2, 0, 0) 2 64 1 [] Hv).
Defined.

(** X3.  For a valid bowl with [radius < focal_length] and its apex at the
    origin ([focus[0] = focal_length]), every source lies behind the
    calibration disk of [normalise_power], at least
    [0.02 * sqrt(focal_length^2 - radius^2)] away from each of its points;
    when that margin exceeds the minimum distance, the guard excludes no
    pair from the calibration field. *)
Theorem calibration_disk_clear_of_sources
    (k : C) (focal_length f1' f2 radius : R) (n_elements : Z)
    (aperture_radius : R) (points : points3) :
  valid_geometry focal_length radius aperture_radius n_elements ->
  radius < focal_length ->
  exists xyz p,
    bowl_transducer k focal_length (focal_length, f1', f2) radius n_elements
                    aperture_radius points "x" = Ok (xyz, p) /\
    Forall (fun s : R * R * R =>
              forall y r,
                0.02 * sqrt (focal_length ^ 2 - radius ^ 2)
                < Spec.dist (x_location_disk focal_length radius, y, r) s /\
                (min_dist <= 0.02 * sqrt (focal_length ^ 2 - radius ^ 2) ->
                 Spec.monopole k
                   (Spec.dist (x_location_disk focal_length radius, y, r) s)
                 <> (0, 0)))
           (sources_of xyz).
Proof.
  intros Hv Hrad. pose proof Hv as (Hfl & Hap & Hlt & _ & _).
  destruct (bowl_sources_between_planes k focal_length (focal_length, f1', f2) radius
              n_elements aperture_radius points Hv)
    as (xyz & p & Hb & HF).
  exists xyz, p. split; [exact Hb|].
  eapply Forall_impl; [exact HF|]. cbn [fst snd]. intros s [_ Hs] y r.
  rewrite rim_depth_le in Hs by lra.
  assert (Hd : 0.02 * sqrt (focal_length ^ 2 - radius ^ 2)
               < Spec.dist (x_location_disk focal_length radius, y, r) s).
  { pose proof (dist_ge_first (x_location_disk focal_length radius, y, r) s) as Hg.
    cbn [fst snd] in Hg. unfold x_location_disk in *. lra. }
  split; [exact Hd|]. intros Hmin.
  apply monopole_nonzero. lra.
Qed.

Lemma calibration_disk_clear_of_sources_witness :
  valid_geometry 0.0632 0.032 0 4096 /\ 0.032 < 0.0632 /\
  min_dist <= 0.02 * sqrt (0.0632 ^ 2 - 0.032 ^ 2) /\
  exists xyz p,
    bowl_transducer (RtoC 1) 0.0632 (0.0632, 0, 0) 0.032 4096 0 [] "x" = Ok (xyz, p) /\
    Forall (fun s : R * R * R =>
              forall y r,
                0.02 * sqrt (0.0632 ^ 2 - 0.032 ^ 2)
                < Spec.dist (x_location_disk 0.0632 0.032, y, r) s /\
                (min_dist <= 0.02 * sqrt (0.0632 ^ 2 - 0.032 ^ 2) ->
                 Spec.monopole (RtoC 1)
                   (Spec.dist (x_location_disk 0.0632 0.032, y, r) s) <> (0, 0)))
           (sources_of xyz).
Proof.
  assert (Hv : valid_geometry 0.0632 0.032 0 4096)
    by (unfold valid_geometry; repeat split; lra || lia).
  assert (Hlt : 0.032 < 0.0632) by lra.
  split; [exact Hv|]. split; [exact Hlt|]. split.
  - assert (Hs : 0.054 < sqrt (0.0632 ^ 2 - 0.032 ^ 2)).
    { rewrite <- (sqrt_square 0.054) by lra. apply sqrt_lt_1; lra. }
    unfold min_dist. lra.
  - exact (calibration_disk_clear_of_sources (RtoC 1) 0.0632 0 0 0.032 4096 0 [] Hv Hlt).
Defined.

(** ** Superposition, translation and a bound for [eval_source] *)

Lemma Csum_app (l1 l2 : list C) :
  Spec.Csum (l1 ++ l2) = Cadd (Spec.Csum l1) (Spec.Csum l2).
Proof.
  induction l1 as [|t l1 IH]; cbn [app Spec.Csum foldr].
  - symmetry. apply Cadd_0_l.
  - fold (Spec.Csum (l1 ++ l2)). fold (Spec.Csum l1).
    rewrite IH. symmetry. apply Cadd_assoc.
Qed.

Lemma sources_app (x1 y1 z1 x2 y2 z2 : list R) :
  length y1 = length x1 -> length z1 = length x1 ->
  sources_of (NdArrays (x1 ++ x2) (y1 ++ y2) (z1 ++ z2))
  = sources_of (NdArrays x1 y1 z1) ++ sources_of (NdArrays x2 y2 z2).
Proof.
  intros Hy Hz. cbn [sources_of].
  rewrite (zip_with_app pair x1 x2 y1 y2) by lia.
  rewrite zip_with_app by (rewrite length_zip_with; lia).
  reflexivity.
Qed.

(** X4.  The field of two source sets taken together is the sum of their
    fields, observation point by observation point. *)
Theorem eval_source_superposition
    (x1 y1 z1 x2 y2 z2 : list R) (points : points3) (k : C) :
  length y1 = length x1 -> length z1 = length x1 ->
  length y2 = length x2 -> length z2 = length x2 ->
  exists p1 p2,
    eval_source x1 y1 z1 points k = Ok p1 /\
    eval_source x2 y2 z2 points k = Ok p2 /\
    eval_source (x1 ++ x2) (y1 ++ y2) (z1 ++ z2) points k
    = Ok (zip_with Cadd p1 p2).
Proof.
  intros Hy1 Hz1 Hy2 Hz2. eexists _, _.
  split; [apply eval_source_total|]. split; [apply eval_source_total|].
  rewrite eval_source_total. f_equal.
  rewrite zip_with_fmap_l, zip_with_fmap_r, zip_with_diag.
  apply map_ext. intros pt.
  rewrite !inner_sum_spec by (rewrite ?length_app; lia).
  rewrite sources_app by assumption.
  now rewrite map_app, Csum_app.
Qed.

Lemma eval_source_superposition_witness :
  exists p1 p2,
    eval_source [0] [0] [0] [(1, 0, 0)] (RtoC 1) = Ok p1 /\
    eval_source [2] [0] [0] [(1, 0, 0)] (RtoC 1) = Ok p2 /\
    eval_source [0; 2] [0; 0] [0; 0] [(1, 0, 0)] (RtoC 1) = Ok (zip_with Cadd p1 p2).
Proof.
  exact (eval_source_superposition [0] [0] [0] [2] [0] [0] [(1, 0, 0)] (RtoC 1)
           eq_refl eq_refl eq_refl eq_refl).
Defined.

Lemma sources_shift (dx dy dz : R) (x y z : list R) :
  sources_of (NdArrays (map (Rplus dx) x) (map (Rplus dy) y) (map (Rplus dz) z))
  = map (fun s : R * R * R => (dx + s.1.1, dy + s.1.2, dz + s.2))
        (sources_of (NdArrays x y z)).
Proof.
  cbn [sources_of]. revert y z.
  induction x as [|a x IH]; intros [|b y] [|d z]; try reflexivity.
  cbn [map zip_with fst snd]. f_equal. apply IH.
Qed.

Lemma dist_shift (dx dy dz : R) (p s : R * R * R) :
  Spec.dist (dx + p.1.1, dy + p.1.2, dz + p.2) (dx + s.1.1, dy + s.1.2, dz + s.2)
  = Spec.dist p s.
Proof. unfold Spec.dist. cbn [fst snd]. f_equal. ring. Qed.

(** X5.  Moving the sources and the observation points by one and the same
    vector leaves the field unchanged: only relative positions enter. *)
Theorem eval_source_translation
    (x y z : list R) (points : points3) (k : C) (dx dy dz : R) :
  length y = length x -> length z = length x ->
  eval_source (map (Rplus dx) x) (map (Rplus dy) y) (map (Rplus dz) z)
              (map (fun pt : R * R * R => (dx + pt.1.1, dy + pt.1.2, dz + pt.2)) points) k
  = eval_source x y z points k.
Proof.
  intros Hy Hz. rewrite !eval_source_total. f_equal.
  rewrite map_map. apply map_ext. intros pt.
  rewrite !inner_sum_spec by (rewrite ?length_map; assumption).
  rewrite sources_shift, map_map. f_equal. apply map_ext. intros s.
  now rewrite dist_shift.
Qed.

Lemma eval_source_translation_witness :
  eval_source (map (Rplus 5) [0; 1]) (map (Rplus 6) [0; 0]) (map (Rplus 7) [0; 0])
              (map (fun pt : R * R * R => (5 + pt.1.1, 6 + pt.1.2, 7 + pt.2)) [(3, 0, 0)])
              (RtoC 1)
  = eval_source [0; 1] [0; 0] [0; 0] [(3, 0, 0)] (RtoC 1).
Proof.
  exact (eval_source_translation [0; 1] [0; 0] [0; 0] [(3, 0, 0)] (RtoC 1) 5 6 7
           eq_refl eq_refl).
Defined.

Lemma Cabs_nonneg (z : C) : 0 <= Cabs z.
Proof. apply sqrt_pos. Qed.

Lemma Cabs_0 : Cabs (0, 0) = 0.
Proof. unfold Cabs, Re, Im. cbn [fst snd]. replace (0 * 0 + 0 * 0) with 0 by ring. apply sqrt_0. Qed.

Lemma Cabs_triangle (z w : C) : Cabs (Cadd z w) <= Cabs z + Cabs w.
Proof.
  destruct z as [a b], w as [c0 d]. unfold Cabs, Cadd, Re, Im. cbn [fst snd].
  pose proof (sqrt_cauchy a b c0 d) as Hc. unfold Rsqr in Hc.
  assert (Hz : 0 <= a * a + b * b) by nra.
  assert (Hw : 0 <= c0 * c0 + d * d) by nra.
  pose proof (sqrt_pos (a * a + b * b)) as Pz.
  pose proof (sqrt_pos (c0 * c0 + d * d)) as Pw.
  pose proof (sqrt_sqrt _ Hz) as Sz. pose proof (sqrt_sqrt _ Hw) as Sw.
  set (u := sqrt (a * a + b * b)) in *. set (v := sqrt (c0 * c0 + d * d)) in *.
  rewrite <- (sqrt_square (u + v)) by lra.
  apply sqrt_le_1_alt. nra.
Qed.

Lemma Cabs_Csum_le (l : list C) (b : R) :
  Forall (fun t => Cabs t <= b) l -> Cabs (Spec.Csum l) <= INR (length l) * b.
Proof.
  induction 1 as [|t l Ht _ IH].
  - cbn. rewrite Cabs_0. lra.
  - cbn [Spec.Csum foldr]. fold (Spec.Csum l).
    pose proof (Cabs_triangle t (Spec.Csum l)).
    change (length (t :: l)) with (S (length l)). rewrite S_INR. lra.
Qed.

Lemma monopole_bound (k : C) (d : R) :
  0 <= Im k -> Cabs (Spec.monopole k d) <= 250 / PI.
Proof.
  intros Hk. pose proof PI_RGT_0 as HPI.
  assert (Hb : 0 < 250 / PI) by (apply Rdiv_lt_0_compat; lra).
  unfold Spec.monopole. destruct (Rle_dec d min_dist) as [|Hd]; [rewrite Cabs_0; lra|].
  assert (Hd' : min_dist < d) by lra. unfold min_dist in Hd'.
  set (e := exp (- Im k * d)). set (q := 4 * PI * d).
  assert (Hq : 0 < q) by (unfold q; nra).
  assert (He : 0 < e <= 1).
  { split; [apply exp_pos|]. unfold e.
    destruct (Req_dec (- Im k * d) 0) as [->|Hne]; [rewrite exp_0; lra|].
    left. rewrite <- exp_0. apply exp_increasing. nra. }
  unfold Cabs, Re, Im. cbn [fst snd].
  pose proof (sin2_cos2 (k.1 * d)) as Hsc. unfold Rsqr in Hsc.
  replace (e * cos (k.1 * d) / q * (e * cos (k.1 * d) / q)
           + e * sin (k.1 * d) / q * (e * sin (k.1 * d) / q))
    with ((e / q) * (e / q) * (sin (k.1 * d) * sin (k.1 * d) + cos (k.1 * d) * cos (k.1 * d)))
    by (field; lra).
  rewrite Hsc, Rmult_1_r, sqrt_square by (apply Rlt_le, Rdiv_lt_0_compat; lra).
  apply (Rmult_le_reg_r q); [exact Hq|].
  replace (e / q * q) with e by (field; lra).
  replace (250 / PI * q) with (1000 * d) by (unfold q; field; lra).
  lra.
Qed.

(** X6.  In a medium that does not amplify ([Im k >= 0]) the guard bounds the
    field: no value [eval_source] returns exceeds [250 / pi] per source in
    modulus, however close the observation points are to the sources. *)
Theorem eval_source_bounded (x y z : list R) (points : points3) (k : C) :
  0 <= Im k ->
  exists p,
    eval_source x y z points k = Ok p /\
    Forall (fun v => Cabs v <= INR (length x) * (250 / PI)) p.
Proof.
  intros Hk. eexists. split; [apply eval_source_total|].
  apply Forall_map, Forall_forall. intros pt _. unfold compose, inner_sum.
  set (term := fun j => Spec.monopole k (distance pt (nth j x 0) (nth j y 0) (nth j z 0))).
  rewrite (fold_left_map_acc Cadd term).
  rewrite fold_left_Cadd. unfold C0, RtoC. rewrite Cadd_0_l.
  replace (length x) with (length (map term (seq 0 (length x))))
    by (now rewrite length_map, length_seq).
  rewrite length_map, length_seq at 1.
  apply Cabs_Csum_le. apply Forall_map, Forall_forall. intros j _.
  now apply monopole_bound.
Qed.

Lemma eval_source_bounded_witness :
  0 <= Im (RtoC 1) /\
  exists p,
    eval_source [0; 1] [0; 0] [0; 0] [(0, 0, 0)] (RtoC 1) = Ok p /\
    Forall (fun v => Cabs v <= INR 2 * (250 / PI)) p.
Proof.
  assert (H : 0 <= Im (RtoC 1)) by (cbn; lra).
  split; [exact H|].
  exact (eval_source_bounded [0; 1] [0; 0] [0; 0] [(0, 0, 0)] (RtoC 1) H).
Defined.

(** ** More on [normalise_power] *)

(** X7.  On a valid geometry, in a medium and for a target power with
    [rho * c0 * power >= 0], and with a calibration integral that is not
    zero, the amplitude [normalise_power] returns is the non-negative
    square root of [2 rho c0 power / integral], and it follows a
    square-root law: a target power [s^2] times larger gives an amplitude
    [s] times larger. *)
Theorem normalise_power_sqrt_law
    (power rho c0 radius : R) (k1 : C) (focal_length : R) (focus : R * R * R)
    (n_elements : Z) (aperture_radius s : R) (xyz : coords) (p_quad : list C) :
  valid_geometry focal_length radius aperture_radius n_elements ->
  0 <= s ->
  0 <= rho * c0 * power ->
  bowl_transducer (RtoC (np_real k1)) focal_length focus radius n_elements
                  aperture_radius (points_quad focal_length radius) "x"
  = Ok (xyz, p_quad) ->
  quad_integral radius p_quad <> 0 ->
  exists p0,
    normalise_power power rho c0 radius k1 focal_length focus n_elements
                    aperture_radius = Ok p0 /\
    0 <= p0 /\
    p0 ^ 2 = 2 * rho * c0 * power / quad_integral radius p_quad /\
    normalise_power (s ^ 2 * power) rho c0 radius k1 focal_length focus
                    n_elements aperture_radius = Ok (s * p0).
Proof.
  intros _ Hs Hm Hb Hi.
  assert (Hpos : 0 < quad_integral radius p_quad).
  { pose proof (quad_integral_nonneg radius p_quad). lra. }
  set (I := quad_integral radius p_quad) in *.
  assert (Hq : 0 <= 2 * rho * c0 * power / I).
  { unfold Rdiv. apply Rmult_le_pos; [lra|].
    apply Rlt_le, Rinv_0_lt_compat, Hpos. }
  exists (sqrt (2 * rho * c0 * power / I)).
  split; [|split; [|split]].
  - unfold normalise_power. rewrite Hb. reflexivity.
  - apply sqrt_pos.
  - simpl pow. rewrite Rmult_1_r. now apply sqrt_sqrt.
  - unfold normalise_power. rewrite Hb. cbn [mbind outcome_bind]. fold I.
    f_equal.
    replace (2 * rho * c0 * (s ^ 2 * power) / I)
      with ((s * s) * (2 * rho * c0 * power / I)) by (unfold Rdiv; ring).
    rewrite sqrt_mult_alt by nra. now rewrite sqrt_square.
Qed.

Lemma normalise_power_sqrt_law_witness :
  valid_geometry 1 1 0 1 /\ 0 <= 2 /\ 0 <= 998 * 1487 * 11 /\
  exists xyz p_quad p0,
    bowl_transducer (RtoC (np_real (1, 0))) 1 (1, 0, 0) 1 1 0 (points_quad 1 1) "x"
    = Ok (xyz, p_quad) /\
    quad_integral 1 p_quad <> 0 /\
    normalise_power 11 998 1487 1 (1, 0) 1 (1, 0, 0) 1 0 = Ok p0 /\
    0 <= p0 /\
    normalise_power (2 ^ 2 * 11) 998 1487 1 (1, 0) 1 (1, 0, 0) 1 0 = Ok (2 * p0).
Proof.
  assert (Hv : valid_geometry 1 1 0 1) by (unfold valid_geometry; repeat split; lra || lia).
  assert (Hs : 0 <= 2) by lra.
  assert (Hm : 0 <= 998 * 1487 * 11) by lra.
  destruct (normalise_power_unfold 11 998 1487 1 (1, 0) 1 (1, 0, 0) 1 0) as [Hb _].
  cbv zeta in Hb.
  pose proof (one_source_calibration_integral _ _ _ Hb) as Hpos.
  assert (Hi : quad_integral 1
                 (map (Spec.pressure (RtoC (np_real (1, 0)))
                         (area_element (theta_of 0 1) (theta_of 1 1) 1)
                         (sources_of
                            (orient "x" (1, 0, 0)
                               (tx (tile 1 (theta_of 0 1) (theta_of 1 1)
                                      (area_element (theta_of 0 1) (theta_of 1 1) 1)))
                               (ty (tile 1 (theta_of 0 1) (theta_of 1 1)
                                      (area_element (theta_of 0 1) (theta_of 1 1) 1)))
                               (tz (tile 1 (theta_of 0 1) (theta_of 1 1)
                                      (area_element (theta_of 0 1) (theta_of 1 1) 1))))))
                      (points_quad 1 1)) <> 0)
    by (apply Rgt_not_eq, Rlt_gt; exact Hpos).
  destruct (normalise_power_sqrt_law 11 998 1487 1 (1, 0) 1 (1, 0, 0) 1 0 2 _ _
              Hv Hs Hm Hb Hi) as (p0 & Hn & H0 & _ & Hn2).
  split; [exact Hv|]. split; [exact Hs|]. split; [exact Hm|].
  eexists _, _, p0.
  split; [exact Hb|]. split; [exact Hi|]. split; [exact Hn|]. split; [exact H0|exact Hn2].
Defined.

Lemma r_quad_head (radius : R) :
  exists rest, r_quad radius = 0 :: rest.
Proof.
  unfold r_quad, linspace, n_quad. rewrite <- (cons_seq 499 0). cbn [map].
  eexists. f_equal. change (INR 0) with 0. ring.
Qed.

(** X8.  The radial quadrature is never negative, whatever the field and the
    sign of the radius, and the sample on the axis carries no weight: the
    value of the field there does not enter the integral. *)
Theorem quad_integral_weights (radius : R) (v w : C) (p : list C) :
  0 <= quad_integral radius (v :: p) /\
  quad_integral radius (v :: p) = quad_integral radius (w :: p).
Proof.
  split; [apply quad_integral_nonneg|].
  unfold quad_integral, np_mul. destruct (r_quad_head radius) as [rest ->].
  cbn [map zip_with]. rewrite !np_sum_cons. f_equal. f_equal. f_equal. ring.
Qed.

(** ** Attenuation and the wavenumbers of the harmonics *)

(** X9.  The wavenumber the loop computes for index 0 is the fundamental
    wavenumber [k1] of the script; for harmonic [h] the real part is
    [h + 1] times that of [k1] and the attenuation [(h + 1)^eta] times. *)
Theorem harmonic_wavenumber_multiples (pr : params) (h : nat) :
  harmonic_wavenumber pr 0 = Hifu.k1 pr /\
  Re (harmonic_wavenumber pr h) = INR (h + 1) * Re (Hifu.k1 pr) /\
  Im (harmonic_wavenumber pr h) = powerRZ (INR (h + 1)) (eta pr) * Im (Hifu.k1 pr).
Proof.
  assert (E1 : Hifu.k1 pr = (2 * PI * f1 pr / c pr,
                             alpha0 pr * powerRZ (f1 pr * 1e-6) (eta pr))).
  { unfold Hifu.k1, attenuation, Cadd, Cmul, Ci, RtoC, Re, Im. cbn [fst snd].
    f_equal; ring. }
  rewrite !harmonic_wavenumber_parts, E1. cbn [Re Im fst snd]. split; [|split].
  - change (INR (0 + 1)) with 1. f_equal; [unfold Rdiv; ring|].
    now rewrite Rmult_1_l.
  - unfold Re. cbn [fst]. unfold Rdiv. ring.
  - unfold Im. cbn [snd].
    replace (INR (h + 1) * f1 pr * 1e-6) with (INR (h + 1) * (f1 pr * 1e-6)) by ring.
    rewrite powerRZ_mult. ring.
Qed.

(** ** The incident field of the script *)

Lemma zero_near_lookup td (points : list (R * R * R)) (p : list C) (i : nat) pt v :
  points !! i = Some pt -> p !! i = Some v ->
  Hifu.zero_near td points p !! i
  = Some (if Hifu.idx_near td pt then C0 else v).
Proof.
  intros Hp Hv. unfold Hifu.zero_near. apply lookup_zip_with_Some. now exists pt, v.
Qed.

(** X10.  For a valid transducer in a valid medium, with
    [rho * c * power >= 0] and a calibration integral that is not zero (so
    that the amplitude is a finite number), the incident field of the
    script is computed without an exception, has one value per grid
    point, and is zero at every grid point within 0.5 mm of the sphere of
    radius [roc] about the focus; that includes every grid point that
    coincides with a source. *)
Theorem incident_field_zero_near_bowl
    (pr : params) (td : Hifu.transducer) (points : list (R * R * R)) :
  Hifu.valid_medium pr ->
  Hifu.valid_transducer td ->
  0 <= rho pr * c pr * Hifu.power td ->
  (forall xyz p_quad,
      bowl_transducer (RtoC (np_real (Hifu.k1 pr))) (Hifu.roc td) (Hifu.focus td)
                      (Hifu.outer_D td / 2) (Hifu.n_elements td) (Hifu.inner_D td / 2)
                      (points_quad (Hifu.roc td) (Hifu.outer_D td / 2)) "x"
      = Ok (xyz, p_quad) ->
      quad_integral (Hifu.outer_D td / 2) p_quad <> 0) ->
  exists xyz p pinc,
    bowl_transducer (Hifu.k1 pr) (Hifu.roc td) (Hifu.focus td) (Hifu.outer_D td / 2)
                    (Hifu.n_elements td) (Hifu.inner_D td / 2) points "x"
    = Ok (xyz, p) /\
    Hifu.incident_field pr td points = Ok pinc /\
    length pinc = length points /\
    (forall i pt, points !! i = Some pt ->
                  Rabs (Hifu.dist_from_focus td pt - Hifu.roc td) < 5e-4 ->
                  pinc !! i = Some (0, 0)) /\
    (forall i pt, points !! i = Some pt -> In pt (sources_of xyz) ->
                  pinc !! i = Some (0, 0)).
Proof.
  intros _ Hv _ _. destruct Hv as (Hroc & _).
  destruct (normalise_power_unfold (Hifu.power td) (rho pr) (c pr)
              (Hifu.outer_D td / 2) (Hifu.k1 pr) (Hifu.roc td) (Hifu.focus td)
              (Hifu.n_elements td) (Hifu.inner_D td / 2)) as [_ Hn].
  cbv zeta in Hn.
  pose proof (bowl_transducer_field (Hifu.k1 pr) (Hifu.roc td) (Hifu.focus td)
                (Hifu.outer_D td / 2) (Hifu.n_elements td) (Hifu.inner_D td / 2)
                points "x" eq_refl) as Hb.
  cbv zeta in Hb.
  eexists _, _, _. split; [exact Hb|].
  assert (Hnear : forall (p : list C) (p0 : R) i pt,
             length p = length points ->
             points !! i = Some pt ->
             Rabs (Hifu.dist_from_focus td pt - Hifu.roc td) < 5e-4 ->
             map (Cscal p0) (Hifu.zero_near td points p) !! i = Some (0, 0)).
  { intros p p0 i pt Hlen Hpt Hd.
    destruct (lookup_lt_is_Some_2 p i) as [v Hv].
    { rewrite Hlen. eapply lookup_lt_is_Some_1. eauto. }
    rewrite list_lookup_fmap, (zero_near_lookup td points p i pt v Hpt Hv).
    unfold Hifu.idx_near. destruct (Rlt_dec _ 5e-4); [|contradiction].
    cbn. unfold Cscal, C0, RtoC, Re, Im. cbn [fst snd]. do 2 f_equal; ring. }
  split; [|split; [|split]].
  - unfold Hifu.incident_field. rewrite Hb. cbn [mbind outcome_bind].
    rewrite Hn. reflexivity.
  - unfold Hifu.zero_near. rewrite length_map, length_zip_with, length_map. lia.
  - intros i pt Hpt Hd. apply (Hnear _ _ i pt); [apply length_map|assumption..].
  - intros i pt Hpt Hin. apply (Hnear _ _ i pt); [apply length_map|assumption|].
    pose proof (bowl_sources_x_on_sphere (Hifu.roc td) (Hifu.focus td)
                  (theta_of (Hifu.inner_D td / 2) (Hifu.roc td))
                  (theta_of (Hifu.outer_D td / 2) (Hifu.roc td))
                  (area_element (theta_of (Hifu.inner_D td / 2) (Hifu.roc td))
                                (theta_of (Hifu.outer_D td / 2) (Hifu.roc td))
                                (Hifu.n_elements td))) as HF.
    cbv zeta in HF. rewrite Forall_forall in HF.
    apply list_elem_of_In in Hin. specialize (HF pt Hin).
    assert (E : Hifu.dist_from_focus td pt = Spec.dist pt ((Hifu.focus td).1.1, 0, 0)).
    { unfold Hifu.dist_from_focus, Spec.dist. cbn [fst snd]. f_equal. ring. }
    rewrite E, HF, (Rabs_right (Hifu.roc td)) by lra.
    rewrite Rminus_diag, Rabs_R0. lra.
Qed.

Lemma incident_field_zero_near_bowl_witness :
  Hifu.valid_medium demo_params /\
  Hifu.valid_transducer Hifu.one_source_transducer /\
  0 <= rho demo_params * c demo_params * Hifu.power Hifu.one_source_transducer /\
  [(0, 0, 0)] !! 0%nat = Some (0, 0, 0) /\
  Rabs (Hifu.dist_from_focus Hifu.one_source_transducer (0, 0, 0)
        - Hifu.roc Hifu.one_source_transducer) < 5e-4 /\
  exists pinc,
    Hifu.incident_field demo_params Hifu.one_source_transducer [(0, 0, 0)] = Ok pinc /\
    length pinc = 1%nat /\
    pinc !! 0%nat = Some (0, 0).
Proof.
  pose proof demo_params_valid as Hm.
  pose proof one_source_transducer_valid as Hv.
  assert (Hp : 0 <= rho demo_params * c demo_params * Hifu.power Hifu.one_source_transducer)
    by (cbv [demo_params rho c Hifu.power Hifu.one_source_transducer]; lra).
  assert (Hpt : [(0, 0, 0)] !! 0%nat = Some (0, 0, 0)) by reflexivity.
  assert (Hd : Rabs (Hifu.dist_from_focus Hifu.one_source_transducer (0, 0, 0)
                     - Hifu.roc Hifu.one_source_transducer) < 5e-4).
  { unfold Hifu.dist_from_focus, Hifu.focus, Hifu.one_source_transducer.
    cbn [Hifu.roc fst snd].
    replace ((0 - 1) ^ 2 + 0 ^ 2 + 0 ^ 2) with 1 by ring.
    rewrite sqrt_1, Rminus_diag, Rabs_R0. lra. }
  destruct (incident_field_zero_near_bowl demo_params Hifu.one_source_transducer
              [(0, 0, 0)] Hm Hv Hp (one_source_transducer_integral demo_params))
    as (xyz & p & pinc & _ & Hi & Hl & Hnear & _).
  split; [exact Hm|]. split; [exact Hv|]. split; [exact Hp|].
  split; [exact Hpt|]. split; [exact Hd|].
  exists pinc. split; [exact Hi|]. split; [exact Hl|].
  exact (Hnear 0%nat (0, 0, 0) Hpt Hd).
Defined.

(** ** More on the cascade *)

Section CascadeRuns.
Context `{ops : VinesOperators}.
Variables (pr : params) (r : grid) (L M N : nat).

(** X11.  Asking for no harmonic at all fails on the assignment of the
    fundamental to row 0 of an empty stack; asking for one returns the
    fundamental alone and builds no operator. *)
Theorem cascade_edge_counts (p : field) :
  cascade pr r L M N 0 p = Raise IndexError /\
  cascade pr r L M N 1 p = Ok (mk_vars _ [p] None None None None).
Proof. split; reflexivity. Qed.

Lemma cascade_one (p : field) :
  cascade pr r L M N 1 p = Ok (mk_vars _ [p] None None None None).
Proof. reflexivity. Qed.

Lemma cascade_row0 (n : nat) (p : field) :
  (1 <= n)%nat ->
  exists st,
    cascade pr r L M N n p = Ok st /\
    length (P st) = n /\
    P st !! 0%nat = Some p.
Proof.
  intros Hn.
  destruct (cascade_prefix pr r L M N 1 n p ltac:(lia) Hn)
    as (st1 & st & E1 & E & _ & Hl & Hag).
  rewrite cascade_one in E1. injection E1 as <-.
  exists st. split; [exact E|]. split; [exact Hl|].
  etransitivity; [symmetry; exact (Hag 0%nat ltac:(lia))|]. reflexivity.
Qed.

(** X12.  For every positive harmonic count the cascade returns a stack of that
    many rows whose row 0 is still the fundamental it was given. *)
Theorem cascade_keeps_fundamental (n : nat) (p : field) :
  (1 <= n)%nat ->
  exists st,
    cascade pr r L M N n p = Ok st /\
    length (P st) = n /\
    P st !! 0%nat = Some p.
Proof. apply cascade_row0. Qed.

Lemma cascade_two (p : field) :
  cascade pr r L M N 2 p
  = Ok (mk_vars _
          [p; mvp_volume_potential
                (fscal (-2 * beta pr * omega pr ^ 2 / (rho pr * c pr ^ 4)) (fmul p p))
                (circulant_embed_fftw (volume_potential (harmonic_wavenumber pr 1) r) L M N)
                (idx L M N) (Mr L M N)]
          (Some (harmonic_wavenumber pr 1))
          (Some (volume_potential (harmonic_wavenumber pr 1) r))
          (Some (circulant_embed_fftw (volume_potential (harmonic_wavenumber pr 1) r) L M N))
          (Some (fscal (-2 * beta pr * omega pr ^ 2 / (rho pr * c pr ^ 4)) (fmul p p)))).
Proof.
  unfold cascade. rewrite initial_stack_ok by lia. cbn [mbind outcome_bind].
  change (seq 1 (2 - 1)) with [1%nat]. cbn [foldlM].
  set (u := fscal _ (fmul p p)).
  rewrite (harmonic_step_unfold pr r L M N _ 1 u).
  - reflexivity.
  - cbn [P xIn]. unfold build_forcing, getitem. cbn. unfold u. now rewrite fmul_fscal_l.
  - cbn [P]. rewrite length_insert, length_replicate. lia.
Qed.

(** X13.  Whenever at least two harmonics are asked for, the second harmonic is
    the volume-potential operator, built at the wavenumber of index 1,
    applied to [-2 beta omega^2 / (rho c^4)] times the square of the
    fundamental. *)
Theorem cascade_second_harmonic (n : nat) (p : field) :
  (2 <= n)%nat ->
  exists st,
    cascade pr r L M N n p = Ok st /\
    P st !! 1%nat
    = Some (mvp_volume_potential
              (fscal (-2 * beta pr * omega pr ^ 2 / (rho pr * c pr ^ 4)) (fmul p p))
              (circulant_embed_fftw (volume_potential (harmonic_wavenumber pr 1) r) L M N)
              (replicate (L * M * N) true) (replicate (L * M * N) (1, 0))).
Proof.
  intros Hn.
  destruct (cascade_prefix pr r L M N 2 n p ltac:(lia) Hn)
    as (st2 & st & E2 & E & _ & _ & Hag).
  rewrite cascade_two in E2. injection E2 as <-.
  exists st. split; [exact E|].
  etransitivity; [symmetry; apply (Hag 1%nat); lia|]. reflexivity.
Qed.

Lemma build_forcing_stale (h : nat) (Pst : list field) (u : field) :
  (5 <= h)%nat -> build_forcing pr h Pst (Some u) = Ok u.
Proof.
  intros Hh. unfold build_forcing.
  destruct (Nat.eqb_spec h 1); [lia|]. destruct (Nat.eqb_spec h 2); [lia|].
  destruct (Nat.eqb_spec h 3); [lia|]. destruct (Nat.eqb_spec h 4); [lia|].
  reflexivity.
Qed.

(** From the sixth harmonic on, every iteration reuses the forcing it
    finds in [xIn]. *)
Lemma run_stale (k s : nat) (st : cascade_vars) (u : field) :
  (5 <= s)%nat -> xIn st = Some u -> (s + k <= length (P st))%nat ->
  exists st',
    foldlM (harmonic_step pr r L M N) (seq s k) st = Ok st' /\
    (forall h, (s <= h < s + k)%nat ->
       P st' !! h
       = Some (mvp_volume_potential u
                 (circulant_embed_fftw (volume_potential (harmonic_wavenumber pr h) r)
                    L M N)
                 (idx L M N) (Mr L M N))) /\
    agree s (P st) (P st').
Proof.
  revert s st. induction k as [|k IH]; intros s st Hs Hx Hlen.
  - exists st. split; [reflexivity|]. split; [intros h Hh; lia|]. intros j _. reflexivity.
  - cbn [seq foldlM].
    assert (Hu : build_forcing pr s (P st) (xIn st) = Ok u)
      by (rewrite Hx; now apply build_forcing_stale).
    rewrite (harmonic_step_unfold pr r L M N st s u Hu) by lia.
    cbn [mbind outcome_bind].
    match goal with
    | |- exists _, foldlM _ _ ?a = _ /\ _ =>
        destruct (IH (S s) a) as (st' & E & Hrows & Hag)
    end; cbn [P xIn]; rewrite ?length_insert; try lia; try reflexivity.
    cbn [P] in Hag. exists st'. split; [exact E|]. split.
    + intros h Hh. destruct (decide (h = s)) as [->|Hne].
      * etransitivity; [symmetry; exact (Hag s ltac:(lia))|]. now rewrite list_lookup_insert_eq by lia.
      * apply Hrows. lia.
    + intros j Hj. etransitivity; [|exact (Hag j ltac:(lia))].
      symmetry. apply list_lookup_insert_ne. lia.
Qed.

(** X14.  When five or more harmonics are asked for, no branch of the
    [if]/[elif] chain matches from index 5 on: every later harmonic is the
    operator at its own wavenumber applied to the forcing of the fifth
    harmonic (index 4), which [xIn] still holds. *)
Theorem cascade_forcing_reused_past_fifth (n : nat) (p : field) :
  (5 <= n)%nat ->
  exists st u,
    cascade pr r L M N n p = Ok st /\
    build_forcing pr 4 (P st) None = Ok u /\
    forall h, (4 <= h < n)%nat ->
      P st !! h
      = Some (mvp_volume_potential u
                (circulant_embed_fftw (volume_potential (harmonic_wavenumber pr h) r)
                   L M N)
                (replicate (L * M * N) true) (replicate (L * M * N) (1, 0))).
Proof.
  intros Hn. unfold cascade. rewrite initial_stack_ok by lia.
  cbn [mbind outcome_bind].
  replace (n - 1)%nat with (3 + (1 + (n - 5)))%nat by lia.
  rewrite seq_app, foldlM_app. change (1 + 3)%nat with 4%nat.
  set (st0 := mk_vars _ _ None None None None).
  destruct (run_ok pr r L M N 3 1 st0) as (st3 & E3 & L3 & X3);
    [lia | cbn [P st0]; rewrite length_insert, length_replicate; lia | intros; lia |].
  cbn [P st0] in L3. rewrite length_insert, length_replicate in L3.
  rewrite E3. cbn [mbind outcome_bind].
  rewrite seq_app, foldlM_app. change (seq 4 1) with [4%nat]. cbn [foldlM].
  destruct (build_forcing_ok pr 4 (P st3) (xIn st3)) as [u Hu]; [lia|lia|intros; lia|].
  rewrite (harmonic_step_unfold pr r L M N st3 4 u Hu) by lia.
  cbn [mbind outcome_bind]. change (4 + 1)%nat with 5%nat.
  match goal with
  | |- exists _ _, foldlM _ _ ?a = _ /\ _ =>
      destruct (run_stale (n - 5) 5 a u) as (st & E & Hrows & Hag)
  end; cbn [P xIn]; rewrite ?length_insert; try lia; try reflexivity.
  cbn [P] in Hag. exists st, u. split; [exact E|]. split.
  - rewrite <- Hu. change (build_forcing pr 4 (P st3) (xIn st3))
      with (build_forcing pr 4 (P st3) None).
    apply (build_forcing_agree pr 4 (P st) (P st3)).
    intros j Hj. etransitivity; [symmetry; exact (Hag j ltac:(lia))|].
    now rewrite list_lookup_insert_ne by lia.
  - intros h Hh. destruct (decide (h = 4%nat)) as [->|Hne].
    + etransitivity; [symmetry; exact (Hag 4%nat ltac:(lia))|]. now rewrite list_lookup_insert_eq by lia.
    + apply Hrows. lia.
Qed.

End CascadeRuns.

(** ** Where the second-harmonic forcing vanishes *)

Lemma Csquare_zero (a : R) (z : C) :
  a <> 0 -> (Cmul (Cscal a z) z = (0, 0) <-> z = (0, 0)).
Proof.
  intros Ha. destruct z as [x y]. unfold Cmul, Cscal, Re, Im. cbn [fst snd]. split.
  - intros E. injection E as E1 E2.
    assert (H1 : a * (x * x - y * y) = 0) by (rewrite <- E1; ring).
    assert (H2 : a * (2 * (x * y)) = 0) by (rewrite <- E2; ring).
    apply Rmult_integral in H1 as [|H1]; [contradiction|].
    apply Rmult_integral in H2 as [|H2]; [contradiction|].
    assert (Hxy : x * y = 0) by lra.
    apply Rmult_integral in Hxy as [-> | ->].
    + assert (Hy : y * y = 0) by lra. apply Rmult_integral in Hy as [-> | ->]; reflexivity.
    + assert (Hx : x * x = 0) by lra. apply Rmult_integral in Hx as [-> | ->]; reflexivity.
  - intros E. injection E as -> ->. f_equal; ring.
Qed.

(** X15.  With a non-zero coefficient ([beta], [f1], [rho] and [c] all non-zero)
    the forcing of the second harmonic has one value per value of the
    fundamental, and it is zero exactly where the fundamental is zero. *)
Theorem second_harmonic_forcing_support
    (pr : params) (Pst : list field) (x : option field) (P0 : field) :
  beta pr <> 0 -> f1 pr <> 0 -> rho pr <> 0 -> c pr <> 0 ->
  Pst !! 0%nat = Some P0 ->
  exists u,
    build_forcing pr 1 Pst x = Ok u /\
    length u = length P0 /\
    forall i z, P0 !! i = Some z ->
      exists w, u !! i = Some w /\ (w = (0, 0) <-> z = (0, 0)).
Proof.
  intros Hb Hf Hr Hc HP.
  set (q := -2 * beta pr * omega pr ^ 2 / (rho pr * c pr ^ 4)).
  assert (Hq : q <> 0).
  { pose proof PI_RGT_0.
    assert (Hw : omega pr <> 0)
      by (unfold omega; apply Rmult_integral_contrapositive_currified; lra).
    assert (Hw2 : omega pr ^ 2 <> 0) by now apply pow_nonzero.
    assert (Hc4 : c pr ^ 4 <> 0) by now apply pow_nonzero.
    assert (Hden : / (rho pr * c pr ^ 4) <> 0)
      by (apply Rinv_neq_0_compat; now apply Rmult_integral_contrapositive_currified).
    unfold q, Rdiv.
    apply Rmult_integral_contrapositive_currified; [|exact Hden].
    apply Rmult_integral_contrapositive_currified; [|exact Hw2].
    apply Rmult_integral_contrapositive_currified; [lra|exact Hb]. }
  exists (fmul (fscal q P0) P0). split; [|split].
  - unfold build_forcing, getitem. cbn [Nat.eqb]. rewrite HP. reflexivity.
  - unfold fmul, fscal. rewrite length_zip_with, length_map. lia.
  - intros i z Hz. exists (Cmul (Cscal q z) z). split.
    + unfold fmul, fscal. apply lookup_zip_with_Some. exists (Cscal q z), z.
      split; [reflexivity|]. split; [|exact Hz].
      change (map (Cscal q) P0) with (Cscal q <$> P0).
      rewrite list_lookup_fmap. change (Some (Cscal q z)) with (Cscal q <$> Some z).
      f_equal. exact Hz.
    + now apply Csquare_zero.
Qed.

Lemma second_harmonic_forcing_support_witness :
  (beta demo_params <> 0 /\ f1 demo_params <> 0 /\ rho demo_params <> 0
   /\ c demo_params <> 0) /\
  exists u,
    build_forcing demo_params 1 [[(1, 0); (0, 0)]] None = Ok u /\
    length u = 2%nat.
Proof.
  assert (H : beta demo_params <> 0 /\ f1 demo_params <> 0 /\ rho demo_params <> 0
              /\ c demo_params <> 0)
    by (cbv [demo_params beta f1 rho c]; repeat split; lra).
  split; [exact H|]. destruct H as (H1 & H2 & H3 & H4).
  destruct (second_harmonic_forcing_support demo_params [[(1, 0); (0, 0)]] None
              [(1, 0); (0, 0)] H1 H2 H3 H4 eq_refl) as (u & Hu & Hl & _).
  exists u. split; assumption.
Defined.

(** ** The script as a whole *)

(** X16.  For a positive harmonic count, a valid transducer in a valid
    medium, a finite amplitude ([rho * c * power >= 0] and a calibration
    integral that is not zero) and a grid of [L * M * N] points, the
    script runs to its end without an exception: it returns a stack of
    [n_harm] rows whose row 0 is the incident field, one value per grid
    point. *)
Theorem hifu_run_returns `{ops : VinesOperators}
    (pr : params) (td : Hifu.transducer) (r : grid) (L M N : nat)
    (points : list (R * R * R)) (n_harm : nat) :
  (1 <= n_harm)%nat ->
  Hifu.valid_medium pr ->
  Hifu.valid_transducer td ->
  length points = (L * M * N)%nat ->
  0 <= rho pr * c pr * Hifu.power td ->
  (forall xyz p_quad,
      bowl_transducer (RtoC (np_real (Hifu.k1 pr))) (Hifu.roc td) (Hifu.focus td)
                      (Hifu.outer_D td / 2) (Hifu.n_elements td) (Hifu.inner_D td / 2)
                      (points_quad (Hifu.roc td) (Hifu.outer_D td / 2)) "x"
      = Ok (xyz, p_quad) ->
      quad_integral (Hifu.outer_D td / 2) p_quad <> 0) ->
  exists pinc st,
    Hifu.incident_field pr td points = Ok pinc /\
    Hifu.run pr td r L M N points n_harm = Ok st /\
    length pinc = (L * M * N)%nat /\
    length (P st) = n_harm /\
    P st !! 0%nat = Some pinc.
Proof.
  intros Hn _ _ Hpts _ _.
  destruct (normalise_power_unfold (Hifu.power td) (rho pr) (c pr)
              (Hifu.outer_D td / 2) (Hifu.k1 pr) (Hifu.roc td) (Hifu.focus td)
              (Hifu.n_elements td) (Hifu.inner_D td / 2)) as [_ Hnp].
  cbv zeta in Hnp.
  pose proof (bowl_transducer_field (Hifu.k1 pr) (Hifu.roc td) (Hifu.focus td)
                (Hifu.outer_D td / 2) (Hifu.n_elements td) (Hifu.inner_D td / 2)
                points "x" eq_refl) as Hb.
  cbv zeta in Hb.
  assert (Hinc : exists pinc, Hifu.incident_field pr td points = Ok pinc
                              /\ length pinc = length points).
  { eexists. split.
    - unfold Hifu.incident_field. rewrite Hb. cbn [mbind outcome_bind].
      rewrite Hnp. reflexivity.
    - unfold Hifu.zero_near. rewrite length_map, length_zip_with, length_map. lia. }
  destruct Hinc as (pinc & Hi & Hl).
  destruct (cascade_row0 pr r L M N n_harm pinc Hn) as (st & Hc & Hlen & H0).
  exists pinc, st. unfold Hifu.run. rewrite Hi. cbn [mbind outcome_bind].
  repeat split; try assumption. lia.
Qed.

Lemma hifu_run_returns_witness :
  (1 <= demo_n_harm)%nat /\
  Hifu.valid_medium demo_params /\
  Hifu.valid_transducer Hifu.one_source_transducer /\
  length [(0.5, 0, 0)] = (1 * 1 * 1)%nat /\
  0 <= rho demo_params * c demo_params * Hifu.power Hifu.one_source_transducer /\
  exists pinc st,
    Hifu.incident_field demo_params Hifu.one_source_transducer [(0.5, 0, 0)] = Ok pinc /\
    @Hifu.run scalar_ops demo_params Hifu.one_source_transducer tt 1 1 1 [(0.5, 0, 0)]
              demo_n_harm = Ok st /\
    length pinc = (1 * 1 * 1)%nat /\
    length (P st) = demo_n_harm /\
    P st !! 0%nat = Some pinc.
Proof.
  assert (H : (1 <= demo_n_harm)%nat) by (unfold demo_n_harm; lia).
  pose proof demo_params_valid as Hm.
  pose proof one_source_transducer_valid as Hv.
  assert (Hl : length [(0.5, 0, 0)] = (1 * 1 * 1)%nat) by reflexivity.
  assert (Hp : 0 <= rho demo_params * c demo_params * Hifu.power Hifu.one_source_transducer)
    by (cbv [demo_params rho c Hifu.power Hifu.one_source_transducer]; lra).
  split; [exact H|]. split; [exact Hm|]. split; [exact Hv|]. split; [exact Hl|].
  split; [exact Hp|].
  exact (@hifu_run_returns scalar_ops demo_params Hifu.one_source_transducer tt 1 1 1
           [(0.5, 0, 0)] demo_n_harm H Hm Hv Hl Hp
           (one_source_transducer_integral demo_params)).
Defined.

(** ** Central slices *)

Lemma np_round_spec (x : R) :
  exists n : Z, np_round x = IZR n /\ x - 1 / 2 <= IZR n <= x + 1 / 2 /\
                (IZR n = x + 1 / 2 -> Z.even n = true).
Proof.
  unfold np_round, frac_part.
  destruct (base_Int_part x) as [B1 B2].
  set (f := Int_part x) in *.
  destruct (Rlt_dec (x - IZR f) (1 / 2)) as [Hlt|Hge].
  - exists f. split; [reflexivity|]. split; [lra|]. intros E. lra.
  - destruct (Rlt_dec (1 / 2) (x - IZR f)) as [Hgt|Hle].
    + exists (f + 1)%Z. split; [reflexivity|]. rewrite plus_IZR. split; [lra|].
      intros E. lra.
    + destruct (Z.even f) eqn:Ev.
      * exists f. split; [reflexivity|]. split; [lra|]. intros E. lra.
      * exists (f + 1)%Z. split; [reflexivity|]. rewrite plus_IZR. split; [lra|].
        intros _. rewrite Z.even_add, Ev. reflexivity.
Qed.

(** X17.  The index [np.int(np.round(N / 2))] of the central slice is a valid
    index into an axis of length [N >= 1]; for [N = 1] this rests on
    [np.round] rounding the tie 0.5 to the even 0. *)
Theorem sphere_centre_index_in_range (N : nat) :
  (1 <= N)%nat ->
  (0 <= Sphere.centre_index N < Z.of_nat N)%Z /\ Sphere.centre_index 1 = 0%Z.
Proof.
  intros HN. unfold Sphere.centre_index.
  assert (H1 : np_int (np_round (INR 1 / 2)) = 0%Z).
  { destruct np_round_ties as [E _]. change (INR 1) with 1. rewrite E. apply (np_int_IZR 0). }
  split; [|exact H1].
  destruct (decide (N = 1%nat)) as [->|Hne]; [rewrite H1; lia|].
  destruct (np_round_spec (INR N / 2)) as (n & E & [B1 B2] & _).
  rewrite E, np_int_IZR.
  assert (HN2 : 2 <= INR N) by (apply (le_INR 2); lia).
  rewrite INR_IZR_INZ in *.
  split.
  - apply le_IZR. lra.
  - apply lt_IZR. lra.
Qed.

Lemma sphere_centre_index_in_range_witness :
  (1 <= 3)%nat /\ (0 <= Sphere.centre_index 3 < Z.of_nat 3)%Z.
Proof.
  assert (H : (1 <= 3)%nat) by lia.
  split; [exact H|]. exact (proj1 (sphere_centre_index_in_range 3 H)).
Defined.

(** X18.  The index [np.int(np.floor(n / 2))] of the central slices is the
    integer quotient of [n] by 2, a valid index into an axis of length
    [n >= 1]. *)
Theorem hifu_centre_index_in_range (n : nat) :
  Hifu.centre_index n = Z.of_nat (n / 2) /\
  ((1 <= n)%nat -> (0 <= Hifu.centre_index n < Z.of_nat n)%Z).
Proof.
  assert (E : Hifu.centre_index n = Z.of_nat (n / 2)).
  { unfold Hifu.centre_index, np_floor. rewrite np_int_IZR.
    symmetry. apply Int_part_spec.
    pose proof (Nat.div_mod_eq n 2) as Hdm.
    pose proof (Nat.mod_upper_bound n 2 ltac:(lia)) as Hm.
    assert (Hn : INR n = 2 * INR (n / 2) + INR (n mod 2)).
    { rewrite Hdm at 1. rewrite plus_INR, mult_INR. change (INR 2) with 2. ring. }
    assert (H0 : 0 <= INR (n mod 2)) by apply pos_INR.
    assert (H1 : INR (n mod 2) <= 1) by (apply (le_INR _ 1); lia).
    rewrite <- INR_IZR_INZ. lra. }
  split; [exact E|]. intros Hn. rewrite E.
  pose proof (Nat.div_lt n 2 ltac:(lia) ltac:(lia)). lia.
Qed.

Lemma hifu_centre_index_in_range_witness :
  (1 <= 7)%nat /\ (0 <= Hifu.centre_index 7 < Z.of_nat 7)%Z.
Proof.
  assert (H : (1 <= 7)%nat) by lia.
  split; [exact H|]. exact (proj2 (hifu_centre_index_in_range 7) H).
Defined.

(** ** The contrast fields of the sphere script *)

Lemma masked_fill_lookup {A : Type} (idx : list bool) (v : A) (arr : list A)
    (i : nat) (b : bool) (old : A) :
  idx !! i = Some b -> arr !! i = Some old ->
  Sphere.masked_fill idx v arr !! i = Some (if b then v else old).
Proof.
  intros Hb Ho. unfold Sphere.masked_fill. apply lookup_zip_with_Some.
  now exists b, old.
Qed.

Lemma masked_fill_replicate {A : Type} (idx : list bool) (v w : A) (i : nat) (b : bool) :
  idx !! i = Some b ->
  Sphere.masked_fill idx v (replicate (length idx) w) !! i = Some (if b then v else w).
Proof.
  intros Hb. apply masked_fill_lookup; [exact Hb|].
  apply lookup_replicate_2. eapply lookup_lt_is_Some_1. eauto.
Qed.

(** X19.  A zero interior density makes the set-up of the contrast fields fail
    with a division by zero, whatever the mask; otherwise it returns. *)
Theorem contrast_fields_zero_density (idx : list bool) (refInd : C) (rho0 rho1 : R) :
  (rho1 = 0 -> Sphere.contrast_fields idx refInd rho0 rho1 = Raise ZeroDivisionError) /\
  (rho1 <> 0 -> exists cf, Sphere.contrast_fields idx refInd rho0 rho1 = Ok cf).
Proof.
  unfold Sphere.contrast_fields, Sphere.py_div. split; intros H.
  - destruct (Req_dec_T rho1 0); [reflexivity|contradiction].
  - destruct (Req_dec_T rho1 0); [contradiction|]. eexists. reflexivity.
Qed.

(** X20.  For a non-zero interior density the four fields are defined voxel by
    voxel by the mask: inside, the index contrast [refInd^2 - 1], the
    density contrast [rho0/rho1 - 1], the ratio [rho0/rho1] and the density
    [rho1]; outside, 0, 0, 1 and [rho0].  No voxel of [RHO] keeps the
    initial 1, and equal densities switch the density terms off. *)
Theorem contrast_fields_by_mask (idx : list bool) (refInd : C) (rho0 rho1 : R) :
  rho1 <> 0 ->
  exists cf,
    Sphere.contrast_fields idx refInd rho0 rho1 = Ok cf /\
    (forall (i : nat) (b : bool), idx !! i = Some b ->
       Sphere.Mr cf !! i
       = Some (if b then Cadd (Cmul refInd refInd) (RtoC (- 1)) else (0, 0)) /\
       Sphere.Dr cf !! i = Some (if b then (rho0 / rho1 - 1, 0) else (0, 0) : C) /\
       Sphere.rho_ratio cf !! i = Some (if b then (rho0 / rho1, 0) else (1, 0) : C) /\
       Sphere.RHO cf !! i = Some (if b then (rho1, 0) else (rho0, 0) : C)) /\
    (rho0 = rho1 ->
     forall i, (i < length idx)%nat ->
       Sphere.Dr cf !! i = Some ((0, 0) : C) /\
       Sphere.rho_ratio cf !! i = Some ((1, 0) : C)).
Proof.
  intros Hr. unfold Sphere.contrast_fields, Sphere.py_div.
  destruct (Req_dec_T rho1 0); [contradiction|]. cbn [mbind outcome_bind].
  eexists. split; [reflexivity|]. cbn [Sphere.Mr Sphere.Dr Sphere.rho_ratio Sphere.RHO].
  assert (Hpt : forall (i : nat) (b : bool), idx !! i = Some b ->
     Sphere.masked_fill idx (Cadd (Cmul refInd refInd) (RtoC (- 1)))
       (replicate (length idx) C0) !! i
     = Some (if b then Cadd (Cmul refInd refInd) (RtoC (- 1)) else (0, 0)) /\
     Sphere.masked_fill idx (RtoC (rho0 / rho1 - 1)) (replicate (length idx) C0) !! i
     = Some (if b then (rho0 / rho1 - 1, 0) else (0, 0) : C) /\
     Sphere.masked_fill idx (RtoC (rho0 / rho1)) (replicate (length idx) (RtoC 1)) !! i
     = Some (if b then (rho0 / rho1, 0) else (1, 0) : C) /\
     Sphere.masked_fill (map negb idx) (RtoC rho0)
       (Sphere.masked_fill idx (RtoC rho1) (replicate (length idx) (RtoC 1))) !! i
     = Some (if b then (rho1, 0) else (rho0, 0) : C)).
  { intros i b Hb. repeat split.
    - now rewrite (masked_fill_replicate idx _ C0 i b Hb).
    - rewrite (masked_fill_replicate idx _ C0 i b Hb). now destruct b.
    - rewrite (masked_fill_replicate idx _ (RtoC 1) i b Hb). now destruct b.
    - rewrite (masked_fill_lookup (map negb idx) (RtoC rho0) _ i (negb b)
                 (if b then RtoC rho1 else RtoC 1)).
      + now destruct b.
      + change (map negb idx) with (negb <$> idx). now rewrite list_lookup_fmap, Hb.
      + now apply masked_fill_replicate. }
  split; [exact Hpt|].
  intros -> i Hi. destruct (lookup_lt_is_Some_2 idx i Hi) as [b Hb].
  destruct (Hpt i b Hb) as (_ & HD & HR & _).
  assert (E1 : rho1 / rho1 = 1) by (field; exact Hr).
  split; (etransitivity; [eassumption|]); rewrite E1; destruct b; try reflexivity.
  do 2 f_equal. ring.
Qed.

Lemma contrast_fields_by_mask_witness :
  1 <> 0 /\
  exists cf,
    Sphere.contrast_fields [true; false] (1.2, 0) 1 1 = Ok cf /\
    Sphere.RHO cf !! 1%nat = Some ((1, 0) : C).
Proof.
  assert (H : 1 <> 0) by lra.
  split; [exact H|].
  destruct (contrast_fields_by_mask [true; false] (1.2, 0) 1 1 H) as (cf & E & Hpt & _).
  exists cf. split; [exact E|].
  exact (proj2 (proj2 (proj2 (Hpt 1%nat false eq_refl)))).
Defined.

Lemma contrast_fields_zero_density_witness :
  0 = 0 /\ Sphere.contrast_fields [true; false] (1.2, 0) 1 0 = Raise ZeroDivisionError.
Proof.
  split; [reflexivity|].
  exact (proj1 (contrast_fields_zero_density [true; false] (1.2, 0) 1 0) eq_refl).
Defined.

(** ** An axis that is not recognised *)

(** X21.  On a valid geometry whose tiling has at least one source, an
    axis string other than ['x'], ['z'] and the empty string makes the
    call fail: the coordinates are still Python lists when they reach
    [eval_source], which is compiled for arrays. *)
Theorem unrecognised_axis_raises
    (k : C) (focal_length : R) (focus : R * R * R) (radius : R)
    (n_elements : Z) (aperture_radius : R) (points : points3) (axis : string) :
  valid_geometry focal_length radius aperture_radius n_elements ->
  (1 <= n_count (tile focal_length (theta_of aperture_radius focal_length)
                      (theta_of radius focal_length)
                      (area_element (theta_of aperture_radius focal_length)
                                    (theta_of radius focal_length) n_elements)))%Z ->
  axis <> "x"%string -> axis <> "z"%string -> axis <> EmptyString ->
  bowl_transducer k focal_length focus radius n_elements aperture_radius points axis
  = Raise TypingError.
Proof.
  intros _ _ Hx Hz He. apply bowl_transducer_unrecognised. unfold recognised.
  now rewrite (str_in_single_false axis "z" He Hz), (str_in_single_false axis "x" He Hx).
Qed.

Lemma unrecognised_axis_raises_witness :
  valid_geometry 1 1 0 1 /\
  (1 <= n_count (tile 1 (theta_of 0 1) (theta_of 1 1)
                      (area_element (theta_of 0 1) (theta_of 1 1) 1)))%Z /\
  ("y"%string <> "x"%string /\ "y"%string <> "z"%string /\ "y"%string <> EmptyString) /\
  bowl_transducer (RtoC 1) 1 (1, 0, 0) 1 1 0 [(1, 0, 0)] "y" = Raise TypingError.
Proof.
  assert (Hv : valid_geometry 1 1 0 1) by (unfold valid_geometry; repeat split; lra || lia).
  assert (Hn : (1 <= n_count (tile 1 (theta_of 0 1) (theta_of 1 1)
                                (area_element (theta_of 0 1) (theta_of 1 1) 1)))%Z).
  { rewrite theta_of_0_1, theta_of_1_1, area_element_hemisphere, tile_hemisphere.
    cbn [n_count]. lia. }
  assert (H : "y"%string <> "x"%string /\ "y"%string <> "z"%string
              /\ "y"%string <> EmptyString) by (repeat split; discriminate).
  split; [exact Hv|]. split; [exact Hn|].
  split; [exact H|]. destruct H as (Hx & Hz & He).
  exact (unrecognised_axis_raises (RtoC 1) 1 (1, 0, 0) 1 1 0 [(1, 0, 0)] "y"
           Hv Hn Hx Hz He).
Defined.

Lemma cascade_keeps_fundamental_witness :
  (1 <= 3)%nat /\
  exists st,
    @cascade scalar_ops demo_params tt 1 1 1 3 [(1, 0)] = Ok st /\
    length (P st) = 3%nat /\ P st !! 0%nat = Some [(1, 0)].
Proof.
  assert (H : (1 <= 3)%nat) by lia.
  split; [exact H|].
  exact (@cascade_keeps_fundamental scalar_ops demo_params tt 1 1 1 3 [(1, 0)] H).
Defined.

Lemma cascade_second_harmonic_witness :
  (2 <= demo_n_harm)%nat /\
  exists st, @cascade scalar_ops demo_params tt 1 1 1 demo_n_harm [(1, 0)] = Ok st.
Proof.
  assert (H : (2 <= demo_n_harm)%nat) by (unfold demo_n_harm; lia).
  split; [exact H|].
  destruct (@cascade_second_harmonic scalar_ops demo_params tt 1 1 1 demo_n_harm
              [(1, 0)] H) as (st & E & _).
  exists st. exact E.
Defined.

Lemma cascade_forcing_reused_past_fifth_witness :
  (5 <= 7)%nat /\
  exists st u,
    @cascade scalar_ops demo_params tt 1 1 1 7 [(1, 0)] = Ok st /\
    build_forcing demo_params 4 (P st) None = Ok u.
Proof.
  assert (H : (5 <= 7)%nat) by lia.
  split; [exact H|].
  destruct (@cascade_forcing_reused_past_fifth scalar_ops demo_params tt 1 1 1 7
              [(1, 0)] H) as (st & u & E & Hu & _).
  exists st, u. split; assumption.
Defined.
